(** * dark-matter-hacks: the ROC analysis scripts and percent identity

    A shallow embedding of [scripts/rocAnalysis.py] (countHits,
    calculateFrequencies, youdenIndex, f1Index, areaUnderCurve,
    areaUnderCurveIndex) and of _getCountry, _getBird and computePercentId
    from [scripts/nicola.py], with the properties their specification
    states and further properties of the code.

    The scripts are Python 2.  Integers are unbounded ([Z]); a Python
    [float] is an IEEE-754 binary64 value, modelled by the Standard
    Library's [spec_float] at precision 53 and maximal exponent 1024, whose
    operations round to nearest, ties to even.  Exceptions are an explicit
    result type; dictionaries are [gmap]s; the lists that areaUnderCurve
    updates in place live in a store indexed by object references. *)

From Stdlib Require Import ZArith Lia Ascii String Floats.SpecFloat.
From stdpp Require Import gmap strings list fin_maps pretty sorting.

Open Scope Z_scope.

(** ** Python exceptions and results *)

Inductive exn : Set :=
  | IndexError
  | KeyError
  | ZeroDivisionError
  | OverflowError
  | ValueError.

#[global] Instance exn_eq_dec : EqDecision exn.
Proof. solve_decision. Defined.

Inductive result (A : Type) : Type :=
  | Ok (a : A)
  | Raise (e : exn).
Arguments Ok {A} a.
Arguments Raise {A} e.

#[global] Instance result_ret : MRet result := λ A a, Ok a.
#[global] Instance result_bind : MBind result := λ A B f c,
  match c with
  | Ok a => f a
  | Raise e => Raise e
  end.

(** [try: c except e: h] *)
Definition try_except {A} (c : result A) (e : exn) (h : result A) : result A :=
  match c with
  | Ok a => Ok a
  | Raise e' => if decide (e' = e) then h else Raise e'
  end.

(** A [for] loop whose body may raise: the state is threaded through the
    elements in order and the first exception ends the loop. *)
Fixpoint for_each {A S} (body : S → A → result S) (s : S) (l : list A) : result S :=
  match l with
  | [] => Ok s
  | a :: l' => s' ← body s a; for_each body s' l'
  end.

(** [l[i]] for a non-negative index. *)
Definition getitem {A} (l : list A) (i : nat) : result A :=
  match l !! i with
  | Some a => Ok a
  | None => Raise IndexError
  end.

(** [d[k]] *)
Definition getkey {A} (d : gmap string A) (k : string) : result A :=
  match d !! k with
  | Some a => Ok a
  | None => Raise KeyError
  end.

(** [s.split(sep)] for a one-character separator: every occurrence of the
    separator ends a field, so the result is never empty. *)
Fixpoint split (sep : ascii) (s : string) : list string :=
  match s with
  | EmptyString => [EmptyString]
  | String c s' =>
      if Ascii.eqb c sep then EmptyString :: split sep s'
      else match split sep s' with
           | f :: fs => String c f :: fs
           | [] => [String c EmptyString]
           end
  end.

(** [str(n)] of an integer. *)
Definition str (n : Z) : string := pretty n.

(** ** Python floats: binary64 *)

Abbreviation float := spec_float.

Definition prec : Z := 53.
Definition emax : Z := 1024.

Definition fadd : float → float → float := SFadd prec emax.
Definition fsub : float → float → float := SFsub prec emax.
Definition fmul : float → float → float := SFmul prec emax.
Definition fdiv : float → float → float := SFdiv prec emax.

(** The double nearest to an integer. *)
Definition float_of_Z (z : Z) : float := binary_normalize prec emax z 0 false.

(** The double nearest to the ratio of two positive integers: how a decimal
    literal such as [95.83333333333334] is read. *)
Definition float_of_ratio (n d : positive) : float :=
  let '(mz, ez, lz) := SFdiv_core_binary prec emax (Zpos n) 0 (Zpos d) 0 in
  binary_round_aux prec emax false mz ez lz.

Definition is_infinity (f : float) : bool :=
  match f with
  | S754_infinity _ => true
  | _ => false
  end.

(** [float(z)]: an integer that rounds beyond the largest double raises
    OverflowError. *)
Definition py_float (z : Z) : result float :=
  let f := float_of_Z z in
  if is_infinity f then Raise OverflowError else Ok f.

(** [a / b] on floats: a zero divisor (of either sign) raises. *)
Definition float_div (a b : float) : result float :=
  if SFeqb b (S754_zero false) then Raise ZeroDivisionError
  else Ok (fdiv a b).

(** A Python number: the rate lists hold floats and, after the
    zero-denominator policy, the integer 0. *)
Inductive num : Set :=
  | Int (z : Z)
  | Float (f : float).

(** Comparison of two numbers.  Python compares an integer with a float by
    value, without rounding the integer; a NaN compares with nothing. *)
Definition Z_compare_float (x : Z) (g : float) : option comparison :=
  match g with
  | S754_nan => None
  | S754_infinity s => Some (if s then Gt else Lt)
  | S754_zero _ => Some (x ?= 0)
  | S754_finite s m e =>
      let v := cond_Zopp s (Zpos m) in
      if 0 <=? e then Some (x ?= v * 2 ^ e) else Some (x * 2 ^ (- e) ?= v)
  end.

Definition num_compare (a b : num) : option comparison :=
  match a, b with
  | Int x, Int y => Some (x ?= y)
  | Float f, Float g => SFcompare f g
  | Int x, Float g => Z_compare_float x g
  | Float f, Int y => CompOpp <$> Z_compare_float y f
  end.

(** [a > b], [a <= b] *)
Definition num_gt (a b : num) : bool :=
  match num_compare a b with
  | Some Gt => true
  | _ => false
  end.

Definition num_le (a b : num) : bool :=
  match num_compare a b with
  | Some (Lt | Eq) => true
  | _ => false
  end.

(** The float an array of doubles stores for a Python number. *)
Definition to_float (n : num) : float :=
  match n with
  | Int z => float_of_Z z
  | Float f => f
  end.

(** ** Arithmetic and comparison of numbers *)

(** [a == b], [a < b] *)
Definition num_eq (a b : num) : bool :=
  match num_compare a b with
  | Some Eq => true
  | _ => false
  end.

Definition num_lt (a b : num) : bool :=
  match num_compare a b with
  | Some Lt => true
  | _ => false
  end.

(** The float operand of an operation on an integer and a float: the
    integer is converted as by [float()]. *)
Definition coerce (n : num) : result float :=
  match n with
  | Int z => py_float z
  | Float f => Ok f
  end.

(** [a + b], [a - b]: an integer when both operands are integers. *)
Definition num_add (a b : num) : result num :=
  match a, b with
  | Int x, Int y => Ok (Int (x + y))
  | _, _ => x ← coerce a; y ← coerce b; Ok (Float (fadd x y))
  end.

Definition num_sub (a b : num) : result num :=
  match a, b with
  | Int x, Int y => Ok (Int (x - y))
  | _, _ => x ← coerce a; y ← coerce b; Ok (Float (fsub x y))
  end.

(** ** Built-in functions on lists and dictionaries *)

(** [max(l)], [min(l)]: the first element is kept until a later one
    compares greater (smaller); an empty list raises ValueError. *)
Definition list_max (l : list num) : result num :=
  match l with
  | [] => Raise ValueError
  | v :: l' => Ok (foldl (λ m item, if num_gt item m then item else m) v l')
  end.

Definition list_min (l : list num) : result num :=
  match l with
  | [] => Raise ValueError
  | v :: l' => Ok (foldl (λ m item, if num_lt item m then item else m) v l')
  end.

Definition is_nan (n : num) : bool :=
  match n with
  | Float S754_nan => true
  | _ => false
  end.

(** [l.index(v)], where [v] is what [max(l)] or [min(l)] returned: the
    position of the first element that is [v] itself or equal to it.  A NaN
    equals nothing, but [max] and [min] return one only when it is the
    first element of the list, the object that [index] then meets first. *)
Fixpoint list_index (v : num) (l : list num) : result nat :=
  match l with
  | [] => Raise ValueError
  | a :: l' =>
      if num_eq a v || (is_nan a && is_nan v) then Ok 0%nat
      else i ← list_index v l'; Ok (S i)
  end.

(** [enumerate(l)] *)
Definition enumerate {A} (l : list A) : list (nat * A) := imap pair l.

(** [sorted(l, key=key)]: a stable sort that compares keys with [<].  Each
    element goes behind the elements that are not greater.  Where [<]
    orders the keys, as it does doubles other than NaN, this is the list
    every stable sort returns. *)
Fixpoint insort {A} (lt : A → A → bool) (a : A) (l : list A) : list A :=
  match l with
  | [] => [a]
  | b :: l' => if lt a b then a :: b :: l' else b :: insort lt a l'
  end.

Definition sorted {A K} (key : A → K) (lt : K → K → bool) (l : list A)
    : list A :=
  foldl (λ acc a, insort (λ u v, lt (key u) (key v)) a acc) [] l.

(** [d.iteritems()]: the items in the order in which a loop over the
    dictionary visits them. *)
Definition iteritems {A} (d : gmap string A) : list (string * A) :=
  reverse (map_to_list d).

(** ** BLAST records, as the reader of the [dark] package yields them *)

Record HSP : Type := {
  bits : num;
  hsp_query : string;
  sbjct : string
}.

Record Alignment : Type := {
  hsps : list HSP
}.

Record BlastRecord : Type := {
  query : string;
  alignments : list Alignment
}.

(** ** The store of list objects

    A Python list is an object: two names for one list see each other's
    updates.  The store maps a reference to the current contents of the
    list it denotes. *)

Abbreviation loc := positive.
Abbreviation heap := (gmap positive (list num)).

(** [l.append(v)] *)
Definition list_append (l : loc) (v : num) (h : heap) : heap :=
  alter (λ xs, xs ++ [v]) l h.

(** [l.insert(0, v)] *)
Definition list_insert_front (l : loc) (v : num) (h : heap) : heap :=
  alter (cons v) l h.

(** A new list object. *)
Definition alloc (xs : list num) (h : heap) : loc * heap :=
  let r := fresh (dom h) in (r, <[r := xs]> h).

(** ** scipy.integrate.trapz

    The composite trapezoidal rule of numpy, which scipy re-exports:
    [(diff(x) * (y[1:] + y[:-1]) / 2.0).sum()] on arrays of doubles.  The
    product follows numpy's broadcasting of one-dimensional arrays.  The
    sum is numpy's add.reduce, which adds the terms pairwise, in blocks of
    eight; the order matters, since the addition of doubles rounds. *)

Definition broadcast (f : float → float → float) (a b : list float)
    : result (list float) :=
  if decide (length a = length b) then Ok (zip_with f a b)
  else match a, b with
       | [u], _ => Ok (f u <$> b)
       | _, [v] => Ok ((λ u, f u v) <$> a)
       | _, _ => Raise ValueError
       end.

(** [x[1:] - x[:-1]] *)
Definition diff (x : list float) : list float :=
  zip_with fsub (drop 1 x) (take (length x - 1)%nat x).

(** The loop [for (i = 8; i < n - (n % 8); i += 8)] of numpy's
    pairwise_sum: each of the eight accumulators [r] takes the element at
    its place of each of the next [blocks] blocks of eight.  The elements
    that no block holds are returned with the accumulators. *)
Fixpoint accumulate (blocks : nat) (r a : list float)
    : list float * list float :=
  match blocks with
  | O => (r, a)
  | S blocks => accumulate blocks (zip_with fadd r (take 8 a)) (drop 8 a)
  end.

(** [((r[0] + r[1]) + (r[2] + r[3])) + ((r[4] + r[5]) + (r[6] + r[7]))] *)
Definition add_accumulators (r : list float) : float :=
  match r with
  | [r0; r1; r2; r3; r4; r5; r6; r7] =>
      fadd (fadd (fadd r0 r1) (fadd r2 r3)) (fadd (fadd r4 r5) (fadd r6 r7))
  | _ => S754_nan
  end.

(** pairwise_sum on 8 to 128 elements: the first eight elements start the
    accumulators, the whole blocks of eight after them are added to the
    accumulators, the accumulators are added up as a tree, and the
    [n % 8] elements left are added to that sum one by one. *)
Definition block_sum (a : list float) : float :=
  let '(r, rest) :=
    accumulate (length a / 8 - 1) (take 8 a) (drop 8 a) in
  foldl fadd (add_accumulators r) rest.

(** pairwise_sum: fewer than eight elements are added one by one to 0.0;
    more than 128 are split in two parts, the first of a length that is a
    multiple of eight, and the sums of the parts are added.  A part is
    shorter than the whole, so [fuel] at least the length is never used
    up (pairwise_sum_fuel below). *)
Fixpoint pairwise_sum (fuel : nat) (a : list float) : float :=
  let n := length a in
  if decide (n < 8)%nat then foldl fadd (S754_zero false) a
  else if decide (n ≤ 128)%nat then block_sum a
  else
    match fuel with
    | O => S754_nan
    | S fuel =>
        let n2 := (n / 2 - (n / 2) mod 8)%nat in
        fadd (pairwise_sum fuel (take n2 a)) (pairwise_sum fuel (drop n2 a))
    end.

(** [a.sum()]: add.reduce starts from the unit of addition, 0.0, and adds
    the pairwise sum of the array to it. *)
Definition add_reduce (a : list float) : float :=
  fadd (S754_zero false) (pairwise_sum (length a) a).

Definition trapz (y x : list num) : result float :=
  let y := to_float <$> y in
  let x := to_float <$> x in
  let d := diff x in
  let s := zip_with fadd (drop 1 y) (take (length y - 1)%nat y) in
  p ← broadcast fmul d s;
  Ok (add_reduce ((λ v, fdiv v (float_of_Z 2)) <$> p)).

(** ** scripts/rocAnalysis.py *)

Module rocAnalysis.

Section countHits.

(** The records read from a BLAST output file. *)
Variable _records : string → list BlastRecord.

Definition readsPerLevel_init : gmap string Z :=
  list_to_map
    [("100", 0); ("99", 0); ("95", 0); ("90", 0); ("85", 0); ("80", 0);
     ("75", 0); ("70", 0); ("65", 0); ("60", 0); ("55", 0); ("50", 0);
     ("45", 0); ("40", 0); ("35", 0); ("30", 0); ("25", 0); ("20", 0);
     ("15", 0); ("10", 0); ("5", 0); ("0", 0)]%string.

(** The body of the loop over the records. *)
Definition count_record (cutoff : num) (readsPerLevel : gmap string Z)
    (record : BlastRecord) : result (gmap string Z) :=
  let query := query record in
  level ← getitem (split "|" query) 2;
  match getitem (alignments record) 0 with
  | Raise IndexError => Ok readsPerLevel
  | Raise e => Raise e
  | Ok alignment =>
      hsp ← getitem (hsps alignment) 0;
      let score := bits hsp in
      if num_gt score cutoff then
        n ← getkey readsPerLevel level;
        Ok (<[level := n + 1]> readsPerLevel)
      else Ok readsPerLevel
  end.

Definition countHits (blastFile : string) (cutoff : num)
    : result (string * gmap string Z) :=
  let readsPerLevel := readsPerLevel_init in
  t ← getitem (split "." blastFile) 2;
  title ← getitem (split "/" t) 4;
  let records := _records blastFile in
  readsPerLevel ← for_each (count_record cutoff) readsPerLevel records;
  Ok (title, readsPerLevel).

End countHits.

(** The value of one scheme in the dictionary calculateFrequencies returns. *)
Record SchemeFrequencies : Type := {
  fprs : list num;
  tprs : list num;
  spcs : list num;
  tps : list Z;
  tns : list Z;
  fps : list Z;
  fns : list Z;
  raw : list Z
}.

Definition levels : list Z :=
  [100; 99; 95; 90; 85; 80; 75; 70; 65; 60; 55; 50; 45; 40; 35; 30; 25; 20;
   15; 10; 5; 0].

(** [sum(l)] *)
Definition sum (l : list Z) : Z := foldl Z.add 0 l.

(** A loop over the items of a dictionary that fills a new dictionary. *)
Definition dict_for {A B} (f : string → A → result B) (d : gmap string A)
    : result (gmap string B) :=
  map_fold (λ k a acc, m ← acc; b ← f k a; Ok (<[k := b]> m)) (Ok ∅) d.

(** The false positive rate and the specificity, with the policy for a zero
    denominator. *)
Definition rates (fp tn : Z) : result (num * num) :=
  try_except
    (a ← py_float fp; b ← py_float (fp + tn); fpr ← float_div a b;
     c ← py_float tn; d ← py_float (fp + tn); spc ← float_div c d;
     Ok (Float fpr, Float spc))
    ZeroDivisionError
    (Ok (Int 0, Int 0)).

(** One round of the loop [for i, level in enumerate(res)]. *)
Definition frequencies_step (res : list Z) (acc : SchemeFrequencies) (i : nat)
    : result SchemeFrequencies :=
  let tp := sum (take (i + 1) res) in
  let fp := sum (drop (i + 1) res) in
  let fn := 594 * (Z.of_nat i + 1) - tp in
  let tn := 594 * (22 - (Z.of_nat i + 1)) - fp in
  a ← py_float tp; b ← py_float (tp + fn); tpr ← float_div a b;
  '(fpr, spc) ← rates fp tn;
  Ok {| fprs := fprs acc ++ [fpr];
        tprs := tprs acc ++ [Float tpr];
        spcs := spcs acc ++ [spc];
        tps := tps acc ++ [tp];
        tns := tns acc ++ [tn];
        fps := fps acc ++ [fp];
        fns := fns acc ++ [fn];
        raw := raw acc |}.

Definition scheme_frequencies (res : list Z) : result SchemeFrequencies :=
  for_each (frequencies_step res)
    {| fprs := []; tprs := []; spcs := []; tps := []; tns := []; fps := [];
       fns := []; raw := res |}
    (seq 0 (length res)).

Definition scheme_list (counts : gmap string Z) : result (list Z) :=
  mapM (λ nr, getkey counts (str nr)) levels.

Definition calculateFrequencies (hitDict : gmap string (gmap string Z))
    : result (gmap string SchemeFrequencies) :=
  listDict ← dict_for (λ _ counts, scheme_list counts) hitDict;
  dict_for (λ _ res, scheme_frequencies res) listDict.

(** [copy.copy(d)] of a dictionary: a new dictionary with the same values.
    The values of the frequencies dictionary are references, so the copy
    shares every list with the original. *)
Definition copy_copy {A} (d : gmap string A) : gmap string A := d.

(** The body of the loop of areaUnderCurve; [d] is
    [freqs[scoringScheme]], a dictionary from field name to list object. *)
Definition area_step (d : gmap string loc) (h : heap) : result (float * heap) :=
  x ← getkey d "fprs";
  y ← getkey d "tprs";
  let h := list_append x (Float (S754_zero false)) h in
  let h := list_append y (Float (S754_zero false)) h in
  let h := list_insert_front x (Float (float_of_Z 1)) h in
  let h := list_insert_front y (Float (float_of_Z 1)) h in
  y_int ← trapz (h !!! y) (h !!! x);
  Ok (fmul y_int (float_of_Z (-1)), h).

Definition areaUnderCurve (frequencies : gmap string (gmap string loc))
    (h : heap) : result (gmap string float * heap) :=
  let freqs := copy_copy frequencies in
  map_fold
    (λ scoringScheme d acc,
       '(integrated, h) ← acc;
       '(area, h) ← area_step d h;
       Ok (<[scoringScheme := area]> integrated, h))
    (Ok (∅, h)) freqs.

(** The objects behind a dictionary returned by calculateFrequencies: every
    list of every scheme is a list object of its own. *)
Definition store_scheme (fr : SchemeFrequencies) (h : heap)
    : gmap string loc * heap :=
  let '(r1, h) := alloc (fprs fr) h in
  let '(r2, h) := alloc (tprs fr) h in
  let '(r3, h) := alloc (spcs fr) h in
  let '(r4, h) := alloc (Int <$> tps fr) h in
  let '(r5, h) := alloc (Int <$> tns fr) h in
  let '(r6, h) := alloc (Int <$> fps fr) h in
  let '(r7, h) := alloc (Int <$> fns fr) h in
  let '(r8, h) := alloc (Int <$> raw fr) h in
  (list_to_map
     [("fprs", r1); ("tprs", r2); ("spcs", r3); ("tps", r4); ("tns", r5);
      ("fps", r6); ("fns", r7); ("raw", r8)]%string, h).

Definition store_frequencies (frequencies : gmap string SchemeFrequencies)
    (h : heap) : gmap string (gmap string loc) * heap :=
  map_fold
    (λ scoringScheme fr '(m, h),
       let '(d, h) := store_scheme fr h in (<[scoringScheme := d]> m, h))
    (∅, h) frequencies.

(** [frequencies[scoringScheme][k]]: the list a field of a scheme denotes. *)
Definition field (d : gmap string loc) (k : string) (h : heap)
    : result (list num) :=
  r ← getkey d k; Ok (h !!! r).

(** One round of the loop [for i, l in enumerate(x)] of youdenIndex. *)
Definition youden_step (x y : list num) (youdens : list num) (i : nat)
    : result (list num) :=
  xi ← getitem x i; yi ← getitem y i;
  s ← num_add xi yi; youden ← num_sub s (Int 1);
  Ok (youdens ++ [youden]).

(** The body of the loop over the schemes. *)
Definition youden_scheme (d : gmap string loc) (h : heap)
    : result ((num * num) * nat) :=
  x ← field d "spcs" h;
  y ← field d "tprs" h;
  youdens ← for_each (youden_step x y) [] (seq 0 (length x));
  youdenIndex ← list_max youdens;
  cutoff ← list_index youdenIndex youdens;
  i ← list_index youdenIndex youdens; tpr ← getitem y i;
  fprs ← field d "fprs" h;
  j ← list_index youdenIndex youdens; fpr ← getitem fprs j;
  let element := (tpr, fpr) in
  Ok (element, cutoff).

Definition youdenIndex (frequencies : gmap string (gmap string loc))
    (h : heap) : result (list (num * num) * list nat) :=
  map_fold
    (λ scoringScheme d acc,
       '(youdenCoords, cutoffs) ← acc;
       '(element, cutoff) ← youden_scheme d h;
       Ok (youdenCoords ++ [element], cutoffs ++ [cutoff]))
    (Ok ([], [])) frequencies.

Section f1Index.

(** [v ** 2] on a float: float.__pow__ with the exponent 2.0, which screens
    the special values and hands the others to the [pow] of the platform's
    C library. *)
Variable float_pow2 : float → result float.

(** [a ** 2] *)
Definition num_pow2 (a : num) : result num :=
  match a with
  | Int z => Ok (Int (z * z))
  | Float f => p ← float_pow2 f; Ok (Float p)
  end.

Definition f1_step (x y : list num) (f1s : list num) (i : nat)
    : result (list num) :=
  xi ← getitem x i; dx ← num_sub (Int 1) xi; px ← num_pow2 dx;
  yi ← getitem y i; dy ← num_sub (Int 1) yi; py ← num_pow2 dy;
  f1 ← num_add px py;
  Ok (f1s ++ [f1]).

Definition f1_scheme (d : gmap string loc) (h : heap)
    : result ((num * num) * nat) :=
  x ← field d "spcs" h;
  y ← field d "tprs" h;
  f1s ← for_each (f1_step x y) [] (seq 0 (length x));
  f1Index ← list_min f1s;
  cutoff ← list_index f1Index f1s;
  i ← list_index f1Index f1s; tpr ← getitem y i;
  fprs ← field d "fprs" h;
  j ← list_index f1Index f1s; fpr ← getitem fprs j;
  let element := (tpr, fpr) in
  Ok (element, cutoff).

Definition f1Index (frequencies : gmap string (gmap string loc)) (h : heap)
    : result (list (num * num) * list nat) :=
  map_fold
    (λ scoringScheme d acc,
       '(f1Coords, cutoffs) ← acc;
       '(element, cutoff) ← f1_scheme d h;
       Ok (f1Coords ++ [element], cutoffs ++ [cutoff]))
    (Ok ([], [])) frequencies.

End f1Index.

(** The areas are doubles; [item[1]] is the key of the sort, [[::-1]]
    reverses the sorted list. *)
Definition areaUnderCurveIndex (integrated : gmap string float)
    : gmap string nat :=
  let sortedIntegrated :=
    reverse (sorted snd SFltb (iteritems integrated)) in
  foldl (λ indexes '(i, item), <[item.1 := i]> indexes) ∅
        (enumerate sortedIntegrated).

End rocAnalysis.

(** ** scripts/nicola.py *)

Module nicola.

(** *** The patterns

    Every pattern of the module is a list of words separated by [|] and is
    compiled with [re.I]: it is found in a title when one of its words
    occurs in it, the letters A to Z compared without their case. *)

Definition lower (c : ascii) : ascii :=
  let n := nat_of_ascii c in
  if (65 <=? n)%nat && (n <=? 90)%nat then ascii_of_nat (n + 32) else c.

(** [word] is at the start of [s]. *)
Fixpoint starts_with (word s : string) : bool :=
  match word, s with
  | EmptyString, _ => true
  | String _ _, EmptyString => false
  | String a word', String b s' =>
      Ascii.eqb (lower a) (lower b) && starts_with word' s'
  end.

(** [word] is somewhere in [s]. *)
Fixpoint occurs (word s : string) : bool :=
  starts_with word s ||
  match s with
  | EmptyString => false
  | String _ s' => occurs word s'
  end.

(** [re.compile(pattern, re.I).search(title)], as a truth value. *)
Definition search (pattern title : string) : bool :=
  existsb (λ word, occurs word title) (split "|" pattern).

(** Colour by all taxonomic groups. *)
Definition ANSERIFORMESREGEX : string :=
  ("duck|waterfowl|widgeon|wigeon|pintail|garganey|teal|mallard|" ++
   "shoveler|gadwall|canvasback|redhead|pochard|scaup|merganser|" ++
   "eider|scoter|goldeneye|bufflehead|smew|goosander|shelduck|" ++
   "swan|goose|coot|scooter")%string.

Definition CHARADRIIFORMESREGEX : string :=
  ("gull|tern|shorebird|turnstone|sandpiper|dunlin|watercock|" ++
   "lapwing|knot|curlew|kittiwake|snipe|sanderling|stint|plover|" ++
   "woodcock|murre|puffin|guillemot|shearwater|oystercatcher")%string.

Definition PELICANIFORMESREGEX : string :=
  "pelican|heron|egret|cormorant|grebe|crane".

Definition DOMESTICREGEX : string :=
  ("chicken|FPV|turkey|quail|guinea|ostrich|emu|fowl|pheasant|" ++
   "poultry|rhea|chicken|partridge|bantam|perdix|peacock|chukkar")%string.

Definition COLUMBIFORMESREGEX : string := "pigeon|dove".

Definition PASSERIFORMESREGEX : string :=
  ("sparrow|wheatear|starling|munia|finch|softbill|shrike|robin|" ++
   "blackbird|myna|iora|magpie|crow")%string.

Definition PSITTATICIFORMESREGEX : string :=
  ("budgerigar|parrakeet|psittacine|cockatoo|conure|macaw|" ++
   "parakeet|parrot")%string.

Definition RAPTORREGEX : string :=
  "hawk|kestrel|goshawk|buzzard|falcon|owl|eagle|harrier".

Definition INDETERMINATEHOSTREGEX : string := "avian|aquatic|bird".

(** Colour by Anseriformes and Charadriiformes.  DOMESTICREGEX is bound a
    second time here, to the same pattern. *)
Definition ANATINAEREGEX : string :=
  ("waterfowl|wigeon|widgeon|pintail|garganey|teal|mallard|" ++
   "shoveler|gadwall|black duck|scooter")%string.

Definition AYTHYAREGEX : string :=
  "canvasback|tufted duck|redhead|pochard|ferroginous duck|scaup".

Definition MERGINIREGEX : string :=
  ("merganser|eider|scoter|long-tailed duck|goldeneye|bufflehead|" ++
   "smew|goosander")%string.

Definition TADORNINIREGEX : string := "shelduck".

Definition SWANREGEX : string := "swan".

Definition GOOSEREGEX : string := "goose".

Definition GULLREGEX : string := "gull".

Definition TERNREGEX : string :=
  "tern|Arctic tern|Common Tern|little tern|sooty tern".

Definition WADERREGEX : string :=
  ("shorebird|ruddy turnstone|turnstone|sandpiper|dunlin|" ++
   "watercock|northern lapwing|knot|curlew|sanderling|stint|" ++
   "plover|woodcock")%string.

Definition AUKREGEX : string := "murre|puffin|guillemot|shearwater".

(** The colours, in the order in which the module binds them.  A name that
    is bound twice, as DOMESTIC is, has its last value when a function
    runs. *)
Definition colour_bindings : list (string * string) :=
  [("NEITHER", "grey"); ("CHARADRIIFORMES", "red"); ("ANSERIFORMES", "green");
   ("PELICANIFORMES", "cyan"); ("DOMESTIC", "blue");
   ("COLUMBIFORMES", "magenta"); ("PASSERIFORMES", "orange");
   ("PSITTATICIFORMES", "#4C0B5F"); ("RAPTOR", "yellow");
   ("INDETERMINATEHOST", "black");
   ("ANATINAE", "green"); ("AYTHYA", "blue"); ("MERGINI", "cyan");
   ("TADORNINI", "#00FF00"); ("SWAN", "#088A68"); ("GOOSE", "#A9F5D0");
   ("GULL", "red"); ("TERN", "orange"); ("WADER", "#4C0B5F");
   ("AUK", "yellow"); ("DOMESTIC", "black"); ("OTHER", "grey")]%string.

Definition colours : gmap string string :=
  foldl (λ g '(name, value), <[name := value]> g) ∅ colour_bindings.

(** The value of a colour name when a function runs. *)
Definition colour (name : string) : string := colours !!! name.

(** Countries. *)
Definition EURASIAREGEX : list string :=
  ["Republic of Georgia"; "Sweden"; "Norway"; "Hokkaido"; "Mongolia";
   "Iceland"; "Astrakhan"; "Siberia"; "Netherlands"; "Potsdam";
   "Ukraine"; "Hubei"; "Hong Kong"; "England"; "Czech Republic";
   "United Kingdom"; "Czechoslovakia"; "Shimane"; "Germany"; "Leipzig";
   "Scotland"; "Henan"; "Stralsund"; "HuNan"; "Marquenterre"; "Berlin";
   "Rugen"; "Jena"; "Korea"; "Wagun"; "Postdam"; "France"; "Italy";
   "Dongting"; "Heinersdorf"; "Altai"; "Egypt"; "Guangxi"; "Taiwan";
   "Gurjev"; "Jiangxi"; "HK"; "Chabarovsk"; "Shantou"; "England-Q";
   "South Africa"; "Jiang Xi"; "Nanjing"; "Vietnam"; "Primorie";
   "India"; "Denmark"; "Thailand"; "Guangdong"; "Xianghai"; "Spain";
   "Lebanon"; "Shiga"; "Jiangsu"; "Bavaria"; "Hunan"; "Eastern China";
   "PT"; "Belgium"; "Australia"; "Slovenia"; "Yunnan"; "Yokohama";
   "Guizhou"; "Fujian"; "Singapore-Q"; "Hungary"; "Iran"; "Japan";
   "Pakistan"; "Moscow"; "Israel"; "Shimone"; "Nanchang";
   "Saudi Arabia"; "Hampshire"; "Perak"; "Gloucestershire"; "SanJiang";
   "Hei Longjiang"; "Ireland"; "Dubai"; "Netherlands2"; "Zhejiang";
   "Malaysia"; "Sanjiang"; "Chany"; "Portugal"; "Heilongjiang";
   "Qinghai"; "AUS"; "Tasmania"; "Western Australia"; "HONG KONG";
   "Hebei"; "HuBei"; "Beijing"; "Victoria"; "ZhaLong"; "Yan chen";
   "Shandong"; "Buryatiya"; "Interior Alaska"; "Xuyi"; "Hongze";
   "Laos"; "Mongolia"; "Osaka"; "Yangzhou"; "Aktau"; "Chiba";
   "Huadong"; "Shanghai"; "Anyang"; "Akita"; "Gui Yang"; "Karachi";
   "Tyva"; "Jilin"; "New Zealand"; "Lao"; "Suphanburi"; "Bulgaria";
   "Aomori"; "Fukushima"; "Hamanaka"; "Yamaguchi"; "Tochigi";
   "Kagoshima"; "Anhui"; "Singapore"; "Guiyang"; "Nam Dinh";
   "Ninh Binh"; "Sichuan"; "Phu Tho"; "Oita"; "Son La"; "Thai Ninh";
   "Thai Binh"; "Ha Nam"; "Nghe An"; "Hai Duong"; "Ha Tinh";
   "Bac Gieng"; "Bac Giang"; "Mong Cai"; "Primorje"; "Cao Bang";
   "Bac Ninh"; "Kyoto"; "Toyama"; "Aichi"; "Oregon"; "Switzerland";
   "Pavia"; "Austria"; "NZL"; "Northern Ireland"; "Finland";
   "Viet Nam"; "KOREA"; "Newcastle"; "Cheongju"; "Morpeth";
   "Middle East"; "Jordan"; "Neve Ilan"; "Beit HaLevi"; "Givat Haim";
   "Eshkol"; "Tel Adashim"; "Talmei Elazar"; "Narita"; "Tianjing";
   "China"; "Gansu"; "Shijiazhuang"; "Shenzhen"; "Heibei"; "Emirates";
   "Gangxi"; "Xuzhou"; "Atyrau"; "Volga"; "Turkmenistan";
   "Novosibirsk"; "Almaty"; "Miyagi"; "Tsukuba"; "Praimoric"; "Crimea";
   "Italy12rs206-2"; "Wales"; "Iwate"; "Gunma"; "Fukui"; "Seongdong";
   "bavaria"; "Indonesia"; "Netherland-18"; "Barrow"; "Tainan";
   "San Jiang"; "Changhua"; "Geumgang"; "Wenzhou"; "Rizhao";
   "Korgalzhyn"; "Saitama"; "GuangXi"; "Bhutan"; "Bunbury"; "Perth";
   "Czech"; "Nha Trang"; "PoyangLake"; "Poyang Lake"; "Buryatuya";
   "Ningxia"; "Guangzhou"; "Dutch"; "Dobson"; "england"; "Brescia";
   "Turkmenia"; "Rostock"; "Niigata"; "Shizuoka"; "Chakwal";
   "Rawalpindi"; "Murree"; "Mansehra"; "Abbottabad"; "Queensland";
   "HongKong"; "It"; "Burytiya"; "Ibaraki";
   "Weybridge|Segment:6|Subtype:H7N7|Host:Avian"; "Mangystau";
   "Ulster"; "Miyagil"; "Burjatia"; "kumamoto"; "Tunka"; "NSW";
   "New South Wales"; "Sheny"; "Liaoning"; "Tibet"; "Shanxi";
   "Islamabad"; "Lahore-Pakistan"; "West Bengal"; "Manshera";
   "SouthKalimantan"; "Palopo"; "EastKalimantan"; "Islamabad-Pakistan";
   "Mansehra-Pakistan"; "Pakistan-Khi"; "Sihala"; "Pakistan-Lhr";
   "Afghanistan"; "Deli Serdang"; "Suzdalka"; "Chakshahzad"; "Croatia";
   "Omsk"; "Krasnoozerskoe"; "Taput"; "Siantar"; "Pinrang";
   "Pare Pare"; "BIH"; "Denpasar"; "Tanjung Balai"; "Tana Toraja";
   "Simalungun"; "Medan"; "Maros"; "Mamuju"; "Karo"; "Gianyar";
   "Aceh Barat"; "South Kalimantan"; "Langkat"; "Bangladesh"; "Suzhou";
   "Bantaeng"; "Xinjiang"; "East Java"; "West Java"; "Sidrap";
   "Bantul"; "Ciamis"; "Bireun"; "Aceh Besar"; "EastJava";
   "CentralJava"; "Tabanan"; "Pidie"; "Banten"; "Heuwiese"; "Astr";
   "Jalisco"; "Slovakia"; "Koymor"; "Yangcheng"; "Tagarskoe lake";
   "South Kazakhstan"; "Ust-Ilimsk"; "Gaoyou";
   "Dobson|Segment:8|Subtype:H7N7|Host:Avian"; "FPV";
   "Weybridge|Segment:8|Subtype:H7N7|Host:Avian"; "Bethlehem-Glilit";
   "Gippsland"]%string.

Definition NORTHAMERICAREGEX : list string :=
  ["Southcentral Alaska"; "Southeastern Alaska"; "Quebec";
   "New Brunswick"; "DE"; "Newfoundland"; "Maryland"; "Minnesota";
   "NJ"; "Alaska"; "California"; "Delaware"; "Georgia"; "Delaware Bay";
   "New Jersey"; "New York"; "MT"; "Alberta"; "NY"; "PA";
   "Pennsylvania"; "CA"; "Washington"; "ST"; "MN"; "Wisconsin"; "TX";
   "Texas"; "Stockton"; "Missouri"; "ALB"; "Ohio"; "Virginia";
   "Arkansas"; "Iowa"; "North Carolina"; "Nova Scotia"; "Tennessee";
   "Illinois"; "New Mexico"; "Mississippi"; "Canada"; "Alabama";
   "Louisiana"; "Arizona"; "LA"; "Ontario"; "Massachusetts"; "OH";
   "Connecticut"; "MD"; "Colorado"; "Memphis"; "Saskatchewan";
   "North Dakota"; "VA"; "Michigan"; "Maine"; "Prince Edward Island";
   "JX"; "WI"; "MO"; "SD"; "IN"; "South Dakota";
   "Newfoundland and Labrador"; "Utah"; "Kentucky"; "CO";
   "Massachussetts"; "Indiana"; "Maryland"; "QC"; "SK"; "Montana";
   "GA"; "Manitoba"; "Edmonton"; "Nunavet"; "British Columbia"; "NB";
   "BC"; "Barbados"; "Wyoming"; "NV"]%string.

Definition SOUTHAMERICAREGEX : list string :=
  ["Chile"; "Argentina"; "Guatemala"; "Brazil"; "Mexico";
   "Ilha de Canelas"]%string.

Definition AFRICAREGEX : list string :=
  ["Zambia"; "Zimbabwe"; "SouthAfrica"; "Nigeria"]%string.

Definition EURASIA : string := "#E0F2F7".
Definition NORTHAMERICA : string := "#FBEFEF".
Definition SOUTHAMERICA : string := "#F5F6CE".
Definition AFRICA : string := "#CEF6D8".

(** What _getCountry returns: the integer 0 or a colour. *)
Inductive value : Set :=
  | IntValue (z : Z)
  | StrValue (s : string).

Definition _getCountry (title : string) : result value :=
  match getitem (split "/" title) 2 with
  | Raise IndexError => Ok (IntValue 0)
  | Raise e => Raise e
  | Ok country =>
      if bool_decide (country ∈ EURASIAREGEX) then Ok (StrValue EURASIA)
      else if bool_decide (country ∈ NORTHAMERICAREGEX)
      then Ok (StrValue NORTHAMERICA)
      else if bool_decide (country ∈ SOUTHAMERICAREGEX)
      then Ok (StrValue SOUTHAMERICA)
      else if bool_decide (country ∈ AFRICAREGEX) then Ok (StrValue AFRICA)
      else Ok (StrValue "white")
  end.

(** [None] is the value of a call that ends without a [return]. *)
Definition _getBird (title colorBy : string) : option string :=
  if String.eqb colorBy "anseriformes and charadriiformes" then
    let anatinae := search ANATINAEREGEX title in
    let aythya := search AYTHYAREGEX title in
    let mergini := search MERGINIREGEX title in
    let tadornini := search TADORNINIREGEX title in
    let swan := search SWANREGEX title in
    let goose := search GOOSEREGEX title in
    let gull := search GULLREGEX title in
    let tern := search TERNREGEX title in
    let wader := search WADERREGEX title in
    let auk := search AUKREGEX title in
    let domestic := search DOMESTICREGEX title in
    if anatinae then Some (colour "ANATINAE")
    else if aythya then Some (colour "AYTHYA")
    else if mergini then Some (colour "MERGINI")
    else if tadornini then Some (colour "TADORNINI")
    else if swan then Some (colour "SWAN")
    else if goose then Some (colour "GOOSE")
    else if gull then Some (colour "GULL")
    else if tern then Some (colour "TERN")
    else if wader then Some (colour "WADER")
    else if auk then Some (colour "AUK")
    else if domestic then Some (colour "DOMESTIC")
    else Some (colour "OTHER")
  else if String.eqb colorBy "all" then
    let anseriformes := search ANSERIFORMESREGEX title in
    let charadriiformes := search CHARADRIIFORMESREGEX title in
    let pelicaniformes := search PELICANIFORMESREGEX title in
    let domestic := search DOMESTICREGEX title in
    let columbiformes := search COLUMBIFORMESREGEX title in
    let passeriformes := search PASSERIFORMESREGEX title in
    let psittaticiformes := search PSITTATICIFORMESREGEX title in
    let raptor := search RAPTORREGEX title in
    let indetermined := search INDETERMINATEHOSTREGEX title in
    if anseriformes then Some (colour "ANSERIFORMES")
    else if charadriiformes then Some (colour "CHARADRIIFORMES")
    else if pelicaniformes then Some (colour "PELICANIFORMES")
    else if domestic then Some (colour "DOMESTIC")
    else if columbiformes then Some (colour "COLUMBIFORMES")
    else if passeriformes then Some (colour "PASSERIFORMES")
    else if psittaticiformes then Some (colour "PSITTATICIFORMES")
    else if raptor then Some (colour "RAPTOR")
    else if indetermined then Some (colour "INDETERMINATEHOST")
    else Some (colour "NEITHER")
  else None.

Definition computePercentId (alignment : Alignment) : result float :=
  h0 ← getitem (hsps alignment) 0;
  let query := hsp_query h0 in
  h0' ← getitem (hsps alignment) 0;
  let sbjct := sbjct h0' in
  let length := Z.of_nat (String.length query) in
  let identical :=
    foldl (λ identical '(queryBase, subjectBase),
             identical + Z.b2z (Ascii.eqb queryBase subjectBase))
          0 (zip (list_ascii_of_string query) (list_ascii_of_string sbjct)) in
  d ← py_float length;
  n ← py_float identical;
  q ← float_div n d;
  let identity := fmul q (float_of_Z 100) in
  Ok identity.

End nicola.

(** ** Descriptions used in the statements *)

(** The component of a path that countHits returns as the scheme name. *)
Definition path_scheme_name (blastFile : string) : option string :=
  t ← split "." blastFile !! 2%nat; split "/" t !! 4%nat.

(** The identity level of a record: the third field of its query. *)
Definition record_level (record : BlastRecord) : option string :=
  split "|" (query record) !! 2%nat.

(** The names of the 22 identity levels. *)
Definition level_names : list string := str <$> rocAnalysis.levels.

(** A record as the data model has it: the third field of its query names
    one of the 22 levels, and its first alignment, when it has one, has a
    high-scoring pair. *)
Definition well_formed_record (record : BlastRecord) : Prop :=
  (∃ level, record_level record = Some level ∧ level ∈ level_names) ∧
  match alignments record with
  | [] => True
  | alignment :: _ => hsps alignment ≠ []
  end.

(** The counts and the rates of round [i] of the loop of
    calculateFrequencies, as functions of the raw vector. *)
Definition tp_at (res : list Z) (i : nat) : Z :=
  rocAnalysis.sum (take (i + 1) res).
Definition fp_at (res : list Z) (i : nat) : Z :=
  rocAnalysis.sum (drop (i + 1) res).
Definition fn_at (res : list Z) (i : nat) : Z :=
  594 * (Z.of_nat i + 1) - tp_at res i.
Definition tn_at (res : list Z) (i : nat) : Z :=
  594 * (22 - (Z.of_nat i + 1)) - fp_at res i.

Definition tpr_at (res : list Z) (i : nat) : result float :=
  a ← py_float (tp_at res i);
  b ← py_float (tp_at res i + fn_at res i);
  float_div a b.

(** [(fpr, tpr, spc)] of round [i]. *)
Definition row (res : list Z) (i : nat) : result (num * num * num) :=
  tpr ← tpr_at res i;
  '(fpr, spc) ← rocAnalysis.rates (fp_at res i) (tn_at res i);
  Ok (fpr, Float tpr, spc).

(** The curve areaUnderCurve integrates: the point (1, 1) before the rates
    and the point (0, 0) after them. *)
Definition closed_curve (rates : list num) : list num :=
  Float (float_of_Z 1) :: rates ++ [Float (S754_zero false)].

(** The negated trapezoidal integral of tpr over fpr on the closed curve. *)
Definition area_of (fprs tprs : list num) : result float :=
  y_int ← trapz (closed_curve tprs) (closed_curve fprs);
  Ok (fmul y_int (float_of_Z (-1))).

(** The fpr and tpr lists of a scheme, as its caller sees them in a store. *)
Definition rate_lists (frequencies : gmap string (gmap string loc)) (h : heap)
    (scheme : string) : option (list num * list num) :=
  d ← frequencies !! scheme;
  x ← d !! "fprs"; y ← d !! "tprs";
  xs ← h !! x; ys ← h !! y;
  Some (xs, ys).

(** calculateFrequencies followed by areaUnderCurve, as a caller runs
    them. *)
Definition roc_area (hitDict : gmap string (gmap string Z))
    : result (gmap string float) :=
  frequencies ← rocAnalysis.calculateFrequencies hitDict;
  let '(refs, h) := rocAnalysis.store_frequencies frequencies ∅ in
  '(integrated, _) ← rocAnalysis.areaUnderCurve refs h;
  Ok integrated.

(** One scheme whose hits are all at identity level 100: its raw vector is
    [[n; 0; ...; 0]]. *)
Definition hits_at_100 (n : Z) : gmap string (gmap string Z) :=
  {[ "blastn4-545" := <["100" := n]> rocAnalysis.readsPerLevel_init ]}.

(** The lists of a scheme as the caller of calculateFrequencies sees them
    after [n] calls of areaUnderCurve on the dictionary it got. *)
Definition rate_lists_after (n : nat) (hitDict : gmap string (gmap string Z))
    (scheme : string) : result (option (list num * list num)) :=
  frequencies ← rocAnalysis.calculateFrequencies hitDict;
  let '(refs, h) := rocAnalysis.store_frequencies frequencies ∅ in
  h' ← Nat.iter n
         (λ acc, h ← acc; '(_, h') ← rocAnalysis.areaUnderCurve refs h; Ok h')
         (Ok h);
  Ok (rate_lists refs h' scheme).

(** The area that call number [n + 1] of areaUnderCurve on that dictionary
    returns for a scheme. *)
Definition area_at_call (n : nat) (hitDict : gmap string (gmap string Z))
    (scheme : string) : result (option float) :=
  frequencies ← rocAnalysis.calculateFrequencies hitDict;
  let '(refs, h) := rocAnalysis.store_frequencies frequencies ∅ in
  h' ← Nat.iter n
         (λ acc, h ← acc; '(_, h') ← rocAnalysis.areaUnderCurve refs h; Ok h')
         (Ok h);
  '(integrated, _) ← rocAnalysis.areaUnderCurve refs h';
  Ok (integrated !! scheme).

(** A list object is used by a dictionary of frequencies when it is the
    fprs or the tprs list of one of its schemes. *)
Definition rate_key (k : string) : Prop := k = "fprs"%string ∨ k = "tprs"%string.

Definition used_by (frequencies : gmap string (gmap string loc)) (r : loc)
    : Prop :=
  ∃ scheme d k, frequencies !! scheme = Some d ∧ rate_key k ∧ d !! k = Some r.

(** Every scheme has fprs and tprs lists in the store, and no list object
    serves twice: what calculateFrequencies returns. *)
Definition separate_lists (frequencies : gmap string (gmap string loc))
    (h : heap) : Prop :=
  (∀ scheme, is_Some (frequencies !! scheme) →
             is_Some (rate_lists frequencies h scheme)) ∧
  (∀ s1 s2 d1 d2 k1 k2 r,
     frequencies !! s1 = Some d1 → frequencies !! s2 = Some d2 →
     rate_key k1 → rate_key k2 →
     d1 !! k1 = Some r → d2 !! k2 = Some r → s1 = s2 ∧ k1 = k2).

(** What areaUnderCurve returns on a dictionary of frequencies and a store. *)
Definition area_post (frequencies : gmap string (gmap string loc)) (h : heap)
    (r : result (gmap string float * heap)) : Prop :=
  match r with
  | Ok (integrated, h') =>
      (∀ scheme, is_Some (integrated !! scheme) ↔
                 is_Some (frequencies !! scheme)) ∧
      (∀ scheme xs ys,
         rate_lists frequencies h scheme = Some (xs, ys) →
         (∃ a, area_of xs ys = Ok a ∧ integrated !! scheme = Some a) ∧
         rate_lists frequencies h' scheme
           = Some (closed_curve xs, closed_curve ys)) ∧
      (∀ r, ¬ used_by frequencies r → h' !! r = h !! r)
  | Raise e =>
      ∃ scheme xs ys,
        rate_lists frequencies h scheme = Some (xs, ys) ∧
        area_of xs ys = Raise e
  end.

(** The frequencies calculateFrequencies returns for a scheme. *)
Definition frequencies_of (hitDict : gmap string (gmap string Z))
    (scheme : string) : option rocAnalysis.SchemeFrequencies :=
  match rocAnalysis.calculateFrequencies hitDict with
  | Ok frequencies => frequencies !! scheme
  | Raise _ => None
  end.

(** The area areaUnderCurve returns for a scheme. *)
Definition area_for (hitDict : gmap string (gmap string Z)) (scheme : string)
    : option float :=
  match roc_area hitDict with
  | Ok integrated => integrated !! scheme
  | Raise _ => None
  end.

(** Tables whose counts are not negative: the inputs of calculateFrequencies
    the specification quantifies over. *)
Definition nonnegative_counts (hitDict : gmap string (gmap string Z)) : Prop :=
  ∀ scheme counts, hitDict !! scheme = Some counts →
    ∃ res, rocAnalysis.scheme_list counts = Ok res ∧ Forall (λ r, 0 ≤ r) res.

(** The number of positions at which two aligned strings agree. *)
Definition identity_count (query sbjct : string) : nat :=
  length (filter (λ p : ascii * ascii, p.1 = p.2)
            (zip (list_ascii_of_string query) (list_ascii_of_string sbjct))).

(** Follows the words of the specification: percent identity is [100*k/L],
    here the double nearest to that ratio. *)
Definition percent_identity_spec (k L : nat) : float :=
  fdiv (float_of_Z (100 * Z.of_nat k)) (float_of_Z (Z.of_nat L)).

(** A double whose value is the ratio [n / d], for [d > 0]. *)
Definition float_is_ratio (f : float) (n d : Z) : Prop :=
  match f with
  | S754_zero _ => n = 0
  | S754_finite s m e =>
      if 0 <=? e then cond_Zopp s (Zpos m) * 2 ^ e * d = n
      else cond_Zopp s (Zpos m) * d = n * 2 ^ (- e)
  | _ => False
  end.

(** What computePercentId computes: [k / float(L) * 100], the quotient
    rounded to a double and then the product rounded again. *)
Definition percent_identity_code (k L : nat) : float :=
  fmul (fdiv (float_of_Z (Z.of_nat k)) (float_of_Z (Z.of_nat L)))
       (float_of_Z 100).

(** The alignments of the tests of computePercentId in test/test_nicola.py. *)
Definition test_alignment (query sbjct : string) : Alignment :=
  {| hsps := [{| bits := Int 20; hsp_query := query; sbjct := sbjct |}] |}.

(** The first high-scoring pair of such an alignment. *)
Definition test_alignment_hsp (alignment : Alignment) : HSP :=
  default {| bits := Int 0; hsp_query := ""; sbjct := "" |}
          (hsps alignment !! 0%nat).

Definition test_identical : Alignment :=
  test_alignment "TACCCTGCGGCCCGCTACGGCTGG" "TACCCTGCGGCCCGCTACGGCTGG".
Definition test_different : Alignment :=
  test_alignment "TACCCTGCGGCCCGCTACGGCTGG" "------------------------".
Definition test_realistic : Alignment :=
  test_alignment "TACCCTGCGGCCCGCTACGGCTGG" "TACCCTGCGGCCCGC-ACGGCTGG".

(** The frequencies calculateFrequencies returns for the perfectly
    separating scheme. *)
Definition perfect_frequencies : gmap string rocAnalysis.SchemeFrequencies :=
  match rocAnalysis.calculateFrequencies (hits_at_100 594) with
  | Ok frequencies => frequencies
  | Raise _ => ∅
  end.

Definition perfect_scheme : rocAnalysis.SchemeFrequencies :=
  match rocAnalysis.scheme_frequencies (594 :: replicate 21 0) with
  | Ok fr => fr
  | Raise _ =>
      {| rocAnalysis.fprs := []; rocAnalysis.tprs := []; rocAnalysis.spcs := [];
         rocAnalysis.tps := []; rocAnalysis.tns := []; rocAnalysis.fps := [];
         rocAnalysis.fns := []; rocAnalysis.raw := [] |}
  end.

(** A file of three reads at identity level 95: one without alignments, one
    whose best score is above a cutoff of 30 and one whose best score is the
    cutoff; and a read whose first alignment has no high-scoring pair. *)
Definition read (query : string) (scores : list num) : BlastRecord :=
  {| query := query;
     alignments :=
       (λ score, {| hsps := [{| bits := score; hsp_query := ""; sbjct := "" |}] |})
         <$> scores |}.

Definition no_hsps_read : BlastRecord :=
  {| query := "gi|3|95"; alignments := [{| hsps := [] |}] |}.

Definition example_path : string :=
  "./data.v1/roc/runs/out/blastn4-545/reads.json".

Definition example_records (blastFile : string) : list BlastRecord :=
  if decide (blastFile = example_path)
  then [read "gi|1|95" []; read "gi|2|95" [Float (float_of_ratio 382 10)];
        read "gi|3|95" [Int 30]]
  else [].

(** ** Descriptions used in the further properties *)

(** A double other than NaN, as a point of a lexicographic order. *)
Definition float_key (f : float) : Z * Z * Z :=
  match f with
  | S754_nan => (0, 0, 0)
  | S754_infinity true => (-2, 0, 0)
  | S754_finite true m e => (-1, - e, Zneg m)
  | S754_zero _ => (0, 0, 0)
  | S754_finite false m e => (1, e, Zpos m)
  | S754_infinity false => (2, 0, 0)
  end.

Definition lex_compare (a b : Z * Z * Z) : comparison :=
  match a.1.1 ?= b.1.1 with
  | Eq => match a.1.2 ?= b.1.2 with
          | Eq => a.2 ?= b.2
          | c => c
          end
  | c => c
  end.

Definition lex_lt (a b : Z * Z * Z) : Prop :=
  a.1.1 < b.1.1 ∨
  (a.1.1 = b.1.1 ∧ (a.1.2 < b.1.2 ∨ (a.1.2 = b.1.2 ∧ a.2 < b.2))).

Definition is_float (n : num) : bool :=
  match n with
  | Float _ => true
  | Int _ => false
  end.

(** The best element of a list that begins with [v]: an element replaces
    the best one seen when it is [better]. *)
Definition fold_best (better : num → num → bool) (v : num) (l : list num)
    : num :=
  foldl (λ m item, if better item m then item else m) v l.

(** What [index] takes for the element it looks for. *)
Definition same (a v : num) : bool := num_eq a v || (is_nan a && is_nan v).

(** A loop over a dictionary that appends one pair of results for each
    item. *)
Definition collect_step {A B C} (g : C → result (A * B)) (_ : string) (d : C)
    (acc : result (list A * list B)) : result (list A * list B) :=
  '(cs, ks) ← acc; '(e, c) ← g d; Ok (cs ++ [e], ks ++ [c]).

(** What the loops of youdenIndex and f1Index compute at an index. *)
Definition youden_at (x y : list num) (i : nat) : result num :=
  xi ← getitem x i; yi ← getitem y i; s ← num_add xi yi; num_sub s (Int 1).

Definition f1_at (float_pow2 : float → result float) (x y : list num) (i : nat)
    : result num :=
  xi ← getitem x i; dx ← num_sub (Int 1) xi;
  px ← rocAnalysis.num_pow2 float_pow2 dx;
  yi ← getitem y i; dy ← num_sub (Int 1) yi;
  py ← rocAnalysis.num_pow2 float_pow2 dy;
  num_add px py.

(** youdenIndex for one scheme whose lists are [x], [y] and [fprs]. *)
Definition youden_of (x y fprs : list num) : result ((num * num) * nat) :=
  youdens ← for_each (rocAnalysis.youden_step x y) [] (seq 0 (length x));
  m ← list_max youdens;
  cutoff ← list_index m youdens;
  tpr ← getitem y cutoff; fpr ← getitem fprs cutoff;
  Ok ((tpr, fpr), cutoff).

(** What youdenIndex returns on a store in which the lists of every scheme
    are those of [lists]. *)
Definition youden_results (frequencies : gmap string (gmap string loc))
    (lists : string → option (list num * list num * list num))
    (r : list (num * num) * list nat) : Prop :=
  length r.1 = size frequencies ∧ length r.2 = size frequencies ∧
  ∀ k scheme d, iteritems frequencies !! k = Some (scheme, d) →
    ∃ x y fprs element cutoff,
      lists scheme = Some (x, y, fprs) ∧
      r.1 !! k = Some element ∧ r.2 !! k = Some cutoff ∧
      (cutoff < length x)%nat ∧
      youden_of x y fprs = Ok (element, cutoff).

(** A float, or the integer 0 that takes its place after a division by
    zero. *)
Definition float_or_zero (n : num) : Prop := is_float n = true ∨ n = Int 0.

(** The lists of a scheme before and after a call of areaUnderCurve. *)
Definition lists_of (frequencies : gmap string rocAnalysis.SchemeFrequencies)
    (scheme : string) : option (list num * list num * list num) :=
  fr ← frequencies !! scheme;
  Some (rocAnalysis.spcs fr, rocAnalysis.tprs fr, rocAnalysis.fprs fr).

Definition closed_lists_of
    (frequencies : gmap string rocAnalysis.SchemeFrequencies)
    (scheme : string) : option (list num * list num * list num) :=
  fr ← frequencies !! scheme;
  Some (rocAnalysis.spcs fr, closed_curve (rocAnalysis.tprs fr),
        closed_curve (rocAnalysis.fprs fr)).

(** The store of the perfectly separating scheme after one call of
    areaUnderCurve. *)
Definition perfect_store : gmap string (gmap string loc) * heap :=
  rocAnalysis.store_frequencies perfect_frequencies ∅.

Definition perfect_area : gmap string float * heap :=
  match rocAnalysis.areaUnderCurve perfect_store.1 perfect_store.2 with
  | Ok r => r
  | Raise _ => (∅, ∅)
  end.

(** A record that countHits counts: it has a first alignment, with a first
    pair whose score is above the cutoff. *)
Definition is_hit (cutoff : num) (record : BlastRecord) : bool :=
  match alignments record with
  | [] => false
  | alignment :: _ =>
      match hsps alignment with
      | [] => false
      | hsp :: _ => num_gt (bits hsp) cutoff
      end
  end.

(** The number of counted records of a level. *)
Definition hits_of (cutoff : num) (level : string)
    (records : list BlastRecord) : Z :=
  Z.of_nat (length (filter (λ record, record_level record = Some level ∧
                                      is_hit cutoff record = true) records)).

(** A first alignment without a high-scoring pair. *)
Definition no_first_hsp (record : BlastRecord) : Prop :=
  ∃ alignment rest, alignments record = alignment :: rest ∧ hsps alignment = [].

(** What computePercentId computes from the length of the query and the
    number of identical positions. *)
Definition percent_identity_result (k L : nat) : result float :=
  d ← py_float (Z.of_nat L); n ← py_float (Z.of_nat k);
  q ← float_div n d; Ok (fmul q (float_of_Z 100)).

(** The number of times a character occurs in a string. *)
Fixpoint occurrences (c : ascii) (s : string) : nat :=
  match s with
  | EmptyString => 0
  | String a s' => (if Ascii.eqb a c then 1 else 0) + occurrences c s'
  end.

(** [s.lower()] *)
Fixpoint lower_string (s : string) : string :=
  match s with
  | EmptyString => EmptyString
  | String a s' => String (nicola.lower a) (lower_string s')
  end.

(** The colours of the subgroups of the Anseriformes and of the
    Charadriiformes, when the colours are by these two orders. *)
Definition anseriformes_colours : list string :=
  nicola.colour <$> ["ANATINAE"; "AYTHYA"; "MERGINI"; "TADORNINI"; "SWAN";
                      "GOOSE"]%string.

Definition charadriiformes_colours : list string :=
  nicola.colour <$> ["GULL"; "TERN"; "WADER"; "AUK"]%string.

(** Every word of the pattern [fine] contains a word of the pattern
    [coarse]. *)
Definition subsumed (fine coarse : string) : bool :=
  forallb (λ word, nicola.search coarse word) (split "|" fine).

(** [v ** 2] where the C library's pow(v, 2.0) is the correctly rounded
    square; a finite [v] whose square is beyond the doubles raises
    OverflowError. *)
Definition exact_pow2 (f : float) : result float :=
  let p := fmul f f in
  if is_infinity p && negb (is_infinity f) then Raise OverflowError else Ok p.

(** The areas of two schemes. *)
Definition two_areas : gmap string float :=
  <["blastn4-545" := float_of_Z 1]> {["blastn2-333" := float_of_ratio 1 2]}.

(** The example file read from its end. *)
Definition reversed_records (blastFile : string) : list BlastRecord :=
  reverse (example_records blastFile).

Definition test_empty_query : Alignment := test_alignment "" "ACGT".
Definition test_swapped : Alignment :=
  test_alignment "TACCCTGCGGCCCGC-ACGGCTGG" "TACCCTGCGGCCCGCTACGGCTGG".
Definition test_longer_subject : Alignment :=
  test_alignment "TACCCTGCGGCCCGCTACGGCTGG" "TACCCTGCGGCCCGC-ACGGCTGGAAAA".

(** The double at place [k] of a curve. *)
Definition point (l : list num) (k : nat) : float :=
  match l !! k with
  | Some v => to_float v
  | None => S754_nan
  end.

(** The trapezoid between the points [k] and [k + 1] of a curve:
    [(x[k+1] - x[k]) * (y[k+1] + y[k]) / 2.0]. *)
Definition trapezoid (x y : list num) (k : nat) : float :=
  fdiv (fmul (fsub (point x (S k)) (point x k))
             (fadd (point y (S k)) (point y k)))
       (float_of_Z 2).

(** The sum of 23 doubles, written out in the order in which numpy adds
    them: the doubles 0 to 7 each take the double eight places on, the
    eight sums are added two by two, the doubles 16 to 22 are added to
    that one after the other, and the whole is added to 0.0. *)
Definition sum_of_23 (t : nat → float) : float :=
  let r j := fadd (t j) (t (8 + j)%nat) in
  let tree :=
    fadd (fadd (fadd (r 0%nat) (r 1%nat)) (fadd (r 2%nat) (r 3%nat)))
         (fadd (fadd (r 4%nat) (r 5%nat)) (fadd (r 6%nat) (r 7%nat))) in
  fadd (S754_zero false)
    (fadd (fadd (fadd (fadd (fadd (fadd (fadd tree
       (t 16%nat)) (t 17%nat)) (t 18%nat)) (t 19%nat)) (t 20%nat))
       (t 21%nat)) (t 22%nat)).

(** The negated sum of the 23 trapezoids of the closed curve of 22 rates. *)
Definition negated_area (fprs tprs : list num) : float :=
  fmul (sum_of_23 (trapezoid (closed_curve fprs) (closed_curve tprs)))
       (float_of_Z (-1)).

(** The same trapezoids added one after the other from 0.0. *)
Definition left_to_right_area (fprs tprs : list num) : float :=
  fmul (foldl fadd (S754_zero false)
          (trapezoid (closed_curve fprs) (closed_curve tprs) <$> seq 0 23))
       (float_of_Z (-1)).

(** An area formula at the rates calculateFrequencies returns for a
    scheme. *)
Definition area_of_scheme (area : list num → list num → float)
    (hitDict : gmap string (gmap string Z)) (scheme : string) : option float :=
  fr ← frequencies_of hitDict scheme;
  Some (area (rocAnalysis.fprs fr) (rocAnalysis.tprs fr)).

(** The table of one scheme with the given counts, from level 100 down. *)
Definition table_of (res : list Z) : gmap string (gmap string Z) :=
  {[ "blastn4-545" := list_to_map (zip (str <$> rocAnalysis.levels) res) ]}.

(** All 594 reads of each of the first [k] levels hit and none below: the
    scheme separates perfectly at threshold [k]. *)
Definition threshold_table (k : nat) : gmap string (gmap string Z) :=
  table_of (replicate k 594 ++ replicate (22 - k) 0).

(** The counts 21, 20, ..., 0 from level 100 down. *)
Definition descending_table : gmap string (gmap string Z) :=
  table_of (Z.of_nat <$> reverse (seq 0 22)).

(** The point (fpr, tpr) of threshold [i], as doubles. *)
Definition curve_point (hitDict : gmap string (gmap string Z))
    (scheme : string) (i : nat) : option (float * float) :=
  fr ← frequencies_of hitDict scheme;
  x ← rocAnalysis.fprs fr !! i; y ← rocAnalysis.tprs fr !! i;
  Some (to_float x, to_float y).

(** * Properties *)

(** ** The result monad and loops *)

Lemma bind_Ok {A B} (c : result A) (f : A → result B) (b : B) :
  c ≫= f = Ok b ↔ ∃ a, c = Ok a ∧ f a = Ok b.
Proof.
  destruct c as [a|e]; simpl; split.
  - intros H. by exists a.
  - by intros (a' & [= <-] & H).
  - discriminate.
  - by intros (a' & [=] & _).
Qed.

Lemma bind_Raise {A B} (c : result A) (f : A → result B) (e : exn) :
  c ≫= f = Raise e ↔ c = Raise e ∨ ∃ a, c = Ok a ∧ f a = Raise e.
Proof.
  destruct c as [a|e']; simpl; split.
  - intros H. right. by exists a.
  - intros [[=] | (a' & [= <-] & H)]. done.
  - intros [= ->]. by left.
  - intros [[= ->] | (a' & [=] & _)]. done.
Qed.

Lemma for_each_app {A S} (body : S → A → result S) (s : S) (l1 l2 : list A) :
  for_each body s (l1 ++ l2) = for_each body s l1 ≫= λ s', for_each body s' l2.
Proof.
  revert s. induction l1 as [|a l1 IH]; intros s; simpl; [done|].
  destruct (body s a) as [s'|e]; simpl; [apply IH | done].
Qed.

(** A property kept by every round that returns holds when the loop
    returns. *)
Lemma for_each_invariant {A S} (I : S → Prop) (body : S → A → result S)
    (l : list A) (s s' : S) :
  (∀ s1 a s2, I s1 → body s1 a = Ok s2 → I s2) →
  I s → for_each body s l = Ok s' → I s'.
Proof.
  intros Hbody. revert s. induction l as [|a l IH]; intros s Hs; simpl.
  - by intros [= <-].
  - intros (s1 & Hs1 & Hl)%bind_Ok. eauto.
Qed.

(** A loop whose every round returns, returns. *)
Lemma for_each_total {A S} (I : S → Prop) (body : S → A → result S)
    (l : list A) (s : S) :
  (∀ s1 a, I s1 → a ∈ l → ∃ s2, body s1 a = Ok s2 ∧ I s2) →
  I s → ∃ s', for_each body s l = Ok s' ∧ I s'.
Proof.
  revert s. induction l as [|a l IH]; intros s Hbody Hs; simpl.
  - by exists s.
  - destruct (Hbody s a Hs) as (s1 & Hs1 & HI); [by left|].
    rewrite Hs1. simpl. apply IH; [|done].
    intros s2 b Hs2 Hb. apply Hbody; [done | by right].
Qed.

(** ** countHits *)

Section countHits_properties.

Import rocAnalysis.

Variable _records : string → list BlastRecord.

Implicit Types (readsPerLevel : gmap string Z) (record : BlastRecord).

Lemma readsPerLevel_init_lookup (nr : Z) :
  nr ∈ levels → readsPerLevel_init !! str nr = Some 0.
Proof.
  unfold levels. rewrite !elem_of_cons, elem_of_nil.
  intros H.
  repeat (destruct H as [-> | H]; [by vm_compute|]). done.
Qed.

Lemma readsPerLevel_init_dom :
  dom readsPerLevel_init = list_to_set (str <$> levels).
Proof.
  unfold readsPerLevel_init. rewrite dom_list_to_map_L. f_equal.
Qed.

(** A round of the loop keeps the keys of the table and the sign of its
    counts. *)
Lemma count_record_keeps cutoff readsPerLevel record t :
  count_record cutoff readsPerLevel record = Ok t →
  dom t = dom readsPerLevel ∧
  (map_Forall (λ _ n, 0 ≤ n) readsPerLevel → map_Forall (λ _ n, 0 ≤ n) t).
Proof.
  unfold count_record.
  intros (level & _ & H)%bind_Ok.
  destruct (getitem (alignments record) 0) as [alignment | []];
    try discriminate; [|by simplify_eq].
  apply bind_Ok in H as (hsp & _ & H).
  destruct (num_gt (bits hsp) cutoff); [|by simplify_eq].
  apply bind_Ok in H as (n & Hn & Ht). simplify_eq.
  unfold getkey in Hn.
  destruct (readsPerLevel !! level) as [n'|] eqn:Hlevel; [|done].
  simplify_eq. split.
  - by apply dom_insert_lookup_L.
  - intros Hpos. apply map_Forall_insert_2; [|done].
    apply Hpos in Hlevel. simpl in Hlevel. lia.
Qed.


Lemma countHits_Ok blastFile cutoff title readsPerLevel :
  countHits _records blastFile cutoff = Ok (title, readsPerLevel) ↔
  path_scheme_name blastFile = Some title ∧
  for_each (count_record cutoff) readsPerLevel_init (_records blastFile)
    = Ok readsPerLevel.
Proof.
  unfold countHits, path_scheme_name, getitem.
  destruct (split "." blastFile !! 2%nat) as [t|]; simpl;
    [|split; [done | by intros [? _]]].
  destruct (split "/" t !! 4%nat) as [title'|]; simpl;
    [|split; [done | by intros [? _]]].
  destruct (for_each _ _ _) as [t'|e]; simpl; split;
    try done; try (by intros [_ ?]).
  - by intros [= -> ->].
  - by intros [[= ->] [= ->]].
Qed.

(** C4, as the code has it: countHits derives the scheme name itself, from
    the path of the file. The name it returns is the fifth component,
    between slashes, of the third field, between dots, of the path; a path
    without that component makes countHits raise IndexError. *)
Theorem countHits_title_from_path blastFile cutoff :
  (∀ title readsPerLevel,
     countHits _records blastFile cutoff = Ok (title, readsPerLevel) →
     path_scheme_name blastFile = Some title) ∧
  (path_scheme_name blastFile = None →
   countHits _records blastFile cutoff = Raise IndexError).
Proof.
  split.
  - by intros title t [? _]%countHits_Ok.
  - unfold countHits, path_scheme_name, getitem.
    destruct (split "." blastFile !! 2%nat) as [t|]; simpl; [|done].
    by destruct (split "/" t !! 4%nat).
Qed.


(** A round of the loop on a well-formed record returns. *)
Lemma count_record_total cutoff readsPerLevel record :
  well_formed_record record →
  dom readsPerLevel = dom readsPerLevel_init →
  ∃ t, count_record cutoff readsPerLevel record = Ok t.
Proof.
  intros [(level & Hlevel & Hname) Hhsps] Hdom.
  unfold count_record, getitem. unfold record_level in Hlevel.
  rewrite Hlevel. simpl.
  destruct (alignments record) as [|alignment rest]; simpl; [by eexists|].
  destruct (hsps alignment) as [|hsp hsps']; [done|]. simpl.
  destruct (num_gt (bits hsp) cutoff); [|by eexists].
  assert (level ∈ dom readsPerLevel) as [n Hn]%elem_of_dom.
  { by rewrite Hdom, readsPerLevel_init_dom, elem_of_list_to_set. }
  unfold getkey. rewrite Hn. simpl. by eexists.
Qed.

(** C8: the table countHits returns has the 22 identity levels as its keys
    and no negative count; on a file without records it is the table that
    maps each of the 22 levels to 0. countHits returns whenever the path
    yields a name and the records are well formed. *)
Theorem countHits_table blastFile cutoff title :
  (∀ readsPerLevel,
     countHits _records blastFile cutoff = Ok (title, readsPerLevel) →
     dom readsPerLevel = list_to_set level_names ∧
     (∀ level, level ∈ level_names → ∃ n, readsPerLevel !! level = Some n ∧ 0 ≤ n) ∧
     size readsPerLevel = 22%nat) ∧
  (path_scheme_name blastFile = Some title →
   _records blastFile = [] →
   ∃ readsPerLevel,
     countHits _records blastFile cutoff = Ok (title, readsPerLevel) ∧
     ∀ level, level ∈ level_names → readsPerLevel !! level = Some 0) ∧
  (path_scheme_name blastFile = Some title →
   Forall well_formed_record (_records blastFile) →
   ∃ readsPerLevel,
     countHits _records blastFile cutoff = Ok (title, readsPerLevel)).
Proof.
  split; [|split].
  - intros t [_ Hloop]%countHits_Ok.
    assert (dom t = dom readsPerLevel_init ∧ map_Forall (λ _ n, 0 ≤ n) t)
      as [Hdom Hpos].
    { revert Hloop.
      apply (for_each_invariant
               (λ t, dom t = dom readsPerLevel_init ∧
                     map_Forall (λ _ n, 0 ≤ n) t)).
      - intros t1 record t2 [Hd Hp] [Hd' Hp']%count_record_keeps.
        split; [congruence | auto].
      - split; [done|]. apply map_Forall_to_list. vm_compute.
        repeat constructor; done. }
    assert (dom t = list_to_set level_names) as Hnames.
    { by rewrite Hdom, readsPerLevel_init_dom. }
    split; [done|]. split.
    + intros level Hlevel.
      assert (level ∈ dom t) as [n Hn]%elem_of_dom
        by (by rewrite Hnames, elem_of_list_to_set).
      exists n. split; [done|]. by apply Hpos in Hn.
    + rewrite <-size_dom, Hdom. by vm_compute.
  - intros Htitle Hrecords. exists readsPerLevel_init. split.
    + apply countHits_Ok. by rewrite Hrecords.
    + intros level (nr & -> & Hnr)%list_elem_of_fmap.
      by apply readsPerLevel_init_lookup.
  - intros Htitle Hrecords.
    destruct (for_each_total (λ t, dom t = dom readsPerLevel_init)
                (count_record cutoff) (_records blastFile) readsPerLevel_init)
      as (t & Ht & _); [|done|].
    + intros t record Hdom Hrecord.
      destruct (count_record_total cutoff t record) as [t' Ht']; [|done|].
      { by eapply Forall_forall in Hrecords. }
      exists t'. split; [done|].
      apply count_record_keeps in Ht' as [-> _]. done.
    + exists t. by apply countHits_Ok.
Qed.

(** C10: a record whose first alignment has no high-scoring pair makes the
    loop raise IndexError, whatever its query and the cutoff: only the
    lookup of the first alignment is guarded. countHits raises it as soon
    as the records before it have been counted. *)
Theorem count_record_no_hsps blastFile cutoff before record after alignment rest :
  alignments record = alignment :: rest →
  hsps alignment = [] →
  (∀ readsPerLevel,
     count_record cutoff readsPerLevel record = Raise IndexError) ∧
  (_records blastFile = before ++ record :: after →
   (∀ title readsPerLevel,
      countHits _records blastFile cutoff ≠ Ok (title, readsPerLevel)) ∧
   (∀ t, for_each (count_record cutoff) readsPerLevel_init before = Ok t →
      countHits _records blastFile cutoff = Raise IndexError)).
Proof.
  intros Halignments Hhsps.
  assert (∀ t, count_record cutoff t record = Raise IndexError) as Hraise.
  { intros t. unfold count_record, getitem. rewrite Halignments. simpl.
    rewrite Hhsps. simpl. by destruct (split "|" (query record) !! 2%nat). }
  split; [done|]. intros Hrecords. split.
  - intros title t [_ Hloop]%countHits_Ok. revert Hloop.
    rewrite Hrecords, for_each_app.
    destruct (for_each _ _ before) as [t'|e]; simpl; [|done].
    by rewrite Hraise.
  - intros t Hbefore. unfold countHits, getitem.
    destruct (split "." blastFile !! 2%nat) as [f|]; simpl; [|done].
    destruct (split "/" f !! 4%nat); simpl; [|done].
    by rewrite Hrecords, for_each_app, Hbefore; simpl; rewrite Hraise.
Qed.

End countHits_properties.

(** ** Conversion of integers to doubles *)

Lemma digits2_pos_size (p : positive) : digits2_pos p = Pos.size p.
Proof. induction p; simpl; congruence. Qed.

Lemma digits2_pos_iter_xO (p q : positive) :
  Zpos (digits2_pos (Pos.iter xO p q)) = Zpos (digits2_pos p) + Zpos q.
Proof.
  induction q using Pos.peano_ind.
  - simpl. lia.
  - rewrite Pos.iter_succ. simpl. lia.
Qed.

Lemma digits2_pos_bound (p : positive) :
  Zpos p < 2 ^ 53 → Zpos (digits2_pos p) ≤ 53.
Proof.
  intros Hp. rewrite digits2_pos_size.
  pose proof (Pos.size_le p) as Hle.
  destruct (Z.le_gt_cases (Zpos (Pos.size p)) 53) as [|Hgt]; [done|].
  exfalso.
  assert (2 ^ 54 ≤ 2 ^ Zpos (Pos.size p)) by (apply Z.pow_le_mono_r; lia).
  assert (Zpos (2 ^ Pos.size p) ≤ Zpos p~0) as H1
    by (apply Pos2Z.pos_le_pos; exact Hle).
  rewrite Pos2Z.inj_pow in H1. lia.
Qed.

(** An integer of fewer than 54 bits is a double: rounding it shifts
    nothing out. *)
Lemma binary_round_small (sx : bool) (p : positive) :
  Zpos p < 2 ^ 53 →
  ∃ m e, binary_round prec emax sx p 0 = S754_finite sx m e.
Proof.
  intros Hp. pose proof (digits2_pos_bound p Hp) as Hd.
  assert (0 < Zpos (digits2_pos p)) as Hd0 by lia.
  unfold binary_round.
  assert (fexp prec emax (Zpos (digits2_pos p) + 0)
          = Zpos (digits2_pos p) - 53) as ->.
  { unfold fexp, emin, prec, emax. lia. }
  unfold shl_align.
  destruct (Zpos (digits2_pos p) - 53 - 0) as [|q|q] eqn:Hq; [| lia |].
  - unfold binary_round_aux, shr_fexp. simpl Zdigits2.
    assert (fexp prec emax (Zpos (digits2_pos p) + 0) - 0 = 0) as ->.
    { unfold fexp, emin, prec, emax. lia. }
    simpl.
    assert (fexp prec emax (Zpos (digits2_pos p) + 0) - 0 = 0) as ->.
    { unfold fexp, emin, prec, emax. lia. }
    simpl. eauto.
  - unfold binary_round_aux, shr_fexp. simpl Zdigits2.
    rewrite digits2_pos_iter_xO.
    assert (fexp prec emax
              (Zpos (digits2_pos p) + Zpos q + (Zpos (digits2_pos p) - 53))
            - (Zpos (digits2_pos p) - 53) = 0) as ->.
    { unfold fexp, emin, prec, emax. lia. }
    simpl. rewrite digits2_pos_iter_xO.
    assert (fexp prec emax
              (Zpos (digits2_pos p) + Zpos q + (Zpos (digits2_pos p) - 53))
            - (Zpos (digits2_pos p) - 53) = 0) as ->.
    { unfold fexp, emin, prec, emax. lia. }
    simpl.
    assert ((Zpos (digits2_pos p) - 53 <=? emax - prec) = true) as ->.
    { apply Z.leb_le. unfold emax, prec. lia. }
    eauto.
Qed.

(** [float(z)] returns for every integer below 2^53 in magnitude, and the
    double is zero only for [z = 0]. *)
Lemma py_float_small (z : Z) :
  - 2 ^ 53 < z < 2 ^ 53 →
  ∃ f, py_float z = Ok f ∧
       (z ≠ 0 → SFeqb f (S754_zero false) = false) ∧
       (z = 0 → f = S754_zero false).
Proof.
  intros Hz. unfold py_float, float_of_Z, binary_normalize.
  destruct z as [|p|p].
  - by exists (S754_zero false).
  - destruct (binary_round_small false p) as (m & e & ->); [lia|].
    by exists (S754_finite false m e).
  - destruct (binary_round_small true p) as (m & e & ->); [lia|].
    by exists (S754_finite true m e).
Qed.

Lemma py_float_error (z : Z) (e : exn) :
  py_float z = Raise e → e = OverflowError.
Proof. unfold py_float. destruct (is_infinity _); congruence. Qed.

Lemma float_div_error (a b : float) (e : exn) :
  float_div a b = Raise e →
  e = ZeroDivisionError ∧ SFeqb b (S754_zero false) = true.
Proof. unfold float_div. destruct (SFeqb _ _); by intros [=]. Qed.

Lemma div_eucl_mul (a b : Z) : 0 < b → Z.div_eucl (b * a) b = (a, 0).
Proof.
  intros Hb.
  assert (b * a / b = a) as Hq by (rewrite Z.mul_comm; apply Z.div_mul; lia).
  assert ((b * a) mod b = 0) as Hr by (rewrite Z.mul_comm; apply Z.mod_mul; lia).
  unfold Z.div, Z.modulo in Hq, Hr.
  destruct (Z.div_eucl (b * a) b) as [q r]. congruence.
Qed.

(** A finite double divided by itself is 1.0. *)
Lemma fdiv_same (s : bool) (m : positive) (e : Z) :
  fdiv (S754_finite s m e) (S754_finite s m e) = float_of_Z 1.
Proof.
  unfold fdiv, SFdiv, SFdiv_core_binary.
  assert (Zdigits2 (Zpos m) + e - (Zdigits2 (Zpos m) + e) = 0) as -> by lia.
  assert (e - e = 0) as -> by lia.
  change (Z.min (fexp prec emax 0) 0) with (-53).
  change (0 - -53) with 53.
  cbv iota beta.
  rewrite Z.shiftl_mul_pow2 by lia.
  rewrite div_eucl_mul by lia.
  assert (new_location (Zpos m) 0 = loc_Exact) as ->.
  { unfold new_location. by destruct (Z.even (Zpos m)). }
  by destruct s; vm_compute.
Qed.

Lemma float_of_Z_finite (z : Z) :
  - 2 ^ 53 < z < 2 ^ 53 → z ≠ 0 →
  ∃ m e, float_of_Z z = S754_finite (z <? 0) m e.
Proof.
  intros Hz Hnz. unfold float_of_Z, binary_normalize.
  destruct z as [|p|p]; [done|..].
  - apply binary_round_small. lia.
  - apply binary_round_small. lia.
Qed.

(** ** Loops over dictionaries *)

Section dict_for.

Import rocAnalysis.

Context {A B : Type} (f : string → A → result B).

(** What a loop over a dictionary returns: entry by entry when every
    round returns, and else the exception of some round. *)
Lemma dict_for_spec (d : gmap string A) :
  match dict_for f d with
  | Ok m => ∀ k b, m !! k = Some b ↔ ∃ a, d !! k = Some a ∧ f k a = Ok b
  | Raise e => ∃ k a, d !! k = Some a ∧ f k a = Raise e
  end.
Proof.
  unfold dict_for.
  apply (map_fold_weak_ind (λ (r : result (gmap string B)) d,
    match r with
    | Ok m => ∀ k b, m !! k = Some b ↔ ∃ a, d !! k = Some a ∧ f k a = Ok b
    | Raise e => ∃ k a, d !! k = Some a ∧ f k a = Raise e
    end)).
  - intros k b. rewrite lookup_empty. split; [done|].
    intros (a & Ha & _). by rewrite lookup_empty in Ha.
  - intros i x m r Hi IH. destruct r as [m'|e]; simpl.
    + destruct (f i x) as [b|e] eqn:Hf; simpl.
      * intros k b'. destruct (decide (k = i)) as [->|Hne].
        -- rewrite !lookup_insert_eq. split.
           ++ intros [= <-]. by exists x.
           ++ intros (a & [= <-] & Ha). congruence.
        -- rewrite !lookup_insert_ne by done. apply IH.
      * exists i, x. by rewrite lookup_insert_eq.
    + destruct IH as (k & a & Hk & Hf). exists k, a. split; [|done].
      rewrite lookup_insert_ne; [done|]. congruence.
Qed.

Lemma dict_for_lookup (d : gmap string A) (m : gmap string B) k b :
  dict_for f d = Ok m →
  m !! k = Some b ↔ ∃ a, d !! k = Some a ∧ f k a = Ok b.
Proof. intros H. pose proof (dict_for_spec d) as Hs. by rewrite H in Hs. Qed.

Lemma dict_for_error (d : gmap string A) e :
  dict_for f d = Raise e → ∃ k a, d !! k = Some a ∧ f k a = Raise e.
Proof. intros H. pose proof (dict_for_spec d) as Hs. by rewrite H in Hs. Qed.

Lemma dict_for_total (d : gmap string A) :
  (∀ k a, d !! k = Some a → ∃ b, f k a = Ok b) →
  ∃ m, dict_for f d = Ok m.
Proof.
  intros Hf. destruct (dict_for f d) as [m|e] eqn:Hd; [by exists m|].
  apply dict_for_error in Hd as (k & a & Hk & He).
  destruct (Hf k a Hk) as [b Hb]. congruence.
Qed.

End dict_for.

(** ** calculateFrequencies *)

Section calculateFrequencies_properties.

Import rocAnalysis.

Implicit Types (res : list Z) (i : nat).

Lemma foldl_add (a : Z) (l : list Z) : foldl Z.add a l = a + sum l.
Proof.
  unfold sum. revert a.
  induction l as [|x l IH]; intros a; cbn [foldl]; [lia|].
  rewrite (IH (a + x)), (IH (0 + x)). lia.
Qed.

Lemma sum_cons (x : Z) (l : list Z) : sum (x :: l) = x + sum l.
Proof. unfold sum at 1. simpl. apply foldl_add. Qed.

Lemma sum_app (l1 l2 : list Z) : sum (l1 ++ l2) = sum l1 + sum l2.
Proof.
  induction l1 as [|x l1 IH]; simpl; [done|].
  rewrite !sum_cons, IH. lia.
Qed.

Lemma sum_nonneg (l : list Z) : Forall (λ r, 0 ≤ r) l → 0 ≤ sum l.
Proof.
  induction 1 as [|x l Hx _ IH]; [done|]. rewrite sum_cons. lia.
Qed.

Lemma tp_fp_sum res i : tp_at res i + fp_at res i = sum res.
Proof. unfold tp_at, fp_at. by rewrite <-sum_app, take_drop. Qed.

(** The population of each round: what C3 states. *)
Lemma tp_fn_population res i : tp_at res i + fn_at res i = 594 * (Z.of_nat i + 1).
Proof. unfold fn_at. lia. Qed.

Lemma tn_fp_population res i :
  tn_at res i + fp_at res i = 594 * (22 - (Z.of_nat i + 1)).
Proof. unfold tn_at. lia. Qed.

Lemma tp_at_mono res i j :
  Forall (λ r, 0 ≤ r) res → (i ≤ j)%nat → tp_at res i ≤ tp_at res j.
Proof.
  intros Hres Hij. unfold tp_at.
  rewrite <-(take_drop (i + 1) (take (j + 1) res)), sum_app.
  rewrite take_take, Nat.min_l by lia.
  assert (0 ≤ sum (drop (i + 1) (take (j + 1) res))); [|lia].
  apply sum_nonneg. by apply Forall_drop, Forall_take.
Qed.

Lemma tp_at_bounds res i :
  Forall (λ r, 0 ≤ r) res → 0 ≤ tp_at res i ≤ sum res ∧ 0 ≤ fp_at res i ≤ sum res.
Proof.
  intros Hres. pose proof (tp_fp_sum res i).
  assert (0 ≤ tp_at res i) by (by apply sum_nonneg, Forall_take).
  assert (0 ≤ fp_at res i) by (by apply sum_nonneg, Forall_drop).
  lia.
Qed.

Lemma mapM_Ok {A B} (f : A → result B) (l : list A) (rs : list B) :
  mapM f l = Ok rs ↔ Forall2 (λ x r, f x = Ok r) l rs.
Proof.
  revert rs. induction l as [|x l IH]; intros rs; simpl.
  - split; [intros [= <-]; constructor | by inversion 1].
  - split.
    + intros (r & Hr & (rs' & Hrs & [= <-])%bind_Ok)%bind_Ok.
      constructor; [done | by apply IH].
    + inversion 1 as [|? r ? rs' Hr Hrs]; subst.
      apply IH in Hrs. by rewrite Hr, Hrs.
Qed.

Lemma mapM_Raise {A B} (f : A → result B) (l : list A) (e : exn) :
  mapM f l = Raise e → ∃ x, x ∈ l ∧ f x = Raise e.
Proof.
  induction l as [|x l IH]; simpl; [done|].
  destruct (f x) as [r|e'] eqn:Hx; simpl.
  - destruct (mapM f l) as [rs|e'] eqn:Hl; simpl; [done|].
    intros [= ->]. destruct IH as (y & Hy & He); [done|].
    exists y. split; [by right | done].
  - intros [= ->]. exists x. split; [by left | done].
Qed.

(** A round of the loop adds the counts and the rates of its index. *)
Lemma frequencies_step_row res acc i :
  frequencies_step res acc i =
  row res i ≫= λ '(fpr, tpr, spc),
    Ok {| fprs := fprs acc ++ [fpr];
          tprs := tprs acc ++ [tpr];
          spcs := spcs acc ++ [spc];
          tps := tps acc ++ [tp_at res i];
          tns := tns acc ++ [tn_at res i];
          fps := fps acc ++ [fp_at res i];
          fns := fns acc ++ [fn_at res i];
          raw := raw acc |}.
Proof.
  unfold frequencies_step, row, tpr_at, tn_at, fn_at, fp_at, tp_at.
  destruct (py_float (sum (take (i + 1) res))) as [a|?]; simpl; [|done].
  destruct (py_float _) as [b|?]; simpl; [|done].
  destruct (float_div a b); simpl; [|done].
  by destruct (rates _ _) as [[fpr spc]|?].
Qed.

Lemma frequencies_loop res acc k n :
  match for_each (frequencies_step res) acc (seq k n) with
  | Ok fr =>
      ∃ rows, Forall2 (λ i r, row res i = Ok r) (seq k n) rows ∧
        fprs fr = fprs acc ++ (fst ∘ fst <$> rows) ∧
        tprs fr = tprs acc ++ (snd ∘ fst <$> rows) ∧
        spcs fr = spcs acc ++ (snd <$> rows) ∧
        tps fr = tps acc ++ (tp_at res <$> seq k n) ∧
        tns fr = tns acc ++ (tn_at res <$> seq k n) ∧
        fps fr = fps acc ++ (fp_at res <$> seq k n) ∧
        fns fr = fns acc ++ (fn_at res <$> seq k n) ∧
        raw fr = raw acc
  | Raise e => ∃ i, i ∈ seq k n ∧ row res i = Raise e
  end.
Proof.
  revert acc k. induction n as [|n IH]; intros acc k; simpl.
  - exists []. rewrite !app_nil_r. by repeat split.
  - rewrite frequencies_step_row.
    destruct (row res k) as [[[fpr tpr] spc]|e] eqn:Hrow; simpl.
    + match goal with |- context [for_each _ ?a _] => specialize (IH a (S k)) end.
      destruct (for_each _ _ _) as [fr|e].
      * destruct IH as (rows & Hrows & IH). simpl in IH.
        rewrite <-!app_assoc in IH. simpl in IH.
        exists ((fpr, tpr, spc) :: rows). split; [by constructor|].
        exact IH.
      * destruct IH as (i & Hi & He). exists i. split; [by right | done].
    + exists k. split; [by left | done].
Qed.

(** The lists of a scheme, index by index. *)
Lemma scheme_frequencies_Ok res fr :
  scheme_frequencies res = Ok fr →
  raw fr = res ∧
  tps fr = tp_at res <$> seq 0 (length res) ∧
  tns fr = tn_at res <$> seq 0 (length res) ∧
  fps fr = fp_at res <$> seq 0 (length res) ∧
  fns fr = fn_at res <$> seq 0 (length res) ∧
  ∃ rows, Forall2 (λ i r, row res i = Ok r) (seq 0 (length res)) rows ∧
    fprs fr = fst ∘ fst <$> rows ∧
    tprs fr = snd ∘ fst <$> rows ∧
    spcs fr = snd <$> rows.
Proof.
  unfold scheme_frequencies. intros H.
  match type of H with for_each _ ?a (seq ?k ?n) = _ =>
    pose proof (frequencies_loop res a k n) as Hloop end.
  rewrite H in Hloop. simpl in Hloop.
  destruct Hloop as (rows & ? & ? & ? & ? & ? & ? & ? & ? & ?).
  repeat split; try done. by exists rows.
Qed.

Lemma scheme_frequencies_Raise res e :
  scheme_frequencies res = Raise e →
  ∃ i, (i < length res)%nat ∧ row res i = Raise e.
Proof.
  unfold scheme_frequencies. intros H.
  match type of H with for_each _ ?a (seq ?k ?n) = _ =>
    pose proof (frequencies_loop res a k n) as Hloop end.
  rewrite H in Hloop. destruct Hloop as (i & Hi & He).
  exists i. split; [|done]. apply elem_of_seq in Hi. lia.
Qed.

(** The vector of a scheme has the counts of the 22 levels, in the order
    of [levels]. *)
Lemma scheme_list_Ok (counts : gmap string Z) res :
  scheme_list counts = Ok res ↔
  Forall2 (λ nr n, counts !! str nr = Some n) levels res.
Proof.
  unfold scheme_list. rewrite mapM_Ok.
  split; intros H; eapply Forall2_impl; try exact H;
    intros nr n; unfold getkey; simpl;
    destruct (counts !! str nr); congruence.
Qed.

Lemma scheme_list_length (counts : gmap string Z) res :
  scheme_list counts = Ok res → length res = 22%nat.
Proof. intros H%scheme_list_Ok%Forall2_length. by rewrite <-H. Qed.

Lemma calculateFrequencies_Ok hitDict frequencies scheme fr :
  calculateFrequencies hitDict = Ok frequencies →
  frequencies !! scheme = Some fr ↔
  ∃ counts res, hitDict !! scheme = Some counts ∧
    scheme_list counts = Ok res ∧ scheme_frequencies res = Ok fr.
Proof.
  unfold calculateFrequencies.
  intros (listDict & Hlist & Hfreq)%bind_Ok.
  rewrite (dict_for_lookup _ _ _ _ _ Hfreq). split.
  - intros (res & Hres & Hfr).
    apply (dict_for_lookup _ _ _ _ _ Hlist) in Hres as (counts & ? & ?).
    by exists counts, res.
  - intros (counts & res & Hc & Hres & Hfr). exists res. split; [|done].
    apply (dict_for_lookup _ _ _ _ _ Hlist). by exists counts.
Qed.

(** The divisions.  The divisor of tpr is the population [594 * (i + 1)],
    which is not zero; the divisor of fpr and spc is zero in the last
    round, and the exception is caught. *)

Lemma tpr_at_error res i e :
  (i < 22)%nat → tpr_at res i = Raise e → e = OverflowError.
Proof.
  intros Hi. unfold tpr_at. rewrite tp_fn_population.
  destruct (py_float (tp_at res i)) as [a|e'] eqn:Ha; simpl;
    [|intros [= <-]; by eapply py_float_error].
  destruct (py_float_small (594 * (Z.of_nat i + 1))) as (b & -> & Hb & _);
    [lia|]. simpl.
  unfold float_div. rewrite Hb by lia. done.
Qed.

Lemma tpr_at_total res i :
  (i < 22)%nat → - 2 ^ 53 < tp_at res i < 2 ^ 53 →
  ∃ tpr, tpr_at res i = Ok tpr.
Proof.
  intros Hi Htp. unfold tpr_at. rewrite tp_fn_population.
  destruct (py_float_small (tp_at res i)) as (a & -> & _); [done|].
  destruct (py_float_small (594 * (Z.of_nat i + 1))) as (b & -> & Hb & _);
    [lia|]. simpl.
  unfold float_div. rewrite Hb by lia. eauto.
Qed.

Lemma rates_error (fp tn : Z) e : rates fp tn = Raise e → e = OverflowError.
Proof.
  unfold rates, try_except.
  destruct (py_float fp) as [a|e1] eqn:Ha; simpl;
    [|apply py_float_error in Ha as ->; simpl; congruence].
  destruct (py_float (fp + tn)) as [b|e1] eqn:Hb; simpl;
    [|apply py_float_error in Hb as ->; simpl; congruence].
  destruct (float_div a b) as [fpr|e1] eqn:Hfpr; simpl;
    [|apply float_div_error in Hfpr as [-> _]; simpl; congruence].
  destruct (py_float tn) as [c|e1] eqn:Hc; simpl;
    [|apply py_float_error in Hc as ->; simpl; congruence].
  destruct (float_div c b) as [spc|e1] eqn:Hspc; simpl; [done|].
  apply float_div_error in Hspc as [-> _]. simpl. congruence.
Qed.

Lemma rates_total (fp tn : Z) :
  - 2 ^ 53 < fp < 2 ^ 53 → - 2 ^ 53 < tn < 2 ^ 53 →
  - 2 ^ 53 < fp + tn < 2 ^ 53 →
  ∃ r, rates fp tn = Ok r.
Proof.
  intros Hfp Htn Hsum. unfold rates, try_except.
  destruct (py_float_small fp) as (a & -> & _); [done|].
  destruct (py_float_small (fp + tn)) as (b & -> & _); [done|].
  destruct (py_float_small tn) as (c & -> & _); [done|]. simpl.
  unfold float_div. destruct (SFeqb b _); simpl; eauto.
Qed.

Lemma row_error res i e :
  (i < 22)%nat → row res i = Raise e → e = OverflowError.
Proof.
  intros Hi. unfold row.
  destruct (tpr_at res i) as [tpr|e'] eqn:Htpr; simpl;
    [|intros [= <-]; by eapply tpr_at_error].
  destruct (rates _ _) as [[fpr spc]|e'] eqn:Hr; simpl; [done|].
  intros [= <-]. by eapply rates_error.
Qed.

Lemma row_total res i :
  (i < 22)%nat → Forall (λ r, 0 ≤ r) res → sum res < 2 ^ 53 →
  ∃ r, row res i = Ok r.
Proof.
  intros Hi Hres Hsum. unfold row.
  destruct (tp_at_bounds res i Hres) as [Htp Hfp].
  destruct (tpr_at_total res i) as [tpr ->]; [done | lia |]. simpl.
  pose proof (tn_fp_population res i) as Htn.
  destruct (rates_total (fp_at res i) (tn_at res i)) as [[fpr spc] ->];
    [lia .. |]. simpl. eauto.
Qed.

(** In the last of 22 rounds nothing is left below the threshold. *)
Lemma last_round res :
  length res = 22%nat → fp_at res 21 = 0 ∧ tn_at res 21 = 0.
Proof.
  intros Hlen. unfold tn_at, fp_at.
  rewrite drop_ge by (rewrite Hlen; simpl; lia). by vm_compute.
Qed.

Lemma rates_degenerate res i :
  length res = 22%nat → (i < 22)%nat →
  fp_at res i + tn_at res i = 0 →
  rates (fp_at res i) (tn_at res i) = Ok (Int 0, Int 0).
Proof.
  intros Hlen Hi Hzero. pose proof (tn_fp_population res i).
  assert (i = 21%nat) as -> by lia.
  destruct (last_round res Hlen) as [-> ->]. by vm_compute.
Qed.

Lemma scheme_frequencies_error res e :
  length res = 22%nat →
  scheme_frequencies res = Raise e → e = OverflowError.
Proof.
  intros Hlen (i & Hi & He)%scheme_frequencies_Raise.
  eapply row_error; [|done]. lia.
Qed.

Lemma scheme_frequencies_total res :
  length res = 22%nat → Forall (λ r, 0 ≤ r) res → sum res < 2 ^ 53 →
  ∃ fr, scheme_frequencies res = Ok fr.
Proof.
  intros Hlen Hres Hsum.
  destruct (scheme_frequencies res) as [fr|e] eqn:Hfr; [by exists fr|].
  apply scheme_frequencies_Raise in Hfr as (i & Hi & He).
  destruct (row_total res i) as [r Hr]; [lia | done | done |]. congruence.
Qed.

Lemma scheme_frequencies_last res fr :
  length res = 22%nat → scheme_frequencies res = Ok fr →
  fprs fr !! 21%nat = Some (Int 0) ∧ spcs fr !! 21%nat = Some (Int 0).
Proof.
  intros Hlen (_ & _ & _ & _ & _ & rows & Hrows & -> & _ & ->)%scheme_frequencies_Ok.
  rewrite Hlen in Hrows.
  destruct (Forall2_lookup_l _ _ _ 21%nat 21%nat Hrows) as (r & Hr & Hrow);
    [done|].
  rewrite !list_lookup_fmap, Hr. simpl.
  unfold row in Hrow. destruct (tpr_at res 21) as [tpr|]; [|done].
  simpl in Hrow. rewrite rates_degenerate in Hrow; [| done | lia |].
  - by simplify_eq/=.
  - destruct (last_round res Hlen) as [-> ->]. done.
Qed.

(** C1, as the code has it: for a vector of non-negative counts the
    cumulative true positives [tps] never shrink as the index grows. The
    rate [tpr] divides them by a population that grows with the index, and
    is not monotone. *)
Theorem tps_monotone hitDict frequencies scheme fr :
  calculateFrequencies hitDict = Ok frequencies →
  frequencies !! scheme = Some fr →
  Forall (λ r, 0 ≤ r) (raw fr) →
  length (tps fr) = 22%nat ∧
  ∀ i j a b, (i ≤ j)%nat →
    tps fr !! i = Some a → tps fr !! j = Some b → a ≤ b.
Proof.
  intros Hcalc Hfr Hraw.
  apply (calculateFrequencies_Ok _ _ _ _ Hcalc) in Hfr
    as (counts & res & _ & Hlen%scheme_list_length & Hfr).
  apply scheme_frequencies_Ok in Hfr as (Hr & -> & _).
  rewrite Hr in Hraw. rewrite length_fmap, length_seq. split; [done|].
  intros i j a b Hij.
  rewrite !list_lookup_fmap.
  intros (i' & [-> _]%lookup_seq & ->)%fmap_Some.
  intros (j' & [-> _]%lookup_seq & ->)%fmap_Some.
  by apply tp_at_mono.
Qed.

(** C3: in the lists of every scheme, at every index [i] of the 22,
    [tp + fn = 594 * (i + 1)] and [tn + fp = 594 * (22 - (i + 1))]. *)
Theorem population_conservation hitDict frequencies scheme fr :
  calculateFrequencies hitDict = Ok frequencies →
  frequencies !! scheme = Some fr →
  (length (tps fr) = 22 ∧ length (fns fr) = 22 ∧
   length (tns fr) = 22 ∧ length (fps fr) = 22)%nat ∧
  ∀ i tp fn tn fp,
    tps fr !! i = Some tp → fns fr !! i = Some fn →
    tns fr !! i = Some tn → fps fr !! i = Some fp →
    tp + fn = 594 * (Z.of_nat i + 1) ∧
    tn + fp = 594 * (22 - (Z.of_nat i + 1)).
Proof.
  intros Hcalc Hfr.
  apply (calculateFrequencies_Ok _ _ _ _ Hcalc) in Hfr
    as (counts & res & _ & Hlen%scheme_list_length & Hfr).
  apply scheme_frequencies_Ok in Hfr as (_ & -> & -> & -> & -> & _).
  rewrite !length_fmap, !length_seq. split; [done|].
  intros i tp fn tn fp. rewrite !list_lookup_fmap.
  intros (? & [-> _]%lookup_seq & ->)%fmap_Some.
  intros (? & [-> _]%lookup_seq & ->)%fmap_Some.
  intros (? & [-> _]%lookup_seq & ->)%fmap_Some.
  intros (? & [-> _]%lookup_seq & ->)%fmap_Some.
  simpl. split; [apply tp_fn_population | apply tn_fp_population].
Qed.

(** C6: no division of calculateFrequencies fails. For the vector of any
    scheme and every index of the 22, the divisor of tpr is
    [tp + fn = 594 * (i + 1) > 0] and the division does not raise; where
    [fp + tn = 0] the rates fpr and spc are both set to the integer 0.
    ZeroDivisionError never leaves the function, and on tables of
    non-negative counts whose sum is below 2^53 it returns, with fpr and
    spc equal to 0 at the last index of every scheme. *)
Theorem divisions_safe hitDict :
  (∀ scheme counts res i,
     hitDict !! scheme = Some counts → scheme_list counts = Ok res →
     (i < 22)%nat →
     tp_at res i + fn_at res i = 594 * (Z.of_nat i + 1) ∧
     0 < tp_at res i + fn_at res i ∧
     tpr_at res i ≠ Raise ZeroDivisionError ∧
     (fp_at res i + tn_at res i = 0 →
      rates (fp_at res i) (tn_at res i) = Ok (Int 0, Int 0))) ∧
  calculateFrequencies hitDict ≠ Raise ZeroDivisionError ∧
  ((∀ scheme counts, hitDict !! scheme = Some counts →
      ∃ res, scheme_list counts = Ok res ∧
             Forall (λ r, 0 ≤ r) res ∧ sum res < 2 ^ 53) →
   ∃ frequencies,
     calculateFrequencies hitDict = Ok frequencies ∧
     (∀ scheme, is_Some (hitDict !! scheme) → is_Some (frequencies !! scheme)) ∧
     (∀ scheme fr, frequencies !! scheme = Some fr →
        fprs fr !! 21%nat = Some (Int 0) ∧
        spcs fr !! 21%nat = Some (Int 0))).
Proof.
  split; [|split].
  - intros scheme counts res i _ Hlen%scheme_list_length Hi.
    rewrite tp_fn_population. split; [done|]. split; [lia|]. split.
    + intros He. by apply tpr_at_error in He.
    + by apply rates_degenerate.
  - unfold calculateFrequencies.
    intros [Hlist | (listDict & Hlist & Hfreq)]%bind_Raise.
    + apply dict_for_error in Hlist as (scheme & counts & _ & Hlist).
      apply mapM_Raise in Hlist as (nr & _ & Hnr).
      unfold getkey in Hnr. by destruct (counts !! str nr).
    + apply dict_for_error in Hfreq as (scheme & res & Hres & Hfr).
      apply (dict_for_lookup _ _ _ _ _ Hlist) in Hres
        as (counts & _ & Hlen%scheme_list_length).
      by apply scheme_frequencies_error in Hfr.
  - intros Hvalid. unfold calculateFrequencies.
    destruct (dict_for_total (λ _ counts, scheme_list counts) hitDict)
      as [listDict Hlist].
    { intros scheme counts Hc. destruct (Hvalid _ _ Hc) as (res & ? & _).
      by exists res. }
    rewrite Hlist. simpl.
    destruct (dict_for_total (λ _ res, scheme_frequencies res) listDict)
      as [frequencies Hfreq].
    { intros scheme res Hres.
      apply (dict_for_lookup _ _ _ _ _ Hlist) in Hres as (counts & Hc & Hres).
      destruct (Hvalid _ _ Hc) as (res' & Hres' & Hpos & Hsum).
      assert (res' = res) as -> by congruence.
      apply scheme_frequencies_total; [|done..].
      by eapply scheme_list_length. }
    exists frequencies. split; [done|]. split.
    + intros scheme [counts Hc].
      destruct (Hvalid _ _ Hc) as (res & Hres & Hpos & Hsum).
      destruct (scheme_frequencies_total res) as [fr Hfr];
        [by eapply scheme_list_length | done..|].
      exists fr. apply (dict_for_lookup _ _ _ _ _ Hfreq). exists res.
      split; [|done]. apply (dict_for_lookup _ _ _ _ _ Hlist). by exists counts.
    + intros scheme fr (res & Hres & Hfr)%(dict_for_lookup _ _ _ _ _ Hfreq).
      apply (dict_for_lookup _ _ _ _ _ Hlist) in Hres
        as (counts & _ & Hlen%scheme_list_length).
      by apply scheme_frequencies_last with res.
Qed.

End calculateFrequencies_properties.

(** ** areaUnderCurve *)

Section areaUnderCurve_properties.

Import rocAnalysis.

Implicit Types (frequencies : gmap string (gmap string loc)) (h : heap).

Lemma rate_lists_Some frequencies h scheme xs ys :
  rate_lists frequencies h scheme = Some (xs, ys) ↔
  ∃ d x y, frequencies !! scheme = Some d ∧
    d !! "fprs" = Some x ∧ d !! "tprs" = Some y ∧
    h !! x = Some xs ∧ h !! y = Some ys.
Proof.
  unfold rate_lists. split.
  - destruct (frequencies !! scheme) as [d|]; simpl; [|done].
    destruct (d !! "fprs") as [x|] eqn:Hx; simpl; [|done].
    destruct (d !! "tprs") as [y|] eqn:Hy; simpl; [|done].
    destruct (h !! x) as [xs'|] eqn:Hxs; simpl; [|done].
    destruct (h !! y) as [ys'|] eqn:Hys; simpl; [|done].
    intros [= <- <-]. by exists d, x, y.
  - intros (d & x & y & -> & Hx & Hy & Hxs & Hys). simpl.
    rewrite Hx. simpl. rewrite Hy. simpl. rewrite Hxs. simpl. by rewrite Hys.
Qed.

(** One round of areaUnderCurve on two distinct list objects: its area,
    and the store it leaves. *)
Lemma area_step_spec (d : gmap string loc) h x y xs ys :
  d !! "fprs" = Some x → d !! "tprs" = Some y → x ≠ y →
  h !! x = Some xs → h !! y = Some ys →
  area_step d h =
  area_of xs ys ≫= λ a,
    Ok (a, <[x := closed_curve xs]> (<[y := closed_curve ys]> h)).
Proof.
  intros Hx Hy Hne Hxs Hys. unfold area_step, getkey. rewrite Hx, Hy. simpl.
  unfold list_append, list_insert_front.
  set (h' := alter _ y (alter _ x (alter _ y (alter _ x h)))).
  assert (h' = <[x := closed_curve xs]> (<[y := closed_curve ys]> h)) as ->.
  { apply map_eq. intros r. unfold h'.
    destruct (decide (r = x)) as [->|Hrx].
    - rewrite lookup_insert_eq, lookup_alter_ne, lookup_alter_eq by done.
      rewrite lookup_alter_ne, lookup_alter_eq by done. by rewrite Hxs.
    - rewrite lookup_insert_ne by done.
      destruct (decide (r = y)) as [->|Hry].
      + rewrite lookup_insert_eq, lookup_alter_eq, lookup_alter_ne by done.
        rewrite lookup_alter_eq, lookup_alter_ne by done. by rewrite Hys.
      + rewrite lookup_insert_ne by done.
        by rewrite !lookup_alter_ne by done. }
  rewrite !lookup_total_alt.
  rewrite lookup_insert_eq, lookup_insert_ne, lookup_insert_eq by done.
  simpl. unfold area_of. by destruct (trapz _ _).
Qed.

Lemma rate_lists_insert_ne frequencies h i d scheme :
  scheme ≠ i →
  rate_lists (<[i := d]> frequencies) h scheme
  = rate_lists frequencies h scheme.
Proof. intros Hne. unfold rate_lists. by rewrite lookup_insert_ne. Qed.

Lemma used_by_fprs frequencies scheme d x :
  frequencies !! scheme = Some d → d !! "fprs" = Some x →
  used_by frequencies x.
Proof. intros ??. exists scheme, d, "fprs". split; [done|]. split; [by left | done]. Qed.

Lemma used_by_tprs frequencies scheme d y :
  frequencies !! scheme = Some d → d !! "tprs" = Some y →
  used_by frequencies y.
Proof. intros ??. exists scheme, d, "tprs". split; [done|]. split; [by right | done]. Qed.

Lemma used_by_insert frequencies i d r :
  frequencies !! i = None →
  used_by frequencies r → used_by (<[i := d]> frequencies) r.
Proof.
  intros Hi (scheme & d' & k & Hs & Hk & Hr). exists scheme, d', k.
  split; [|done]. rewrite lookup_insert_ne; [done|]. congruence.
Qed.

Lemma separate_lists_insert frequencies h i d :
  frequencies !! i = None →
  separate_lists (<[i := d]> frequencies) h →
  separate_lists frequencies h ∧
  ∃ x y xs ys,
    d !! "fprs" = Some x ∧ d !! "tprs" = Some y ∧ x ≠ y ∧
    h !! x = Some xs ∧ h !! y = Some ys ∧
    ¬ used_by frequencies x ∧ ¬ used_by frequencies y.
Proof.
  intros Hi [Hlists Hinj]. split; [split|].
  - intros scheme [d' Hd'].
    assert (scheme ≠ i) as Hne by congruence.
    rewrite <-(rate_lists_insert_ne _ _ i d) by done.
    apply Hlists. by rewrite lookup_insert_ne.
  - intros s1 s2 d1 d2 k1 k2 r H1 H2.
    apply Hinj; rewrite lookup_insert_ne; congruence.
  - destruct (Hlists i) as [[xs ys] Hl]; [by rewrite lookup_insert_eq|].
    apply rate_lists_Some in Hl as (d' & x & y & Hd' & Hx & Hy & Hxs & Hys).
    rewrite lookup_insert_eq in Hd'.
    assert (d' = d) as -> by congruence. clear Hd'.
    exists x, y, xs, ys. repeat split; try done.
    + intros ->.
      destruct (Hinj i i d d "fprs" "tprs" y) as [_ [=]];
        rewrite ?lookup_insert_eq; try done; [by left | by right].
    + intros (scheme & d' & k & Hs & Hk & Hr).
      destruct (Hinj scheme i d' d k "fprs" x) as [-> _];
        rewrite ?lookup_insert_eq; try done; [|by left|congruence].
      rewrite lookup_insert_ne; [done|]. congruence.
    + intros (scheme & d' & k & Hs & Hk & Hr).
      destruct (Hinj scheme i d' d k "tprs" y) as [-> _];
        rewrite ?lookup_insert_eq; try done; [|by right|congruence].
      rewrite lookup_insert_ne; [done|]. congruence.
Qed.

(** areaUnderCurve on separate lists: the area of every scheme is the
    negated trapezoidal integral of its closed curve, and every fprs and
    tprs list is left as the closed curve in the store. *)
Lemma areaUnderCurve_post frequencies h :
  separate_lists frequencies h →
  area_post frequencies h (areaUnderCurve frequencies h).
Proof.
  unfold areaUnderCurve, copy_copy.
  apply (map_fold_weak_ind (λ r m, separate_lists m h → area_post m h r)).
  { intros _. split; [intros ?; by rewrite !lookup_empty, <-!not_eq_None_Some|].
    split; [|done].
    intros scheme xs ys. unfold rate_lists. by rewrite lookup_empty. }
  intros i d m r Hi IH Hsep.
  destruct (separate_lists_insert m h i d Hi Hsep)
    as (Hm & x & y & xs & ys & Hx & Hy & Hxy & Hxs & Hys & Hux & Huy).
  specialize (IH Hm).
  assert (rate_lists (<[i := d]> m) h i = Some (xs, ys)) as Hli.
  { apply rate_lists_Some. exists d, x, y. by rewrite lookup_insert_eq. }
  destruct r as [[integrated h1]|e]; simpl.
  - destruct IH as (Hdom & Hschemes & Hframe).
    rewrite (area_step_spec d h1 x y xs ys); try done;
      [|by rewrite Hframe ..].
    destruct (area_of xs ys) as [a|e] eqn:Ha; simpl; [|by exists i, xs, ys].
    split; [|split].
    + intros scheme. destruct (decide (scheme = i)) as [->|Hne].
      * rewrite !lookup_insert_eq. split; eauto.
      * rewrite !lookup_insert_ne by done. apply Hdom.
    + intros scheme xs' ys' Hl. destruct (decide (scheme = i)) as [->|Hne].
      * rewrite Hli in Hl. simplify_eq. split.
        -- exists a. by rewrite lookup_insert_eq.
        -- apply rate_lists_Some. exists d, x, y.
           rewrite !lookup_insert_eq, lookup_insert_ne, lookup_insert_eq by done.
           done.
      * rewrite rate_lists_insert_ne in Hl by done.
        destruct (Hschemes _ _ _ Hl) as [(a' & Ha' & Hint) Hl1]. split.
        -- exists a'. by rewrite lookup_insert_ne.
        -- rewrite rate_lists_insert_ne by done.
           apply rate_lists_Some in Hl1
             as (d' & x' & y' & Hd' & Hx' & Hy' & Hxs' & Hys').
           apply rate_lists_Some. exists d', x', y'.
           assert (used_by m x') by (by eapply used_by_fprs).
           assert (used_by m y') by (by eapply used_by_tprs).
           rewrite !lookup_insert_ne by congruence. done.
    + intros r Hr.
      assert (r ≠ x).
      { intros ->. apply Hr. eapply used_by_fprs; [|done].
        by rewrite lookup_insert_eq. }
      assert (r ≠ y).
      { intros ->. apply Hr. eapply used_by_tprs; [|done].
        by rewrite lookup_insert_eq. }
      rewrite !lookup_insert_ne by done. apply Hframe.
      intros Hu. by apply Hr, used_by_insert.
  - destruct IH as (scheme & xs' & ys' & Hl & He).
    exists scheme, xs', ys'. split; [|done].
    rewrite rate_lists_insert_ne; [done|].
    intros ->. apply rate_lists_Some in Hl as (d' & ? & ? & Hd' & _).
    congruence.
Qed.
End areaUnderCurve_properties.

(** ** The store behind a dictionary of frequencies *)

Section store.

Import rocAnalysis.
Implicit Types (h : heap).

Lemma alloc_spec (xs : list num) h :
  h !! (alloc xs h).1 = None ∧ (alloc xs h).2 = <[(alloc xs h).1 := xs]> h.
Proof.
  unfold alloc. simpl. split; [|done].
  apply not_elem_of_dom, is_fresh.
Qed.

Lemma store_scheme_spec (fr : SchemeFrequencies) h :
  ∃ x y,
    (store_scheme fr h).1 !! "fprs" = Some x ∧
    (store_scheme fr h).1 !! "tprs" = Some y ∧
    x ≠ y ∧ h !! x = None ∧ h !! y = None ∧
    (store_scheme fr h).2 !! x = Some (fprs fr) ∧
    (store_scheme fr h).2 !! y = Some (tprs fr) ∧
    h ⊆ (store_scheme fr h).2.
Proof.
  unfold store_scheme.
  destruct (alloc (fprs fr) h) as [r1 h1] eqn:E1.
  destruct (alloc (tprs fr) h1) as [r2 h2] eqn:E2.
  destruct (alloc (spcs fr) h2) as [r3 h3] eqn:E3.
  destruct (alloc (Int <$> tps fr) h3) as [r4 h4] eqn:E4.
  destruct (alloc (Int <$> tns fr) h4) as [r5 h5] eqn:E5.
  destruct (alloc (Int <$> fps fr) h5) as [r6 h6] eqn:E6.
  destruct (alloc (Int <$> fns fr) h6) as [r7 h7] eqn:E7.
  destruct (alloc (Int <$> raw fr) h7) as [r8 h8] eqn:E8.
  pose proof (alloc_spec (fprs fr) h) as [F1 A1]. rewrite E1 in F1, A1.
  pose proof (alloc_spec (tprs fr) h1) as [F2 A2]. rewrite E2 in F2, A2.
  pose proof (alloc_spec (spcs fr) h2) as [F3 A3]. rewrite E3 in F3, A3.
  pose proof (alloc_spec (Int <$> tps fr) h3) as [F4 A4]. rewrite E4 in F4, A4.
  pose proof (alloc_spec (Int <$> tns fr) h4) as [F5 A5]. rewrite E5 in F5, A5.
  pose proof (alloc_spec (Int <$> fps fr) h5) as [F6 A6]. rewrite E6 in F6, A6.
  pose proof (alloc_spec (Int <$> fns fr) h6) as [F7 A7]. rewrite E7 in F7, A7.
  pose proof (alloc_spec (Int <$> raw fr) h7) as [F8 A8]. rewrite E8 in F8, A8.
  simpl in *.
  assert (h ⊆ h1) as S1 by (rewrite A1; by apply insert_subseteq).
  assert (h1 ⊆ h2) as S2 by (rewrite A2; by apply insert_subseteq).
  assert (h2 ⊆ h8) as S8.
  { trans h3; [rewrite A3; by apply insert_subseteq|].
    trans h4; [rewrite A4; by apply insert_subseteq|].
    trans h5; [rewrite A5; by apply insert_subseteq|].
    trans h6; [rewrite A6; by apply insert_subseteq|].
    trans h7; [rewrite A7; by apply insert_subseteq|].
    rewrite A8; by apply insert_subseteq. }
  assert (h1 !! r1 = Some (fprs fr)) as L1 by (by rewrite A1, lookup_insert_eq).
  assert (h2 !! r2 = Some (tprs fr)) as L2 by (by rewrite A2, lookup_insert_eq).
  exists r1, r2. split; [done|]. split; [done|].
  split; [congruence|]. split; [done|]. split.
  { destruct (h !! r2) eqn:E; [|done].
    eapply lookup_weaken in E; [|exact S1]. congruence. }
  split; [|split].
  - eapply lookup_weaken; [|exact S8]. eapply lookup_weaken; [|exact S2]. done.
  - eapply lookup_weaken; [|exact S8]. done.
  - trans h1; [done|]. trans h2; done.
Qed.

Lemma rate_lists_weaken (refs : gmap string (gmap string loc)) h h' scheme v :
  h ⊆ h' → rate_lists refs h scheme = Some v → rate_lists refs h' scheme = Some v.
Proof.
  intros Hsub. destruct v as [xs ys].
  intros (d & x & y & ? & ? & ? & Hxs & Hys)%rate_lists_Some.
  apply rate_lists_Some. exists d, x, y.
  repeat split; try done; by eapply lookup_weaken.
Qed.

Lemma rate_key_lookup (d : gmap string loc) k r x y :
  d !! "fprs" = Some x → d !! "tprs" = Some y →
  rate_key k → d !! k = Some r →
  (k = "fprs" ∧ r = x) ∨ (k = "tprs" ∧ r = y).
Proof. intros Hx Hy [-> | ->] Hr; [left | right]; split; congruence. Qed.

(** The store of a dictionary returned by calculateFrequencies holds the
    fprs and tprs lists of every scheme, each as an object of its own. *)
Lemma store_frequencies_spec (frequencies : gmap string SchemeFrequencies) h0 :
  separate_lists (store_frequencies frequencies h0).1
                 (store_frequencies frequencies h0).2 ∧
  (∀ scheme, frequencies !! scheme = None →
     (store_frequencies frequencies h0).1 !! scheme = None) ∧
  ∀ scheme fr, frequencies !! scheme = Some fr →
    rate_lists (store_frequencies frequencies h0).1
               (store_frequencies frequencies h0).2 scheme
    = Some (fprs fr, tprs fr).
Proof.
  unfold store_frequencies.
  pose (P := λ (acc : gmap string (gmap string loc) * heap)
               (m : gmap string SchemeFrequencies),
          (∀ scheme, m !! scheme = None → acc.1 !! scheme = None) ∧
          (∀ r, used_by acc.1 r → is_Some (acc.2 !! r)) ∧
          (∀ s1 s2 d1 d2 k1 k2 r,
             acc.1 !! s1 = Some d1 → acc.1 !! s2 = Some d2 →
             rate_key k1 → rate_key k2 →
             d1 !! k1 = Some r → d2 !! k2 = Some r → s1 = s2 ∧ k1 = k2) ∧
          (∀ scheme fr, m !! scheme = Some fr →
             rate_lists acc.1 acc.2 scheme = Some (fprs fr, tprs fr))).
  cut (P (map_fold
            (λ scoringScheme fr '(m, h),
               let '(d, h) := store_scheme fr h in
               (<[scoringScheme := d]> m, h))
            (∅, h0) frequencies) frequencies).
  { intros (Hnone & _ & Hinj & Hlists). split; [split|split]; try done.
    intros scheme [d Hd].
    destruct (frequencies !! scheme) as [fr|] eqn:Hfr.
    - rewrite (Hlists _ _ Hfr). by eexists.
    - apply Hnone in Hfr. congruence. }
  apply (map_fold_weak_ind P); unfold P; clear P.
  { simpl. split; [done|]. split; [|split].
    - intros r (scheme & d & k & Hs & _). by rewrite lookup_empty in Hs.
    - intros s1 s2 d1 d2 k1 k2 r Hs. by rewrite lookup_empty in Hs.
    - intros scheme fr Hs. by rewrite lookup_empty in Hs. }
  intros i fr m [refs h] Hi (Hnone & Hused & Hinj & Hlists).
  simpl in Hnone, Hused, Hinj, Hlists.
  destruct (store_scheme_spec fr h)
    as (x & y & Hx & Hy & Hxy & Hfx & Hfy & Hxs & Hys & Hsub).
  destruct (store_scheme fr h) as [d h'] eqn:Hstore. simpl in *.
  assert (refs !! i = None) as Hri by (by apply Hnone).
  assert (∀ r, used_by refs r → r ≠ x ∧ r ≠ y) as Hold.
  { intros r [v Hv]%Hused. split; congruence. }
  split; [|split; [|split]].
  - intros scheme Hs. apply lookup_insert_None in Hs as [Hs Hne].
    rewrite lookup_insert_ne by done. by apply Hnone.
  - intros r (scheme & d' & k & Hs & Hk & Hr).
    destruct (decide (scheme = i)) as [->|Hne].
    + rewrite lookup_insert_eq in Hs.
      assert (d' = d) as -> by congruence.
      destruct (rate_key_lookup d k r x y Hx Hy Hk Hr) as [[_ ->]|[_ ->]];
        by eexists.
    + rewrite lookup_insert_ne in Hs by done.
      destruct (Hused r) as [v Hv]; [by exists scheme, d', k|].
      exists v. by eapply lookup_weaken.
  - intros s1 s2 d1 d2 k1 k2 r H1 H2 Hk1 Hk2 Hr1 Hr2.
    destruct (decide (s1 = i)) as [->|Hne1];
      destruct (decide (s2 = i)) as [->|Hne2].
    + rewrite lookup_insert_eq in H1, H2.
      assert (d1 = d) as -> by congruence.
      assert (d2 = d) as -> by congruence.
      split; [done|].
      destruct (rate_key_lookup d k1 r x y Hx Hy Hk1 Hr1) as [[-> ->]|[-> ->]];
        destruct (rate_key_lookup d k2 _ x y Hx Hy Hk2 Hr2) as [[-> ?]|[-> ?]];
        congruence.
    + rewrite lookup_insert_eq in H1. rewrite lookup_insert_ne in H2 by done.
      assert (d1 = d) as -> by congruence.
      destruct (Hold r) as [? ?]; [by exists s2, d2, k2|].
      destruct (rate_key_lookup d k1 r x y Hx Hy Hk1 Hr1) as [[_ ->]|[_ ->]];
        done.
    + rewrite lookup_insert_eq in H2. rewrite lookup_insert_ne in H1 by done.
      assert (d2 = d) as -> by congruence.
      destruct (Hold r) as [? ?]; [by exists s1, d1, k1|].
      destruct (rate_key_lookup d k2 r x y Hx Hy Hk2 Hr2) as [[_ ->]|[_ ->]];
        done.
    + rewrite lookup_insert_ne in H1, H2 by done. by eapply Hinj.
  - intros scheme fr' Hs. destruct (decide (scheme = i)) as [->|Hne].
    + rewrite lookup_insert_eq in Hs.
      assert (fr' = fr) as -> by congruence.
      apply rate_lists_Some. exists d, x, y. by rewrite lookup_insert_eq.
    + rewrite lookup_insert_ne in Hs by done.
      rewrite rate_lists_insert_ne by done.
      eapply rate_lists_weaken; [done|]. by apply Hlists.
Qed.
End store.

(** ** calculateFrequencies followed by areaUnderCurve *)

Section pipeline.

Import rocAnalysis.

Lemma area_of_total (xs ys : list num) :
  length xs = length ys → ∃ a, area_of xs ys = Ok a.
Proof.
  intros Hlen. unfold area_of, trapz, broadcast, diff.
  rewrite decide_True; [simpl; eauto|].
  rewrite !length_zip_with, !length_drop, !length_take, !length_fmap.
  unfold closed_curve. simpl. rewrite !length_app. simpl. lia.
Qed.

Lemma calculateFrequencies_lengths hitDict frequencies scheme fr :
  calculateFrequencies hitDict = Ok frequencies →
  frequencies !! scheme = Some fr →
  (length (fprs fr) = 22 ∧ length (tprs fr) = 22 ∧ length (spcs fr) = 22)%nat.
Proof.
  intros Hcalc Hfr.
  apply (calculateFrequencies_Ok _ _ _ _ Hcalc) in Hfr
    as (counts & res & _ & Hlen%scheme_list_length & Hfr).
  apply scheme_frequencies_Ok in Hfr
    as (_ & _ & _ & _ & _ & rows & Hrows%Forall2_length & -> & -> & ->).
  rewrite !length_fmap, <-Hrows, length_seq. done.
Qed.

Lemma hits_at_100_nonnegative (n : Z) :
  0 ≤ n → nonnegative_counts (hits_at_100 n).
Proof.
  intros Hn scheme counts. unfold hits_at_100.
  intros [<- <-]%lookup_singleton_Some.
  exists (n :: replicate 21 0). split; [by vm_compute|].
  constructor; [done|]. by apply Forall_replicate.
Qed.

(** C1 fails at the perfectly separating scheme: with all 594 hits at the
    first level, tpr is 1.0 at index 0 and 0.5 at index 1. *)
Lemma tpr_not_monotone :
  match frequencies_of (hits_at_100 594) "blastn4-545" with
  | Some fr =>
      raw fr = 594 :: replicate 21 0 ∧
      tprs fr !! 0%nat = Some (Float (float_of_Z 1)) ∧
      tprs fr !! 1%nat = Some (Float (float_of_ratio 1 2)) ∧
      num_le (Float (float_of_Z 1)) (Float (float_of_ratio 1 2)) = false
  | None => False
  end.
Proof. by vm_compute. Qed.

(** C2 fails on the perfectly separating scheme: a call of areaUnderCurve
    leaves the caller's fprs and tprs lists two elements longer, with 1.0
    in front and 0.0 at the end, and a second call on the same dictionary
    extends them again. Both calls return the area 1.0 here: the points
    added twice span no width. *)
Theorem areaUnderCurve_mutates_caller_lists :
  match frequencies_of (hits_at_100 594) "blastn4-545" with
  | Some fr =>
      rate_lists_after 0 (hits_at_100 594) "blastn4-545"
        = Ok (Some (fprs fr, tprs fr)) ∧
      rate_lists_after 1 (hits_at_100 594) "blastn4-545"
        = Ok (Some (closed_curve (fprs fr), closed_curve (tprs fr))) ∧
      rate_lists_after 2 (hits_at_100 594) "blastn4-545"
        = Ok (Some (closed_curve (closed_curve (fprs fr)),
                    closed_curve (closed_curve (tprs fr)))) ∧
      length (fprs fr) = 22%nat ∧
      length (closed_curve (fprs fr)) = 24%nat ∧
      closed_curve (fprs fr) ≠ fprs fr ∧
      area_at_call 0 (hits_at_100 594) "blastn4-545"
        = Ok (Some (float_of_Z 1)) ∧
      area_at_call 1 (hits_at_100 594) "blastn4-545"
        = Ok (Some (float_of_Z 1))
  | None => False
  end.
Proof. by vm_compute. Qed.

End pipeline.

(** ** computePercentId *)

Section computePercentId_properties.
Import nicola.

Lemma py_float_Ok (z : Z) (f : float) : py_float z = Ok f → f = float_of_Z z.
Proof. unfold py_float. destruct (is_infinity _); congruence. Qed.

Lemma py_float_exact (z : Z) :
  - 2 ^ 53 < z < 2 ^ 53 →
  py_float z = Ok (float_of_Z z) ∧
  (z ≠ 0 → SFeqb (float_of_Z z) (S754_zero false) = false).
Proof.
  intros Hz. destruct (py_float_small z Hz) as (f & Hf & Hnz & _).
  pose proof (py_float_Ok _ _ Hf) as ->. done.
Qed.

(** The loop over the aligned characters counts the identical ones. *)
Lemma identical_loop (l : list (ascii * ascii)) (a : Z) :
  foldl (λ identical '(queryBase, subjectBase),
           identical + Z.b2z (Ascii.eqb queryBase subjectBase)) a l
  = a + Z.of_nat (length (filter (λ p : ascii * ascii, p.1 = p.2) l)).
Proof.
  revert a. induction l as [|[q s] l IH]; intros a; simpl; [lia|].
  rewrite IH, filter_cons. simpl.
  destruct (Ascii.eqb_spec q s) as [->|Hne].
  - rewrite decide_True by done. simpl. lia.
  - rewrite decide_False by done. simpl. lia.
Qed.

Lemma identity_count_le (query sbjct : string) :
  (identity_count query sbjct ≤ String.length query)%nat.
Proof.
  unfold identity_count.
  etrans; [apply length_filter|].
  rewrite length_zip_with.
  assert (length (list_ascii_of_string query) = String.length query) as ->; [|lia].
  induction query; simpl; congruence.
Qed.

(** Identical strings give exactly 100.0, strings without an identical
    position exactly 0.0. *)
Lemma percent_identity_code_all (L : nat) :
  L ≠ 0%nat → Z.of_nat L < 2 ^ 53 →
  percent_identity_code L L = float_of_Z 100.
Proof.
  intros HL Hb. unfold percent_identity_code.
  destruct (float_of_Z_finite (Z.of_nat L)) as (m & e & ->); [lia..|].
  rewrite fdiv_same. by vm_compute.
Qed.

Lemma percent_identity_code_none (L : nat) :
  L ≠ 0%nat → Z.of_nat L < 2 ^ 53 →
  percent_identity_code 0 L = S754_zero false.
Proof.
  intros HL Hb. unfold percent_identity_code.
  destruct (float_of_Z_finite (Z.of_nat L)) as (m & e & ->); [lia..|].
  assert ((Z.of_nat L <? 0) = false) as -> by lia.
  by vm_compute.
Qed.

(** C9, as the code has it: for an alignment whose first pair has a query
    of length [L] and [k] positions identical to the subject,
    computePercentId returns [k / float(L) * 100] in doubles: the quotient
    is rounded, then the product is rounded again. The result is exactly
    [100*k/L] at the two ends, 100.0 for [k = L] and 0.0 for [k = 0]. An
    empty query raises ZeroDivisionError. *)
Theorem computePercentId_spec alignment hsp rest :
  hsps alignment = hsp :: rest →
  let k := identity_count (hsp_query hsp) (sbjct hsp) in
  let L := String.length (hsp_query hsp) in
  Z.of_nat L < 2 ^ 53 →
  (L ≠ 0%nat → computePercentId alignment = Ok (percent_identity_code k L)) ∧
  (L ≠ 0%nat → k = L → computePercentId alignment = Ok (float_of_Z 100)) ∧
  (L ≠ 0%nat → k = 0%nat → computePercentId alignment = Ok (S754_zero false)) ∧
  (L = 0%nat → computePercentId alignment = Raise ZeroDivisionError).
Proof.
  intros Hhsps k L HL.
  assert ((L ≠ 0%nat →
           computePercentId alignment = Ok (percent_identity_code k L)) ∧
          (L = 0%nat → computePercentId alignment = Raise ZeroDivisionError))
    as [Hcode Hempty].
  { unfold computePercentId, getitem. rewrite Hhsps. simpl.
    rewrite identical_loop. fold (identity_count (hsp_query hsp) (sbjct hsp)).
    fold k. fold L.
    pose proof (identity_count_le (hsp_query hsp) (sbjct hsp)) as Hk.
    fold k in Hk. fold L in Hk.
    destruct (py_float_exact (Z.of_nat L)) as [-> HLnz]; [lia|].
    destruct (py_float_exact (0 + Z.of_nat k)) as [-> _]; [lia|]. simpl.
    split.
    - intros HL0. unfold float_div. rewrite HLnz by lia. done.
    - intros HL0. rewrite HL0. done. }
  split; [done|]. split; [|split; [|done]].
  - intros HL0 Hall. rewrite Hcode, Hall by done.
    by rewrite percent_identity_code_all.
  - intros HL0 Hnone. rewrite Hcode, Hnone by done.
    by rewrite percent_identity_code_none.
Qed.

(** The tests of test/test_nicola.py: identical strings give 100.0,
    strings that differ everywhere 0.0, and 23 identities out of 24 the
    double written 95.83333333333334. *)
Lemma computePercentId_tests :
  computePercentId test_identical = Ok (float_of_Z 100) ∧
  computePercentId test_different = Ok (S754_zero false) ∧
  computePercentId test_realistic
    = Ok (float_of_ratio 9583333333333334 (10 ^ 14)).
Proof. by vm_compute. Qed.

(** C9 fails at the alignment of the repository's own test: for 23
    identities in 24 positions the code returns 95.83333333333334; the
    double nearest to 100*23/24 is 95.83333333333333, and the ratio itself
    is no double. *)
Lemma percent_identity_not_exact :
  String.length (hsp_query (test_alignment_hsp test_realistic)) = 24%nat ∧
  String.length (sbjct (test_alignment_hsp test_realistic)) = 24%nat ∧
  identity_count "TACCCTGCGGCCCGCTACGGCTGG" "TACCCTGCGGCCCGC-ACGGCTGG"
    = 23%nat ∧
  computePercentId test_realistic
    = Ok (float_of_ratio 9583333333333334 (10 ^ 14)) ∧
  percent_identity_spec 23 24 = float_of_ratio 9583333333333333 (10 ^ 14) ∧
  SFeqb (float_of_ratio 9583333333333334 (10 ^ 14))
        (percent_identity_spec 23 24) = false ∧
  ¬ float_is_ratio (float_of_ratio 9583333333333334 (10 ^ 14)) (100 * 23) 24.
Proof. by vm_compute. Qed.

End computePercentId_properties.

(** * Further properties *)

(** ** The order of doubles *)

Lemma SFcompare_key (f g : float) :
  f ≠ S754_nan → g ≠ S754_nan →
  SFcompare f g = Some (lex_compare (float_key f) (float_key g)).
Proof.
  intros Hf Hg. unfold lex_compare.
  destruct f as [[]|[]| |[] m1 e1], g as [[]|[]| |[] m2 e2]; try done; simpl.
  all: try rewrite Z.compare_opp; try rewrite (Z.compare_antisym e1 e2).
  all: by destruct (e1 ?= e2).
Qed.

Lemma lex_compare_Lt (a b : Z * Z * Z) : lex_compare a b = Lt ↔ lex_lt a b.
Proof.
  unfold lex_compare, lex_lt.
  destruct (Z.compare_spec a.1.1 b.1.1), (Z.compare_spec a.1.2 b.1.2),
    (Z.compare_spec a.2 b.2); split; try done; lia.
Qed.

Lemma lex_compare_Gt (a b : Z * Z * Z) : lex_compare a b = Gt ↔ lex_lt b a.
Proof.
  unfold lex_compare, lex_lt.
  destruct (Z.compare_spec a.1.1 b.1.1), (Z.compare_spec a.1.2 b.1.2),
    (Z.compare_spec a.2 b.2); split; try done; lia.
Qed.

Lemma lex_compare_Eq (a b : Z * Z * Z) : lex_compare a b = Eq ↔ a = b.
Proof.
  unfold lex_compare. destruct a as [[a1 a2] a3], b as [[b1 b2] b3]. simpl.
  destruct (Z.compare_spec a1 b1), (Z.compare_spec a2 b2),
    (Z.compare_spec a3 b3); split; try done; try congruence; intros [=]; lia.
Qed.

Lemma lex_lt_trans (a b c : Z * Z * Z) : lex_lt a b → lex_lt b c → lex_lt a c.
Proof. unfold lex_lt. lia. Qed.

Lemma lex_lt_irrefl (a : Z * Z * Z) : ¬ lex_lt a a.
Proof. unfold lex_lt. lia. Qed.

Lemma lex_lt_le_trans (a b c : Z * Z * Z) :
  lex_lt a b → ¬ lex_lt c b → lex_lt a c.
Proof. unfold lex_lt. lia. Qed.

Lemma lex_le_lt_trans (a b c : Z * Z * Z) :
  ¬ lex_lt b a → lex_lt b c → lex_lt a c.
Proof. unfold lex_lt. lia. Qed.

Lemma lex_lt_total (a b : Z * Z * Z) : lex_lt a b ∨ a = b ∨ lex_lt b a.
Proof.
  unfold lex_lt. destruct a as [[a1 a2] a3], b as [[b1 b2] b3]. simpl.
  destruct (Z.lt_total a1 b1) as [?|[->|?]]; [lia| |lia].
  destruct (Z.lt_total a2 b2) as [?|[->|?]]; [lia| |lia].
  destruct (Z.lt_total a3 b3) as [?|[->|?]]; [lia| |lia].
  by right; left.
Qed.

Lemma num_compare_Float (a b : float) :
  num_compare (Float a) (Float b) =
  if is_nan (Float a) || is_nan (Float b) then None
  else Some (lex_compare (float_key a) (float_key b)).
Proof.
  destruct a as [| | |s1 m1 e1] eqn:Ha, b as [| | |s2 m2 e2] eqn:Hb;
    try done; rewrite <-Ha, <-Hb; simpl;
    rewrite SFcompare_key by (by subst); by subst.
Qed.

Lemma num_gt_Float (a b : float) :
  num_gt (Float a) (Float b) = true ↔
  is_nan (Float a) = false ∧ is_nan (Float b) = false ∧
  lex_lt (float_key b) (float_key a).
Proof.
  unfold num_gt. rewrite num_compare_Float, <-lex_compare_Gt.
  destruct (is_nan (Float a)), (is_nan (Float b)); simpl;
    try (split; [done | by intros (? & ? & ?)]).
  destruct (lex_compare _ _); split; try done; by intros (_ & _ & ?).
Qed.

Lemma num_lt_Float (a b : float) :
  num_lt (Float a) (Float b) = true ↔
  is_nan (Float a) = false ∧ is_nan (Float b) = false ∧
  lex_lt (float_key a) (float_key b).
Proof.
  unfold num_lt. rewrite num_compare_Float, <-lex_compare_Lt.
  destruct (is_nan (Float a)), (is_nan (Float b)); simpl;
    try (split; [done | by intros (? & ? & ?)]).
  destruct (lex_compare _ _); split; try done; by intros (_ & _ & ?).
Qed.

Lemma num_eq_Float (a b : float) :
  num_eq (Float a) (Float b) = true ↔
  is_nan (Float a) = false ∧ is_nan (Float b) = false ∧
  float_key a = float_key b.
Proof.
  unfold num_eq. rewrite num_compare_Float, <-lex_compare_Eq.
  destruct (is_nan (Float a)), (is_nan (Float b)); simpl;
    try (split; [done | by intros (? & ? & ?)]).
  destruct (lex_compare _ _); split; try done; by intros (_ & _ & ?).
Qed.

Lemma same_refl (a : num) : same a a = true.
Proof.
  unfold same. destruct a as [z|f].
  - unfold num_eq. simpl. by rewrite Z.compare_refl.
  - destruct (is_nan (Float f)) eqn:Hnan; [by rewrite orb_true_r|].
    rewrite orb_false_r. by apply num_eq_Float.
Qed.

(** ** max, min and index *)

Section selection.

(** [better a b]: [a] replaces [b] as the best element seen. *)
Variable better : num → num → bool.

Hypothesis better_trans : ∀ a b c : float,
  better (Float c) (Float b) = true → better (Float a) (Float b) = false →
  better (Float a) (Float c) = false.
Hypothesis better_irrefl : ∀ a : float, better (Float a) (Float a) = false.
Hypothesis better_nan : ∀ a b : float,
  better (Float a) (Float b) = true →
  is_nan (Float a) = false ∧ is_nan (Float b) = false.
Hypothesis better_same : ∀ a b c : float,
  num_eq (Float b) (Float c) = true →
  better (Float a) (Float b) = better (Float a) (Float c).

Lemma fold_best_spec (seen l : list num) (cur : num) :
  Forall (λ n, is_float n = true) (seen ++ l) →
  cur ∈ seen → (∀ x, x ∈ seen → better x cur = false) →
  (is_nan cur = true → ∃ a, seen !! 0%nat = Some a ∧ is_nan a = true) →
  fold_best better cur l ∈ seen ++ l ∧
  (∀ x, x ∈ seen ++ l → better x (fold_best better cur l) = false) ∧
  (is_nan (fold_best better cur l) = true →
   ∃ a, (seen ++ l) !! 0%nat = Some a ∧ is_nan a = true).
Proof.
  revert seen cur. induction l as [|item l IH]; intros seen cur Hfl Hcur Hbest Hnan.
  - rewrite app_nil_r. done.
  - unfold fold_best. simpl. fold (fold_best better (if better item cur then item else cur) l).
    replace (seen ++ item :: l) with ((seen ++ [item]) ++ l) in *
      by (by rewrite <-app_assoc).
    pose proof Hfl as [[Hseen Hi]%Forall_app _]%Forall_app.
    apply Forall_cons in Hi as [Hi _].
    rewrite Forall_forall in Hseen. pose proof (Hseen _ Hcur) as Hc.
    destruct cur as [|c]; [done|]. destruct item as [|it]; [done|].
    apply IH; [done| | |].
    + apply elem_of_app. destruct (better _ _); [right | by left].
      by apply list_elem_of_singleton.
    + intros x [Hx | ->%list_elem_of_singleton]%elem_of_app.
      * pose proof (Hseen _ Hx) as Hfx.
        destruct x as [|x]; [done|].
        destruct (better (Float it) (Float c)) eqn:Hb; [|by apply Hbest].
        eapply better_trans; [done|]. by apply Hbest.
      * destruct (better (Float it) (Float c)) eqn:Hb; [|done].
        apply better_irrefl.
    + destruct (better (Float it) (Float c)) eqn:Hb.
      * apply better_nan in Hb as [Hb _]. congruence.
      * intros (a & Ha & Hna)%Hnan. exists a. split; [|done].
        by apply lookup_app_l_Some.
Qed.

Lemma list_index_spec (v : num) (l : list num) (i : nat) :
  list_index v l = Ok i →
  ∃ a, l !! i = Some a ∧ same a v = true ∧
       ∀ j x, (j < i)%nat → l !! j = Some x → same x v = false.
Proof.
  revert i. induction l as [|a l IH]; intros i; simpl; [done|].
  fold (same a v). destruct (same a v) eqn:Hs.
  - intros [= <-]. exists a. split; [done|]. split; [done|]. lia.
  - intros (i' & Hi' & [= <-])%bind_Ok.
    destruct (IH _ Hi') as (b & Hb & Hsb & Hfirst).
    exists b. split; [done|]. split; [done|].
    intros [|j] x Hj; simpl; [congruence|]. apply Hfirst. lia.
Qed.

Lemma list_index_total (v : num) (l : list num) :
  v ∈ l → ∃ i, list_index v l = Ok i.
Proof.
  induction l as [|a l IH]; [by intros ?%elem_of_nil|].
  simpl. fold (same a v). destruct (same a v) eqn:Hs; [by eexists|].
  intros [->|Hv]%elem_of_cons; [by rewrite same_refl in Hs|].
  destruct (IH Hv) as [i ->]. by eexists.
Qed.

(** The element at the position [index] returns for the best element: no
    element is better, and the elements before it are worse or NaN. *)
Lemma select_best (v : num) (l : list num) (i : nat) :
  Forall (λ n, is_float n = true) (v :: l) →
  list_index (fold_best better v l) (v :: l) = Ok i →
  ∃ a, (v :: l) !! i = Some a ∧
    (∀ x, x ∈ v :: l → better x a = false) ∧
    (∀ j x, (j < i)%nat → (v :: l) !! j = Some x →
       is_nan x = false → num_eq x a = false ∧ is_nan a = false).
Proof.
  intros Hfl Hi.
  destruct (fold_best_spec [v] l v) as (Hin & Hbest & Hnan); try done.
  { by apply list_elem_of_singleton. }
  { intros x Hx. apply list_elem_of_singleton in Hx as ->.
    destruct v as [|v]; [by inversion Hfl|]. apply better_irrefl. }
  { intros Hv. by exists v. }
  simpl in Hin, Hbest, Hnan.
  remember (fold_best better v l) as m0 eqn:Hm0. clear Hm0.
  apply list_index_spec in Hi as (a & Ha & Hsame & Hfirst).
  exists a. split; [done|].
  assert (is_float a = true ∧ is_float m0 = true) as [Hfa Hfm].
  { rewrite Forall_forall in Hfl. split; apply Hfl; [|done].
    by eapply list_elem_of_lookup_2. }
  destruct a as [|a]; [done|]. destruct m0 as [|m]; [done|].
  unfold same in Hsame. apply orb_true_iff in Hsame.
  split.
  - intros x Hx.
    assert (is_float x = true) as Hfx by (rewrite Forall_forall in Hfl; by apply Hfl).
    destruct x as [|x]; [done|].
    destruct Hsame as [Heq | [Hna _]%andb_true_iff].
    + rewrite (better_same x a m Heq). by apply Hbest.
    + destruct (better (Float x) (Float a)) eqn:Hb; [|done].
      apply better_nan in Hb as [_ Hb]. congruence.
  - intros j x Hj Hx Hnx. pose proof (Hfirst j x Hj Hx) as Hjx.
    unfold same in Hjx. apply orb_false_iff in Hjx as [Hne _].
    destruct (is_nan (Float m)) eqn:Hnm.
    { destruct (Hnan eq_refl) as (b & [= <-] & Hb).
      destruct i as [|i]; [lia|].
      assert (same v (Float m) = true) as Hv.
      { unfold same. rewrite Hb, Hnm. by rewrite orb_true_r. }
      by rewrite (Hfirst 0%nat v) in Hv by (done || lia). }
    destruct Hsame as [Heq | [_ ?]%andb_true_iff]; [|congruence].
    assert (is_float x = true) as Hfx.
    { rewrite Forall_forall in Hfl. apply Hfl. by eapply list_elem_of_lookup_2. }
    destruct x as [|x]; [done|].
    apply num_eq_Float in Heq as (Hna & _ & Hk). split; [|done].
    destruct (num_eq (Float x) (Float a)) eqn:Hxa; [|done].
    apply num_eq_Float in Hxa as (_ & _ & Hk').
    assert (num_eq (Float x) (Float m) = true); [|congruence].
    apply num_eq_Float. repeat split; try done. congruence.
Qed.

End selection.

Lemma num_gt_trans (a b c : float) :
  num_gt (Float c) (Float b) = true → num_gt (Float a) (Float b) = false →
  num_gt (Float a) (Float c) = false.
Proof.
  intros (Hc & Hb & Hbc)%num_gt_Float Hab.
  destruct (num_gt (Float a) (Float c)) eqn:Hac; [|done].
  apply num_gt_Float in Hac as (Ha & _ & Hca).
  rewrite <-Hab. symmetry. apply num_gt_Float.
  repeat split; try done. by eapply lex_lt_trans.
Qed.

Lemma num_lt_trans (a b c : float) :
  num_lt (Float c) (Float b) = true → num_lt (Float a) (Float b) = false →
  num_lt (Float a) (Float c) = false.
Proof.
  intros (Hc & Hb & Hbc)%num_lt_Float Hab.
  destruct (num_lt (Float a) (Float c)) eqn:Hac; [|done].
  apply num_lt_Float in Hac as (Ha & _ & Hca).
  rewrite <-Hab. symmetry. apply num_lt_Float.
  repeat split; try done. by eapply lex_lt_trans.
Qed.

Lemma num_gt_irrefl (a : float) : num_gt (Float a) (Float a) = false.
Proof.
  destruct (num_gt (Float a) (Float a)) eqn:H; [|done].
  apply num_gt_Float in H as (_ & _ & H). by apply lex_lt_irrefl in H.
Qed.

Lemma num_lt_irrefl (a : float) : num_lt (Float a) (Float a) = false.
Proof.
  destruct (num_lt (Float a) (Float a)) eqn:H; [|done].
  apply num_lt_Float in H as (_ & _ & H). by apply lex_lt_irrefl in H.
Qed.

Lemma num_gt_nan (a b : float) :
  num_gt (Float a) (Float b) = true →
  is_nan (Float a) = false ∧ is_nan (Float b) = false.
Proof. by intros (? & ? & _)%num_gt_Float. Qed.

Lemma num_lt_nan (a b : float) :
  num_lt (Float a) (Float b) = true →
  is_nan (Float a) = false ∧ is_nan (Float b) = false.
Proof. by intros (? & ? & _)%num_lt_Float. Qed.

Lemma num_gt_same (a b c : float) :
  num_eq (Float b) (Float c) = true →
  num_gt (Float a) (Float b) = num_gt (Float a) (Float c).
Proof.
  intros (Hb & Hc & Hk)%num_eq_Float.
  apply eq_true_iff_eq. rewrite !num_gt_Float, Hk.
  split; by intros (? & ? & ?).
Qed.

Lemma num_lt_same (a b c : float) :
  num_eq (Float b) (Float c) = true →
  num_lt (Float a) (Float b) = num_lt (Float a) (Float c).
Proof.
  intros (Hb & Hc & Hk)%num_eq_Float.
  apply eq_true_iff_eq. rewrite !num_lt_Float, Hk.
  split; by intros (? & ? & ?).
Qed.

(** Two doubles other than NaN are equal or one is below the other. *)
Lemma num_trichotomy (a b : float) :
  is_nan (Float a) = false → is_nan (Float b) = false →
  num_lt (Float a) (Float b) = true ∨ num_eq (Float a) (Float b) = true ∨
  num_gt (Float a) (Float b) = true.
Proof.
  intros Ha Hb. rewrite num_lt_Float, num_eq_Float, num_gt_Float.
  destruct (lex_lt_total (float_key a) (float_key b)) as [?|[?|?]];
    [left | right; left | right; right]; done.
Qed.

(** ** Loops *)

Lemma for_each_ext {A S} (body body' : S → A → result S) (s : S) (l : list A) :
  (∀ s a, body s a = body' s a) → for_each body s l = for_each body' s l.
Proof.
  intros Hext. revert s. induction l as [|a l IH]; intros s; simpl; [done|].
  rewrite Hext. destruct (body' s a); simpl; [apply IH | done].
Qed.

(** A loop that appends one computed value for each index. *)
Lemma score_loop (score : nat → result num) (acc l : list num) (ks : list nat) :
  for_each (λ acc i, v ← score i; Ok (acc ++ [v])) acc ks = Ok l ↔
  ∃ vs, l = acc ++ vs ∧ Forall2 (λ i v, score i = Ok v) ks vs.
Proof.
  revert acc. induction ks as [|k ks IH]; intros acc; simpl.
  - split.
    + intros [= <-]. exists []. by rewrite app_nil_r.
    + intros (vs & -> & ->%Forall2_nil_inv_l). by rewrite app_nil_r.
  - split.
    + intros (acc' & (v & Hv & [= <-])%bind_Ok & (vs & -> & Hvs)%IH)%bind_Ok.
      exists (v :: vs). split; [by rewrite <-app_assoc|]. by constructor.
    + intros (vs & -> & (v & vs' & Hv & Hvs & ->)%Forall2_cons_inv_l).
      rewrite Hv. simpl. apply IH. exists vs'.
      split; [by rewrite <-app_assoc | done].
Qed.

Lemma map_fold_iteritems {A B} (f : string → A → B → B) (b : B)
    (d : gmap string A) :
  map_fold f b d = foldl (λ acc '(k, a), f k a acc) b (iteritems d).
Proof.
  rewrite map_fold_foldr. unfold iteritems.
  induction (map_to_list d) as [|[k a] l IH]; [done|].
  rewrite reverse_cons, foldl_app. simpl. by rewrite IH.
Qed.

Lemma collect_loop {A B C} (g : C → result (A * B))
    (items : list (string * C)) (cs : list A) (ks : list B) :
  foldl (λ acc '(k, a), collect_step g k a acc) (Ok ([], [])) items
    = Ok (cs, ks) →
  ∃ es, Forall2 (λ it e, g it.2 = Ok e) items es ∧ cs = es.*1 ∧ ks = es.*2.
Proof.
  revert cs ks. induction items as [|[k d] items IH] using rev_ind;
    intros cs ks.
  - intros [= <- <-]. by exists [].
  - rewrite foldl_app. simpl. unfold collect_step at 1.
    intros ([cs' ks'] & Hacc & ([e c] & He & [= <- <-])%bind_Ok)%bind_Ok.
    destruct (IH _ _ Hacc) as (es & Hes & -> & ->).
    exists (es ++ [(e, c)]). rewrite !fmap_app. split; [|done].
    apply Forall2_app; [done|]. by constructor.
Qed.

Section index_properties.

Import rocAnalysis.

Implicit Types (frequencies : gmap string (gmap string loc)) (h : heap).
Implicit Types (d : gmap string loc) (x y : list num).

Lemma youden_at_float x y i v :
  Forall (λ n, is_float n = true) y → youden_at x y i = Ok v →
  is_float v = true.
Proof.
  intros Hy (xi & _ & (yi & Hyi & (s & Hs & Hv)%bind_Ok)%bind_Ok)%bind_Ok.
  unfold getitem in Hyi. destruct (y !! i) as [yi'|] eqn:Hi; [|done].
  simplify_eq. eapply Forall_lookup_1 in Hy; [|done].
  destruct yi as [|yi]; [done|].
  assert (is_float s = true) as Hfs.
  { destruct xi as [z|f]; cbn [num_add coerce] in Hs.
    - apply bind_Ok in Hs as (? & _ & Hs).
      cbn [mbind result_bind] in Hs. by simplify_eq.
    - cbn [mbind result_bind] in Hs. by simplify_eq. }
  destruct s as [|s]; [done|]. cbn [num_sub coerce mbind result_bind] in Hv.
  apply bind_Ok in Hv as (? & _ & Hv). by simplify_eq.
Qed.

Lemma youden_at_lt x y i v : youden_at x y i = Ok v → (i < length x)%nat.
Proof.
  intros (xi & Hxi & _)%bind_Ok. unfold getitem in Hxi.
  destruct (x !! i) eqn:Hi; [|done]. by eapply lookup_lt_Some.
Qed.

(** A list of values computed at the indices of [x]. *)
Lemma scores_lookup (score : nat → result num) (n : nat) (vs : list num) :
  Forall2 (λ i v, score i = Ok v) (seq 0 n) vs →
  length vs = n ∧ ∀ i v, vs !! i = Some v ↔ (i < n)%nat ∧ score i = Ok v.
Proof.
  intros Hvs. pose proof (Forall2_length _ _ _ Hvs) as Hlen.
  rewrite length_seq in Hlen. split; [done|]. intros i v. split.
  - intros Hv. pose proof (lookup_lt_Some _ _ _ Hv) as Hi. split; [lia|].
    eapply Forall2_lookup_lr in Hvs; [done| |done].
    rewrite lookup_seq. split; [done | lia].
  - intros [Hi Hv].
    destruct (Forall2_lookup_l _ _ _ i i Hvs) as (v' & Hv' & Hs).
    { rewrite lookup_seq. split; [done | lia]. }
    cbv beta in Hs. congruence.
Qed.

Lemma youden_scheme_Ok d h tpr fpr cutoff :
  youden_scheme d h = Ok ((tpr, fpr), cutoff) →
  ∃ x y fprs youdens m,
    field d "spcs" h = Ok x ∧ field d "tprs" h = Ok y ∧
    field d "fprs" h = Ok fprs ∧
    Forall2 (λ i v, youden_at x y i = Ok v) (seq 0 (length x)) youdens ∧
    list_max youdens = Ok m ∧ list_index m youdens = Ok cutoff ∧
    y !! cutoff = Some tpr ∧ fprs !! cutoff = Some fpr.
Proof.
  unfold youden_scheme.
  intros (x & Hx & (y & Hy & (youdens & Hloop & H)%bind_Ok)%bind_Ok)%bind_Ok.
  apply bind_Ok in H as (m & Hm & (c & Hc & H)%bind_Ok).
  rewrite Hc in H. simpl in H.
  apply bind_Ok in H as (tpr' & Htpr & (fprs & Hf & H)%bind_Ok).
  apply bind_Ok in H as (fpr' & Hfpr & [= <- <- <-]).
  exists x, y, fprs, youdens, m. repeat split; try done.
  - rewrite (for_each_ext _ (λ acc i, v ← youden_at x y i; Ok (acc ++ [v])))
      in Hloop.
    + apply score_loop in Hloop as (vs & -> & Hvs). done.
    + intros acc i. unfold youden_step, youden_at.
      destruct (getitem x i) as [xi|]; simpl; [|done].
      destruct (getitem y i) as [yi|]; simpl; [|done].
      by destruct (num_add xi yi).
  - unfold getitem in Htpr. by destruct (y !! c) eqn:E; simplify_eq.
  - unfold getitem in Hfpr. by destruct (fprs !! c) eqn:E; simplify_eq.
Qed.

(** X8: youdenIndex returns one pair of coordinates and one cutoff for each
    scheme, in the order in which a loop visits the dictionary. The cutoff
    of a scheme is an index of its spcs list, and the pair is the tpr and
    the fpr at that index. Where the tprs list holds floats, as
    calculateFrequencies fills it, spcs[i] + tprs[i] - 1 is nowhere greater
    than at the cutoff and is smaller (or a NaN) at every index before
    it. *)
Theorem youdenIndex_first_maximum frequencies h youdenCoords cutoffs :
  youdenIndex frequencies h = Ok (youdenCoords, cutoffs) →
  length youdenCoords = size frequencies ∧
  length cutoffs = size frequencies ∧
  ∀ k scheme d, iteritems frequencies !! k = Some (scheme, d) →
    ∃ x y fprs cutoff tpr fpr best,
      field d "spcs" h = Ok x ∧ field d "tprs" h = Ok y ∧
      field d "fprs" h = Ok fprs ∧
      cutoffs !! k = Some cutoff ∧ youdenCoords !! k = Some (tpr, fpr) ∧
      (cutoff < length x)%nat ∧
      y !! cutoff = Some tpr ∧ fprs !! cutoff = Some fpr ∧
      youden_at x y cutoff = Ok best ∧
      (Forall (λ n, is_float n = true) y →
       ∀ i v, youden_at x y i = Ok v →
         num_gt v best = false ∧
         ((i < cutoff)%nat → num_lt v best = true ∨ is_nan v = true)).
Proof.
  unfold youdenIndex. rewrite map_fold_iteritems.
  intros (es & Hes & -> & ->)%(collect_loop (λ d, youden_scheme d h)).
  pose proof (Forall2_length _ _ _ Hes) as Hlen.
  unfold iteritems in Hlen. rewrite length_reverse, length_map_to_list in Hlen.
  rewrite !length_fmap. split; [done|]. split; [done|].
  intros k scheme d Hk.
  destruct (Forall2_lookup_l _ _ _ _ _ Hes Hk) as ([[tpr fpr] cutoff] & He & Hs).
  simpl in Hs.
  apply youden_scheme_Ok in Hs
    as (x & y & fprs & youdens & m & Hx & Hy & Hf & Hvs & Hm & Hc & Ht & Hfp).
  apply scores_lookup in Hvs as [Hlen' Hvs].
  exists x, y, fprs, cutoff, tpr, fpr.
  destruct youdens as [|v0 youdens']; [done|].
  injection Hm as <-.
  destruct (list_index_spec _ _ _ Hc) as (best & Hbest & _).
  exists best. rewrite !list_lookup_fmap, He. simpl.
  apply Hvs in Hbest as Hbest'. destruct Hbest' as [Hlt Hat].
  split_and!; try done.
  intros Hfl i v Hv.
  assert ((v0 :: youdens') !! i = Some v) as Hi.
  { apply Hvs. split; [by eapply youden_at_lt | done]. }
  assert (Forall (λ n, is_float n = true) (v0 :: youdens')) as Hfloats.
  { apply Forall_lookup_2. intros j w [_ Hw]%Hvs. by eapply youden_at_float. }
  destruct (select_best num_gt num_gt_trans num_gt_irrefl num_gt_nan
              num_gt_same v0 youdens' cutoff Hfloats Hc)
    as (a & Ha & Hnone & Hfirst).
  assert (a = best) as -> by congruence.
  assert (num_gt v best = false) as Hgt.
  { apply Hnone. by eapply list_elem_of_lookup_2. }
  split; [done|].
  intros Hlt'. destruct (is_nan v) eqn:Hnv; [by right | left].
  destruct (Hfirst i v Hlt' Hi Hnv) as [Hne Hnb].
  eapply Forall_lookup_1 in Hi as Hfv; [|done].
  eapply Forall_lookup_1 in Ha as Hfb; [|done]. simpl in Hfv, Hfb.
  destruct v as [|v]; [done|]. destruct best as [|best]; [done|].
  destruct (num_trichotomy v best Hnv Hnb) as [?|[?|?]]; congruence.
Qed.

End index_properties.


(** ** sorted and areaUnderCurveIndex *)

Section sorting.

Context {A : Type} (lt : A → A → bool).

Lemma insort_Permutation (a : A) (l : list A) : insort lt a l ≡ₚ a :: l.
Proof.
  induction l as [|b l IH]; simpl; [done|].
  destruct (lt a b); [done|]. rewrite IH. apply Permutation_swap.
Qed.

Lemma sorted_loop_Permutation (acc l : list A) :
  foldl (λ acc a, insort lt a acc) acc l ≡ₚ acc ++ l.
Proof.
  revert acc. induction l as [|a l IH]; intros acc; simpl.
  - by rewrite app_nil_r.
  - rewrite IH, insort_Permutation. simpl. apply Permutation_middle.
Qed.

(** The elements the sort is applied to are ordered by [lt]. *)
Variable P : A → Prop.
Hypothesis lt_asym : ∀ a b, P a → P b → lt a b = true → lt b a = false.
Hypothesis lt_trans : ∀ a b c, P a → P b → P c →
  lt a b = true → lt c b = false → lt c a = false.

Lemma insort_sorted (a : A) (l : list A) :
  P a → Forall P l →
  StronglySorted (λ u v, lt v u = false) l →
  StronglySorted (λ u v, lt v u = false) (insort lt a l).
Proof.
  intros Ha Hl Hs. induction Hs as [|b l Hs IH Hb]; simpl.
  - repeat constructor.
  - apply Forall_cons in Hl as [HPb Hl].
    destruct (lt a b) eqn:Hab.
    + constructor; [by constructor|]. constructor; [by apply lt_asym|].
      rewrite Forall_forall in Hb, Hl. apply Forall_forall. intros c Hc.
      by apply (lt_trans a b c); auto.
    + constructor; [by apply IH|].
      rewrite insort_Permutation. by constructor.
Qed.

Lemma sorted_loop_sorted (acc l : list A) :
  Forall P acc → Forall P l →
  StronglySorted (λ u v, lt v u = false) acc →
  StronglySorted (λ u v, lt v u = false)
    (foldl (λ acc a, insort lt a acc) acc l).
Proof.
  revert acc. induction l as [|a l IH]; intros acc Hacc Hl Hs; simpl; [done|].
  apply Forall_cons in Hl as [Ha Hl].
  apply IH; [|done|by apply insort_sorted].
  rewrite insort_Permutation. by constructor.
Qed.

End sorting.

Lemma SFltb_lex (a b : float) :
  SFltb a b = true ↔
  a ≠ S754_nan ∧ b ≠ S754_nan ∧ lex_lt (float_key a) (float_key b).
Proof.
  change (SFltb a b) with (num_lt (Float a) (Float b)).
  rewrite num_lt_Float.
  assert (∀ f, is_nan (Float f) = false ↔ f ≠ S754_nan) as Hn
    by (intros []; split; done).
  by rewrite !Hn.
Qed.

Section areaUnderCurveIndex_properties.

Import rocAnalysis.

Implicit Types (integrated : gmap string float).

(** The position of every key in a list of items without a repeated key. *)
Lemma enumerate_loop {V} (l : list (string * V)) (k : string) (i : nat) :
  NoDup l.*1 →
  foldl (λ indexes '(i, item), <[item.1 := i]> indexes) (∅ : gmap string nat)
        (enumerate l) !! k = Some i ↔
  ∃ v, l !! i = Some (k, v).
Proof.
  unfold enumerate. revert k i.
  induction l as [|[k' v'] l IH] using rev_ind; intros k i Hnd.
  - simpl. rewrite lookup_empty. split; [done | by intros [? ?]].
  - rewrite fmap_app in Hnd. apply NoDup_app in Hnd as (Hnd & Hk' & _).
    rewrite imap_app, foldl_app. simpl. rewrite Nat.add_0_r.
    destruct (decide (k = k')) as [->|Hne].
    + rewrite lookup_insert_eq. split.
      * intros [= <-]. exists v'. by apply list_lookup_middle.
      * intros [v Hv]. f_equal.
        destruct (decide (i < length l)%nat) as [Hlt|Hge].
        -- rewrite lookup_app_l in Hv by done. exfalso.
           apply (Hk' k'); [|by apply list_elem_of_singleton].
           apply list_elem_of_fmap. exists (k', v). split; [done|].
           by eapply list_elem_of_lookup_2.
        -- apply lookup_lt_Some in Hv as Hi. rewrite length_app in Hi.
           simpl in Hi. lia.
    + rewrite lookup_insert_ne by done. rewrite IH by done.
      split; intros [v Hv]; exists v.
      * by apply lookup_app_l_Some.
      * apply lookup_app_Some in Hv as [Hv | [_ Hv]]; [done|].
        apply list_lookup_singleton_Some in Hv as [_ [=]]. congruence.
Qed.

Lemma iteritems_spec {V} (d : gmap string V) :
  NoDup (iteritems d).*1 ∧
  length (iteritems d) = size d ∧
  ∀ k v, (k, v) ∈ iteritems d ↔ d !! k = Some v.
Proof.
  unfold iteritems. split; [|split].
  - rewrite fmap_reverse, reverse_Permutation. apply NoDup_fst_map_to_list.
  - by rewrite length_reverse, length_map_to_list.
  - intros k v. by rewrite elem_of_reverse, elem_of_map_to_list.
Qed.

(** The list areaUnderCurveIndex numbers: a rearrangement of the items of
    the dictionary. *)
Lemma sortedIntegrated_spec integrated :
  let l := reverse (sorted snd SFltb (iteritems integrated)) in
  NoDup l.*1 ∧ length l = size integrated ∧
  ∀ k v, (k, v) ∈ l ↔ integrated !! k = Some v.
Proof.
  intros l.
  assert (l ≡ₚ iteritems integrated) as Hp.
  { unfold l, sorted. by rewrite reverse_Permutation, sorted_loop_Permutation. }
  destruct (iteritems_spec integrated) as (Hnd & Hlen & Hin).
  split; [by rewrite Hp|]. split; [by rewrite Hp|].
  intros k v. by rewrite Hp.
Qed.

Lemma StronglySorted_lookup {V} (R : V → V → Prop) (l : list V) i j u v :
  StronglySorted R l → (i < j)%nat →
  l !! i = Some u → l !! j = Some v → R u v.
Proof.
  intros Hs. revert i j. induction Hs as [|a l Hs IH Ha]; intros i j Hij; [done|].
  destruct j as [|j]; [lia|]. destruct i as [|i]; simpl.
  - intros [= <-] Hv. rewrite Forall_forall in Ha. apply Ha.
    by eapply list_elem_of_lookup_2.
  - apply IH. lia.
Qed.

(** Without a NaN among the areas, the sorted list ascends. *)
Lemma sorted_areas (items : list (string * float)) :
  Forall (λ it, it.2 ≠ S754_nan) items →
  StronglySorted (λ u v, SFltb v.2 u.2 = false) (sorted snd SFltb items).
Proof.
  intros Hnan. unfold sorted.
  apply (sorted_loop_sorted (λ u v : string * float, SFltb u.2 v.2)
           (λ it, it.2 ≠ S754_nan)); try done; [| |constructor].
  - intros a b Ha Hb (_ & _ & Hab)%SFltb_lex.
    destruct (SFltb b.2 a.2) eqn:Hba; [|done].
    apply SFltb_lex in Hba as (_ & _ & Hba).
    destruct (lex_lt_irrefl (float_key a.2)). by eapply lex_lt_trans.
  - intros a b c Ha Hb Hc (_ & _ & Hab)%SFltb_lex Hcb.
    destruct (SFltb c.2 a.2) eqn:Hca; [|done].
    apply SFltb_lex in Hca as (_ & _ & Hca).
    rewrite <-Hcb. symmetry. apply SFltb_lex. repeat split; try done.
    by eapply lex_lt_trans.
Qed.

(** X12: areaUnderCurveIndex numbers the schemes of its argument: every
    scheme gets an index, the indices are below the number of schemes, no
    two schemes share one, and every index below the number of schemes is
    given. *)
Theorem areaUnderCurveIndex_ranks integrated :
  let indexes := areaUnderCurveIndex integrated in
  (∀ scheme, is_Some (indexes !! scheme) ↔ is_Some (integrated !! scheme)) ∧
  (∀ scheme i, indexes !! scheme = Some i → (i < size integrated)%nat) ∧
  (∀ s1 s2 i, indexes !! s1 = Some i → indexes !! s2 = Some i → s1 = s2) ∧
  (∀ i, (i < size integrated)%nat → ∃ scheme, indexes !! scheme = Some i).
Proof.
  intros indexes. unfold indexes, areaUnderCurveIndex.
  destruct (sortedIntegrated_spec integrated) as (Hnd & Hlen & Hin).
  set (l := reverse (sorted snd SFltb (iteritems integrated))) in *.
  split; [|split; [|split]].
  - intros scheme. split.
    + intros [i Hi]. apply enumerate_loop in Hi as [v Hv]; [|done].
      exists v. apply Hin. by eapply list_elem_of_lookup_2.
    + intros [v Hv]. apply Hin, list_elem_of_lookup_1 in Hv as [i Hi].
      exists i. apply enumerate_loop; [done|]. by exists v.
  - intros scheme i Hi. apply enumerate_loop in Hi as [v Hv]; [|done].
    rewrite <-Hlen. by eapply lookup_lt_Some.
  - intros s1 s2 i H1 H2.
    apply enumerate_loop in H1 as [v1 Hv1]; [|done].
    apply enumerate_loop in H2 as [v2 Hv2]; [|done]. congruence.
  - intros i Hi. rewrite <-Hlen in Hi.
    apply lookup_lt_is_Some in Hi as [[k v] Hkv].
    exists k. apply enumerate_loop; [done|]. by exists v.
Qed.

(** X13: where no area is a NaN, a scheme with a larger area gets a smaller
    index: the index 0 goes to a scheme of the largest area. *)
Theorem areaUnderCurveIndex_order integrated s1 s2 a1 a2 :
  map_Forall (λ _ a, a ≠ S754_nan) integrated →
  integrated !! s1 = Some a1 → integrated !! s2 = Some a2 →
  SFltb a2 a1 = true →
  ∃ i1 i2, areaUnderCurveIndex integrated !! s1 = Some i1 ∧
           areaUnderCurveIndex integrated !! s2 = Some i2 ∧ (i1 < i2)%nat.
Proof.
  intros Hnan H1 H2 Hlt. unfold areaUnderCurveIndex.
  destruct (sortedIntegrated_spec integrated) as (Hnd & Hlen & Hin).
  assert (StronglySorted (λ u v, SFltb v.2 u.2 = false)
            (sorted snd SFltb (iteritems integrated))) as Hs.
  { apply sorted_areas, Forall_forall. intros [k v] Hkv.
    apply iteritems_spec in Hkv. by apply (Hnan k v). }
  set (s := sorted snd SFltb (iteritems integrated)) in *.
  apply Hin, list_elem_of_lookup_1 in H1 as [i1 Hi1].
  apply Hin, list_elem_of_lookup_1 in H2 as [i2 Hi2].
  exists i1, i2. split; [|split].
  - apply enumerate_loop; [done|]. by exists a1.
  - apply enumerate_loop; [done|]. by exists a2.
  - apply reverse_lookup_Some in Hi1 as [Hi1 Hl1].
    apply reverse_lookup_Some in Hi2 as [Hi2 Hl2].
    destruct (decide (i1 < i2)%nat) as [|Hge]; [done|]. exfalso.
    destruct (decide (i1 = i2)) as [->|Hne].
    + assert (a1 = a2) as -> by congruence.
      apply SFltb_lex in Hlt as (_ & _ & Hlt). by apply lex_lt_irrefl in Hlt.
    + pose proof (StronglySorted_lookup _ _
                    (length s - S i1) (length s - S i2) (s1, a1) (s2, a2) Hs)
        as Hle.
      simpl in Hle. rewrite Hle in Hlt; [done|lia|done|done].
Qed.

End areaUnderCurveIndex_properties.


Section youden_store.

Import rocAnalysis.
Implicit Types (h : heap) (d : gmap string loc).

Lemma field_Ok d k h r l :
  d !! k = Some r → h !! r = Some l → field d k h = Ok l.
Proof.
  intros Hk Hr. unfold field, getkey. rewrite Hk. simpl.
  by rewrite lookup_total_alt, Hr.
Qed.

Lemma youden_scheme_of d h x y fprs :
  field d "spcs" h = Ok x → field d "tprs" h = Ok y →
  field d "fprs" h = Ok fprs →
  youden_scheme d h = youden_of x y fprs.
Proof.
  intros Hx Hy Hf. unfold youden_scheme, youden_of. rewrite Hx, Hy, Hf. simpl.
  destruct (for_each _ _ _) as [youdens|]; simpl; [|done].
  destruct (list_max youdens) as [m|]; simpl; [|done].
  destruct (list_index m youdens) as [c|]; simpl; [|done].
  by destruct (getitem y c).
Qed.

Lemma store_scheme_fields (fr : SchemeFrequencies) h :
  ∃ x y z,
    (store_scheme fr h).1 !! "fprs" = Some x ∧
    (store_scheme fr h).1 !! "tprs" = Some y ∧
    (store_scheme fr h).1 !! "spcs" = Some z ∧
    z ≠ x ∧ z ≠ y ∧ h !! x = None ∧ h !! y = None ∧ h !! z = None ∧
    (store_scheme fr h).2 !! z = Some (spcs fr) ∧
    h ⊆ (store_scheme fr h).2.
Proof.
  unfold store_scheme.
  destruct (alloc (fprs fr) h) as [r1 h1] eqn:E1.
  destruct (alloc (tprs fr) h1) as [r2 h2] eqn:E2.
  destruct (alloc (spcs fr) h2) as [r3 h3] eqn:E3.
  destruct (alloc (Int <$> tps fr) h3) as [r4 h4] eqn:E4.
  destruct (alloc (Int <$> tns fr) h4) as [r5 h5] eqn:E5.
  destruct (alloc (Int <$> fps fr) h5) as [r6 h6] eqn:E6.
  destruct (alloc (Int <$> fns fr) h6) as [r7 h7] eqn:E7.
  destruct (alloc (Int <$> raw fr) h7) as [r8 h8] eqn:E8.
  pose proof (alloc_spec (fprs fr) h) as [F1 A1]. rewrite E1 in F1, A1.
  pose proof (alloc_spec (tprs fr) h1) as [F2 A2]. rewrite E2 in F2, A2.
  pose proof (alloc_spec (spcs fr) h2) as [F3 A3]. rewrite E3 in F3, A3.
  pose proof (alloc_spec (Int <$> tps fr) h3) as [F4 A4]. rewrite E4 in F4, A4.
  pose proof (alloc_spec (Int <$> tns fr) h4) as [F5 A5]. rewrite E5 in F5, A5.
  pose proof (alloc_spec (Int <$> fps fr) h5) as [F6 A6]. rewrite E6 in F6, A6.
  pose proof (alloc_spec (Int <$> fns fr) h6) as [F7 A7]. rewrite E7 in F7, A7.
  pose proof (alloc_spec (Int <$> raw fr) h7) as [F8 A8]. rewrite E8 in F8, A8.
  simpl in *.
  assert (h ⊆ h1) as S1 by (rewrite A1; by apply insert_subseteq).
  assert (h1 ⊆ h2) as S2 by (rewrite A2; by apply insert_subseteq).
  assert (h2 ⊆ h3) as S3 by (rewrite A3; by apply insert_subseteq).
  assert (h3 ⊆ h8) as S8.
  { trans h4; [rewrite A4; by apply insert_subseteq|].
    trans h5; [rewrite A5; by apply insert_subseteq|].
    trans h6; [rewrite A6; by apply insert_subseteq|].
    trans h7; [rewrite A7; by apply insert_subseteq|].
    rewrite A8; by apply insert_subseteq. }
  assert (h1 !! r1 = Some (fprs fr)) as L1 by (by rewrite A1, lookup_insert_eq).
  assert (h2 !! r2 = Some (tprs fr)) as L2 by (by rewrite A2, lookup_insert_eq).
  assert (h3 !! r3 = Some (spcs fr)) as L3 by (by rewrite A3, lookup_insert_eq).
  assert (h2 !! r1 = Some (fprs fr)) as L12 by (by eapply lookup_weaken).
  assert (h ⊆ h2) as S02 by (by trans h1).
  exists r1, r2, r3. split_and!; try done; try congruence.
  - destruct (h !! r2) eqn:E; [|done].
    eapply lookup_weaken in E; [|exact S1]. congruence.
  - destruct (h !! r3) eqn:E; [|done].
    eapply lookup_weaken in E; [|exact S02]. congruence.
  - by eapply lookup_weaken.
  - trans h2; [done|]. by trans h3.
Qed.

(** The spcs list of every scheme is a list object of the store that is
    the fprs or tprs list of no scheme. *)
Lemma store_frequencies_spcs (frequencies : gmap string SchemeFrequencies) h0
    scheme fr :
  frequencies !! scheme = Some fr →
  ∃ d z, (store_frequencies frequencies h0).1 !! scheme = Some d ∧
    d !! "spcs" = Some z ∧
    (store_frequencies frequencies h0).2 !! z = Some (spcs fr) ∧
    ¬ used_by (store_frequencies frequencies h0).1 z.
Proof.
  revert scheme fr. unfold store_frequencies.
  pose (P := λ (acc : gmap string (gmap string loc) * heap)
               (m : gmap string SchemeFrequencies),
          (∀ scheme, m !! scheme = None → acc.1 !! scheme = None) ∧
          (∀ r, used_by acc.1 r → is_Some (acc.2 !! r)) ∧
          (∀ scheme fr, m !! scheme = Some fr →
             ∃ d z, acc.1 !! scheme = Some d ∧ d !! "spcs" = Some z ∧
               acc.2 !! z = Some (spcs fr) ∧ ¬ used_by acc.1 z)).
  cut (P (map_fold
            (λ scoringScheme fr '(m, h),
               let '(d, h) := store_scheme fr h in
               (<[scoringScheme := d]> m, h))
            (∅, h0) frequencies) frequencies).
  { by intros (_ & _ & H). }
  apply (map_fold_weak_ind P); unfold P; clear P.
  { simpl. split; [done|]. split.
    - intros r (scheme & d & k & Hs & _). by rewrite lookup_empty in Hs.
    - intros scheme fr Hs. by rewrite lookup_empty in Hs. }
  intros i fr m [refs h] Hi (Hnone & Hused & Hspcs).
  simpl in Hnone, Hused, Hspcs.
  destruct (store_scheme_fields fr h)
    as (x & y & z & Hx & Hy & Hz & Hzx & Hzy & Hfx & Hfy & Hfz & Hzs & Hsub).
  destruct (store_scheme_spec fr h)
    as (x' & y' & Hx' & Hy' & _ & _ & _ & Hxs & Hys & _).
  destruct (store_scheme fr h) as [d h'] eqn:Hstore. simpl in *.
  assert (x' = x) as -> by congruence. assert (y' = y) as -> by congruence.
  assert (refs !! i = None) as Hri by (by apply Hnone).
  assert (∀ r, used_by (<[i := d]> refs) r →
               r = x ∨ r = y ∨ used_by refs r) as Hnew.
  { intros r (scheme & d' & k & Hs & Hk & Hr).
    destruct (decide (scheme = i)) as [->|Hne].
    - rewrite lookup_insert_eq in Hs. assert (d' = d) as -> by congruence.
      destruct (rate_key_lookup d k r x y Hx Hy Hk Hr) as [[_ ->]|[_ ->]]; auto.
    - rewrite lookup_insert_ne in Hs by done. right; right.
      by exists scheme, d', k. }
  split; [|split].
  - intros scheme Hs. apply lookup_insert_None in Hs as [Hs Hne].
    rewrite lookup_insert_ne by done. by apply Hnone.
  - intros r [->|[->|Hr]]%Hnew; [by eexists..|].
    destruct (Hused r Hr) as [v Hv]. exists v. by eapply lookup_weaken.
  - intros scheme fr' Hs. destruct (decide (scheme = i)) as [->|Hne].
    + rewrite lookup_insert_eq in Hs. assert (fr' = fr) as -> by congruence.
      exists d, z. rewrite lookup_insert_eq. split_and!; try done.
      intros [->|[->|Hr]]%Hnew; [done..|].
      destruct (Hused z Hr) as [v Hv]. congruence.
    + rewrite lookup_insert_ne in Hs by done.
      destruct (Hspcs _ _ Hs) as (d' & z' & Hd' & Hz' & Hzs' & Hnu).
      exists d', z'. rewrite lookup_insert_ne by done. split_and!; try done.
      * by eapply lookup_weaken.
      * intros [->|[->|Hr]]%Hnew; [congruence..|done].
Qed.

End youden_store.


Section youden_pipeline.

Import rocAnalysis.
Implicit Types (h : heap) (d : gmap string loc).

Lemma rates_values (fp tn : Z) (fpr spc : num) :
  rates fp tn = Ok (fpr, spc) → float_or_zero fpr ∧ float_or_zero spc.
Proof.
  unfold rates, try_except.
  destruct (_ ≫= _) as [[a b]|e] eqn:E.
  - intros [= -> ->].
    apply bind_Ok in E as (? & _ & (? & _ & (? & _ & E)%bind_Ok)%bind_Ok).
    apply bind_Ok in E as (? & _ & (? & _ & (? & _ & E)%bind_Ok)%bind_Ok).
    simplify_eq. by split; left.
  - destruct (decide (e = ZeroDivisionError)); [|done].
    intros [= <- <-]. by split; right.
Qed.

Lemma row_values res i fpr tpr spc :
  row res i = Ok (fpr, tpr, spc) →
  float_or_zero fpr ∧ is_float tpr = true ∧ float_or_zero spc.
Proof.
  unfold row. intros (t & _ & ([a b] & Hr & [= <- <- <-])%bind_Ok)%bind_Ok.
  apply rates_values in Hr as [? ?]. done.
Qed.

(** The rate lists calculateFrequencies returns: 22 numbers each, the tprs
    floats, the fprs and the spcs floats or the integer 0. *)
Lemma calculateFrequencies_rates hitDict frequencies scheme fr :
  calculateFrequencies hitDict = Ok frequencies →
  frequencies !! scheme = Some fr →
  (length (fprs fr) = 22 ∧ length (tprs fr) = 22 ∧ length (spcs fr) = 22)%nat ∧
  Forall float_or_zero (fprs fr) ∧
  Forall (λ n, is_float n = true) (tprs fr) ∧
  Forall float_or_zero (spcs fr).
Proof.
  intros Hcalc Hfr.
  split; [by eapply calculateFrequencies_lengths|].
  apply (calculateFrequencies_Ok _ _ _ _ Hcalc) in Hfr
    as (counts & res & _ & _ & Hfr).
  apply scheme_frequencies_Ok in Hfr
    as (_ & _ & _ & _ & _ & rows & Hrows & -> & -> & ->).
  assert (Forall (λ r : num * num * num,
                    float_or_zero r.1.1 ∧ is_float r.1.2 = true ∧
                    float_or_zero r.2) rows) as Hall.
  { apply Forall_forall. intros [[fpr tpr] spc] Hr.
    apply list_elem_of_lookup_1 in Hr as [i Hi].
    destruct (Forall2_lookup_r _ _ _ _ _ Hrows Hi) as (j & _ & Hj).
    by apply row_values in Hj. }
  split_and!; apply Forall_fmap; eapply Forall_impl; try exact Hall;
    intros [[? ?] ?] (? & ? & ?); done.
Qed.

Lemma youden_at_total x y i :
  Forall float_or_zero x → Forall (λ n, is_float n = true) y →
  (i < length x)%nat → (i < length y)%nat →
  ∃ v, youden_at x y i = Ok v.
Proof.
  intros Hx Hy [xi Hxi]%lookup_lt_is_Some [yi Hyi]%lookup_lt_is_Some.
  unfold youden_at, getitem. rewrite Hxi, Hyi. simpl.
  eapply Forall_lookup_1 in Hx; [|done].
  eapply Forall_lookup_1 in Hy; [|done]. simpl in Hy.
  destruct yi as [|yi]; [done|].
  destruct Hx as [Hf | ->]; [destruct xi as [|xi]; [done|]|];
    cbn [num_add num_sub coerce mbind result_bind];
    change (py_float 1) with (Ok (float_of_Z 1) : result float);
    change (py_float 0) with (Ok (float_of_Z 0) : result float);
    cbn [mbind result_bind]; eauto.
Qed.

Lemma fold_best_elem (better : num → num → bool) (v : num) (l : list num) :
  fold_best better v l ∈ v :: l.
Proof.
  revert v. induction l as [|a l IH]; intros v; [by left|].
  unfold fold_best. simpl. fold (fold_best better (if better a v then a else v) l).
  destruct (better a v).
  - right. apply IH.
  - specialize (IH v). apply elem_of_cons in IH as [->|?]; [by left|].
    by right; right.
Qed.

Lemma youden_of_total x y fprs :
  Forall float_or_zero x → Forall (λ n, is_float n = true) y →
  x ≠ [] → (length x ≤ length y)%nat → (length x ≤ length fprs)%nat →
  ∃ element cutoff,
    youden_of x y fprs = Ok (element, cutoff) ∧ (cutoff < length x)%nat.
Proof.
  intros Hx Hy Hne Hly Hlf. unfold youden_of.
  destruct (for_each (youden_step x y) [] (seq 0 (length x)))
    as [youdens|e] eqn:Hloop.
  2:{ exfalso.
      destruct (for_each_total (λ _, True) (youden_step x y)
                  (seq 0 (length x)) []) as (s & Hs & _); [|done|congruence].
      intros s i _ [_ Hi]%elem_of_seq.
      destruct (youden_at_total x y i) as [v Hv]; try done; try lia.
      exists (s ++ [v]). split; [|done].
      unfold youden_step. unfold youden_at in Hv.
      destruct (getitem x i) as [xi|]; simpl in *; [|done].
      destruct (getitem y i) as [yi|]; simpl in *; [|done].
      destruct (num_add xi yi); simpl in *; [|done]. by rewrite Hv. }
  simpl.
  rewrite (for_each_ext _ (λ acc i, v ← youden_at x y i; Ok (acc ++ [v])))
    in Hloop.
  2:{ intros acc i. unfold youden_step, youden_at.
      destruct (getitem x i) as [xi|]; simpl; [|done].
      destruct (getitem y i) as [yi|]; simpl; [|done].
      by destruct (num_add xi yi). }
  apply score_loop in Hloop as (vs & -> & Hvs). simpl.
  apply scores_lookup in Hvs as [Hlen Hvs].
  destruct vs as [|v0 vs]; [by destruct x|].
  cbn [list_max mbind result_bind].
  destruct (list_index_total (fold_best num_gt v0 vs) (v0 :: vs))
    as [c Hc]; [apply fold_best_elem|].
  unfold fold_best in Hc. rewrite Hc. cbn [mbind result_bind].
  apply list_index_spec in Hc as (a & Ha & _).
  apply lookup_lt_Some in Ha. rewrite Hlen in Ha.
  destruct (lookup_lt_is_Some_2 y c) as [tpr Htpr]; [lia|].
  destruct (lookup_lt_is_Some_2 fprs c) as [fpr Hfpr]; [lia|].
  unfold getitem. rewrite Htpr, Hfpr. simpl. eauto.
Qed.

Lemma collect_loop_total {A B C} (g : C → result (A * B))
    (items : list (string * C)) (P : A * B → Prop) :
  Forall (λ it, ∃ e, g it.2 = Ok e ∧ P e) items →
  ∃ es, foldl (λ acc '(k, a), collect_step g k a acc) (Ok ([], [])) items
          = Ok (es.*1, es.*2) ∧
        Forall2 (λ it e, g it.2 = Ok e) items es ∧ Forall P es.
Proof.
  induction items as [|[k d] items IH] using rev_ind; intros Hall.
  - exists []. by repeat constructor.
  - apply Forall_app in Hall as [Hitems [([e c] & He & HP) _]%Forall_cons].
    destruct (IH Hitems) as (es & Hes & Hf & HPs).
    exists (es ++ [(e, c)]). rewrite foldl_app, Hes. simpl in *.
    rewrite He. simpl. rewrite !fmap_app. split; [done|]. split.
    + apply Forall2_app; [done|]. by constructor.
    + apply Forall_app. split; [done|]. by constructor.
Qed.

Lemma store_frequencies_dom (frequencies : gmap string SchemeFrequencies) h0
    scheme :
  is_Some ((store_frequencies frequencies h0).1 !! scheme) ↔
  is_Some (frequencies !! scheme).
Proof.
  destruct (store_frequencies_spec frequencies h0) as (_ & Hnone & Hlists).
  destruct (frequencies !! scheme) as [fr|] eqn:Hfr.
  - apply Hlists in Hfr. unfold rate_lists in Hfr.
    destruct (_ !! scheme); [|done]. split; eauto.
  - apply Hnone in Hfr. rewrite Hfr. done.
Qed.

Lemma store_frequencies_size (frequencies : gmap string SchemeFrequencies) h0 :
  size (store_frequencies frequencies h0).1 = size frequencies.
Proof.
  rewrite <-!size_dom. f_equal. apply set_eq. intros scheme.
  rewrite !elem_of_dom. apply store_frequencies_dom.
Qed.

(** The lists youdenIndex reads for a scheme in a store. *)
Lemma store_frequencies_fields (frequencies : gmap string SchemeFrequencies)
    h0 scheme fr d :
  frequencies !! scheme = Some fr →
  (store_frequencies frequencies h0).1 !! scheme = Some d →
  ∃ x y z,
    d !! "fprs" = Some x ∧ d !! "tprs" = Some y ∧ d !! "spcs" = Some z ∧
    (store_frequencies frequencies h0).2 !! x = Some (fprs fr) ∧
    (store_frequencies frequencies h0).2 !! y = Some (tprs fr) ∧
    (store_frequencies frequencies h0).2 !! z = Some (spcs fr) ∧
    ¬ used_by (store_frequencies frequencies h0).1 z.
Proof.
  intros Hfr Hd.
  destruct (store_frequencies_spec frequencies h0) as (_ & _ & Hlists).
  apply Hlists in Hfr as Hl.
  apply rate_lists_Some in Hl as (d' & x & y & Hd' & Hx & Hy & Hxs & Hys).
  destruct (store_frequencies_spcs frequencies h0 _ _ Hfr)
    as (d'' & z & Hd'' & Hz & Hzs & Hnu).
  assert (d' = d) as -> by congruence. assert (d'' = d) as -> by congruence.
  by exists x, y, z.
Qed.

End youden_pipeline.


Section youden_theorems.

Import rocAnalysis.
Implicit Types (h : heap) (d : gmap string loc).

Lemma youdenIndex_lists (refs : gmap string (gmap string loc)) h
    (lists : string → option (list num * list num * list num)) :
  (∀ scheme d, refs !! scheme = Some d →
     ∃ x y fprs, lists scheme = Some (x, y, fprs) ∧
       field d "spcs" h = Ok x ∧ field d "tprs" h = Ok y ∧
       field d "fprs" h = Ok fprs ∧
       Forall float_or_zero x ∧ Forall (λ n, is_float n = true) y ∧
       x ≠ [] ∧ (length x ≤ length y)%nat ∧ (length x ≤ length fprs)%nat) →
  ∃ r, youdenIndex refs h = Ok r ∧ youden_results refs lists r.
Proof.
  intros Hrefs. unfold youdenIndex. rewrite map_fold_iteritems.
  destruct (iteritems_spec refs) as (_ & Hlen & Hin).
  destruct (collect_loop_total (λ d, youden_scheme d h) (iteritems refs)
              (λ _, True)) as (es & Hfold & Hes & _).
  { apply Forall_forall. intros [scheme d] Hd%Hin.
    destruct (Hrefs _ _ Hd)
      as (x & y & fprs & _ & Hx & Hy & Hf & Hfx & Hfy & Hne & Hly & Hlf).
    destruct (youden_of_total x y fprs) as (e & c & He & _); try done.
    exists (e, c). split; [|done]. simpl.
    by rewrite (youden_scheme_of d h x y fprs). }
  exists (es.*1, es.*2). split; [exact Hfold|].
  pose proof (Forall2_length _ _ _ Hes) as Hlen'.
  unfold youden_results. simpl. rewrite !length_fmap.
  split; [congruence|]. split; [congruence|].
  intros k scheme d Hk.
  destruct (Forall2_lookup_l _ _ _ _ _ Hes Hk) as ([e c] & He & Hs).
  simpl in Hs.
  assert (refs !! scheme = Some d) as Hd.
  { apply Hin. by eapply list_elem_of_lookup_2. }
  destruct (Hrefs _ _ Hd)
    as (x & y & fprs & Hl & Hx & Hy & Hf & Hfx & Hfy & Hne & Hly & Hlf).
  rewrite (youden_scheme_of d h x y fprs) in Hs by done.
  destruct (youden_of_total x y fprs) as (e' & c' & He' & Hc'); try done.
  exists x, y, fprs, e, c. rewrite !list_lookup_fmap, He.
  split_and!; try done. congruence.
Qed.

(** X9: on a dictionary that calculateFrequencies returned, youdenIndex
    returns one pair of coordinates and one cutoff for each scheme, and
    every cutoff is an index of the 22 levels. *)
Theorem youdenIndex_of_calculateFrequencies hitDict frequencies :
  calculateFrequencies hitDict = Ok frequencies →
  ∃ r, youdenIndex (store_frequencies frequencies ∅).1
                   (store_frequencies frequencies ∅).2 = Ok r ∧
       youden_results (store_frequencies frequencies ∅).1
                      (lists_of frequencies) r ∧
       length r.1 = size frequencies ∧ length r.2 = size frequencies ∧
       Forall (λ cutoff, (cutoff < 22)%nat) r.2.
Proof.
  intros Hcalc.
  destruct (youdenIndex_lists (store_frequencies frequencies ∅).1
              (store_frequencies frequencies ∅).2 (lists_of frequencies))
    as (r & Hr & Hres).
  { intros scheme d Hd.
    destruct (proj1 (store_frequencies_dom frequencies ∅ scheme)) as [fr Hfr];
      [by eexists|].
    destruct (store_frequencies_fields _ _ _ _ _ Hfr Hd)
      as (x & y & z & Hx & Hy & Hz & Hxs & Hys & Hzs & _).
    destruct (calculateFrequencies_rates _ _ _ _ Hcalc Hfr)
      as ((Hl1 & Hl2 & Hl3) & _ & Hft & Hfs).
    exists (spcs fr), (tprs fr), (fprs fr). unfold lists_of. rewrite Hfr.
    split_and!; try done; try (by eapply field_Ok); try lia.
    intros Hnil. by rewrite Hnil in Hl3. }
  exists r. split; [done|]. split; [done|].
  pose proof Hres as (Hlc & Hlk & Hitems).
  rewrite store_frequencies_size in Hlc, Hlk. split; [done|]. split; [done|].
  apply Forall_lookup_2. intros k c Hc.
  assert (k < length (iteritems (store_frequencies frequencies ∅).1))%nat
    as [[scheme d] Hk]%lookup_lt_is_Some.
  { destruct (iteritems_spec (store_frequencies frequencies ∅).1)
      as (_ & -> & _).
    rewrite store_frequencies_size, <-Hlk. by eapply lookup_lt_Some. }
  destruct (Hitems _ _ _ Hk) as (x & y & fprs & e & c' & Hl & _ & Hc' & Hlt & _).
  unfold lists_of in Hl. destruct (frequencies !! scheme) as [fr|] eqn:Hfr;
    [|done]. simpl in Hl. simplify_eq.
  destruct (calculateFrequencies_lengths _ _ _ _ Hcalc Hfr) as (_ & _ & Hl3).
  lia.
Qed.

(** X10: youdenIndex after areaUnderCurve. areaUnderCurve leaves the tprs and
    fprs lists of its caller closed by 1.0 and 0.0 and the spcs lists as
    they were, so a later youdenIndex on the same dictionary pairs spcs[i]
    with the tpr of the level before and reads its coordinates from the
    closed curves. For the perfectly separating scheme the point it returns
    moves from (tpr, fpr) = (1.0, 0.0) to (1.0, 1.0). *)
Theorem youdenIndex_after_areaUnderCurve hitDict frequencies integrated h' :
  calculateFrequencies hitDict = Ok frequencies →
  areaUnderCurve (store_frequencies frequencies ∅).1
                 (store_frequencies frequencies ∅).2 = Ok (integrated, h') →
  (∃ r, youdenIndex (store_frequencies frequencies ∅).1 h' = Ok r ∧
        youden_results (store_frequencies frequencies ∅).1
                       (closed_lists_of frequencies) r) ∧
  youden_of (spcs perfect_scheme) (tprs perfect_scheme) (fprs perfect_scheme)
    = Ok ((Float (float_of_Z 1), Float (S754_zero false)), 0%nat) ∧
  youden_of (spcs perfect_scheme) (closed_curve (tprs perfect_scheme))
            (closed_curve (fprs perfect_scheme))
    = Ok ((Float (float_of_Z 1), Float (float_of_Z 1)), 0%nat).
Proof.
  intros Hcalc Harea. split; [|by vm_compute].
  destruct (store_frequencies_spec frequencies ∅) as (Hsep & _ & Hlists).
  pose proof (areaUnderCurve_post _ _ Hsep) as Hpost.
  rewrite Harea in Hpost. destruct Hpost as (_ & Hschemes & Hframe).
  apply youdenIndex_lists.
  intros scheme d Hd.
  destruct (proj1 (store_frequencies_dom frequencies ∅ scheme)) as [fr Hfr];
    [by eexists|].
  destruct (store_frequencies_fields _ _ _ _ _ Hfr Hd)
    as (x & y & z & Hx & Hy & Hz & Hxs & Hys & Hzs & Hnu).
  destruct (calculateFrequencies_rates _ _ _ _ Hcalc Hfr)
    as ((Hl1 & Hl2 & Hl3) & _ & Hft & Hfs).
  destruct (Hschemes scheme _ _ (Hlists _ _ Hfr)) as [_ Hl].
  apply rate_lists_Some in Hl as (d' & x' & y' & Hd' & Hx' & Hy' & Hxs' & Hys').
  assert (d' = d) as -> by congruence.
  exists (spcs fr), (closed_curve (tprs fr)), (closed_curve (fprs fr)).
  unfold closed_lists_of. rewrite Hfr.
  split_and!; try done; try (by eapply field_Ok).
  - eapply field_Ok; [done|]. by rewrite Hframe.
  - unfold closed_curve. constructor; [done|].
    apply Forall_app. split; [done|]. by constructor.
  - intros Hnil. by rewrite Hnil in Hl3.
  - unfold closed_curve. simpl. rewrite length_app. lia.
  - unfold closed_curve. simpl. rewrite length_app. lia.
Qed.

End youden_theorems.


Section f1_properties.

Import rocAnalysis.

Variable float_pow2 : float → result float.

Implicit Types (frequencies : gmap string (gmap string loc)) (h : heap).
Implicit Types (d : gmap string loc) (x y : list num).

Lemma f1_at_float x y i v :
  Forall (λ n, is_float n = true) y → f1_at float_pow2 x y i = Ok v →
  is_float v = true.
Proof.
  intros Hy (xi & _ & (dx & _ & (px & _ & H)%bind_Ok)%bind_Ok)%bind_Ok.
  apply bind_Ok in H as (yi & Hyi & (dy & Hdy & (py & Hpy & Hv)%bind_Ok)%bind_Ok).
  unfold getitem in Hyi. destruct (y !! i) as [yi'|] eqn:Hi; [|done].
  simplify_eq. eapply Forall_lookup_1 in Hy; [|done].
  destruct yi as [|yi]; [done|].
  cbn [num_sub coerce] in Hdy.
  apply bind_Ok in Hdy as (? & _ & Hdy). cbn [mbind result_bind] in Hdy.
  simplify_eq. cbn [num_pow2] in Hpy.
  apply bind_Ok in Hpy as (p & _ & [= <-]).
  destruct px as [z|f]; cbn [num_add coerce] in Hv.
  - apply bind_Ok in Hv as (? & _ & Hv). cbn [mbind result_bind] in Hv.
    by simplify_eq.
  - cbn [mbind result_bind] in Hv. by simplify_eq.
Qed.

Lemma f1_at_lt x y i v : f1_at float_pow2 x y i = Ok v → (i < length x)%nat.
Proof.
  intros (xi & Hxi & _)%bind_Ok. unfold getitem in Hxi.
  destruct (x !! i) eqn:Hi; [|done]. by eapply lookup_lt_Some.
Qed.

Lemma f1_scheme_Ok d h tpr fpr cutoff :
  f1_scheme float_pow2 d h = Ok ((tpr, fpr), cutoff) →
  ∃ x y fprs f1s m,
    field d "spcs" h = Ok x ∧ field d "tprs" h = Ok y ∧
    field d "fprs" h = Ok fprs ∧
    Forall2 (λ i v, f1_at float_pow2 x y i = Ok v) (seq 0 (length x)) f1s ∧
    list_min f1s = Ok m ∧ list_index m f1s = Ok cutoff ∧
    y !! cutoff = Some tpr ∧ fprs !! cutoff = Some fpr.
Proof.
  unfold f1_scheme.
  intros (x & Hx & (y & Hy & (f1s & Hloop & H)%bind_Ok)%bind_Ok)%bind_Ok.
  apply bind_Ok in H as (m & Hm & (c & Hc & H)%bind_Ok).
  rewrite Hc in H. simpl in H.
  apply bind_Ok in H as (tpr' & Htpr & (fprs & Hf & H)%bind_Ok).
  apply bind_Ok in H as (fpr' & Hfpr & [= <- <- <-]).
  exists x, y, fprs, f1s, m. repeat split; try done.
  - rewrite (for_each_ext _
               (λ acc i, v ← f1_at float_pow2 x y i; Ok (acc ++ [v])))
      in Hloop.
    + apply score_loop in Hloop as (vs & -> & Hvs). done.
    + intros acc i. unfold f1_step, f1_at.
      repeat match goal with
             | |- (?c ≫= _) = _ =>
                 destruct c; cbn [mbind result_bind]; [|done]
             end.
      done.
  - unfold getitem in Htpr. by destruct (y !! c) eqn:E; simplify_eq.
  - unfold getitem in Hfpr. by destruct (fprs !! c) eqn:E; simplify_eq.
Qed.

(** X11: f1Index returns one pair of coordinates and one cutoff for each
    scheme, in the order in which a loop visits the dictionary. The cutoff
    of a scheme is an index of its spcs list, and the pair is the tpr and
    the fpr at that index. Where the tprs list holds floats,
    (1 - spcs[i])**2 + (1 - tprs[i])**2 is nowhere smaller than at the
    cutoff and is greater (or a NaN) at every index before it. *)
Theorem f1Index_first_minimum frequencies h f1Coords cutoffs :
  f1Index float_pow2 frequencies h = Ok (f1Coords, cutoffs) →
  length f1Coords = size frequencies ∧
  length cutoffs = size frequencies ∧
  ∀ k scheme d, iteritems frequencies !! k = Some (scheme, d) →
    ∃ x y fprs cutoff tpr fpr best,
      field d "spcs" h = Ok x ∧ field d "tprs" h = Ok y ∧
      field d "fprs" h = Ok fprs ∧
      cutoffs !! k = Some cutoff ∧ f1Coords !! k = Some (tpr, fpr) ∧
      (cutoff < length x)%nat ∧
      y !! cutoff = Some tpr ∧ fprs !! cutoff = Some fpr ∧
      f1_at float_pow2 x y cutoff = Ok best ∧
      (Forall (λ n, is_float n = true) y →
       ∀ i v, f1_at float_pow2 x y i = Ok v →
         num_lt v best = false ∧
         ((i < cutoff)%nat → num_gt v best = true ∨ is_nan v = true)).
Proof.
  unfold f1Index. rewrite map_fold_iteritems.
  intros (es & Hes & -> & ->)%(collect_loop (λ d, f1_scheme float_pow2 d h)).
  pose proof (Forall2_length _ _ _ Hes) as Hlen.
  unfold iteritems in Hlen. rewrite length_reverse, length_map_to_list in Hlen.
  rewrite !length_fmap. split; [done|]. split; [done|].
  intros k scheme d Hk.
  destruct (Forall2_lookup_l _ _ _ _ _ Hes Hk) as ([[tpr fpr] cutoff] & He & Hs).
  simpl in Hs.
  apply f1_scheme_Ok in Hs
    as (x & y & fprs & f1s & m & Hx & Hy & Hf & Hvs & Hm & Hc & Ht & Hfp).
  apply scores_lookup in Hvs as [Hlen' Hvs].
  exists x, y, fprs, cutoff, tpr, fpr.
  destruct f1s as [|v0 f1s']; [done|].
  injection Hm as <-.
  destruct (list_index_spec _ _ _ Hc) as (best & Hbest & _).
  exists best. rewrite !list_lookup_fmap, He. simpl.
  apply Hvs in Hbest as Hbest'. destruct Hbest' as [Hlt Hat].
  split_and!; try done.
  intros Hfl i v Hv.
  assert ((v0 :: f1s') !! i = Some v) as Hi.
  { apply Hvs. split; [by eapply f1_at_lt | done]. }
  assert (Forall (λ n, is_float n = true) (v0 :: f1s')) as Hfloats.
  { apply Forall_lookup_2. intros j w [_ Hw]%Hvs. by eapply f1_at_float. }
  destruct (select_best num_lt num_lt_trans num_lt_irrefl num_lt_nan
              num_lt_same v0 f1s' cutoff Hfloats Hc)
    as (a & Ha & Hnone & Hfirst).
  assert (a = best) as -> by congruence.
  assert (num_lt v best = false) as Hnlt.
  { apply Hnone. by eapply list_elem_of_lookup_2. }
  split; [done|].
  intros Hlt'. destruct (is_nan v) eqn:Hnv; [by right | left].
  destruct (Hfirst i v Hlt' Hi Hnv) as [Hne Hnb].
  eapply Forall_lookup_1 in Hi as Hfv; [|done].
  eapply Forall_lookup_1 in Ha as Hfb; [|done]. simpl in Hfv, Hfb.
  destruct v as [|v]; [done|]. destruct best as [|best]; [done|].
  destruct (num_trichotomy v best Hnv Hnb) as [?|[?|?]]; congruence.
Qed.

End f1_properties.


Section countHits_more.

Import rocAnalysis.

Variable _records : string → list BlastRecord.

Implicit Types (readsPerLevel : gmap string Z) (record : BlastRecord).

(** The exceptions of a round of the loop. *)
Lemma count_record_error cutoff readsPerLevel record e :
  count_record cutoff readsPerLevel record = Raise e ↔
  (e = IndexError ∧ (record_level record = None ∨ no_first_hsp record)) ∨
  (e = KeyError ∧ is_hit cutoff record = true ∧
   ∃ level, record_level record = Some level ∧ readsPerLevel !! level = None).
Proof.
  unfold count_record, record_level, no_first_hsp, is_hit, getitem, getkey.
  destruct (split "|" (query record) !! 2%nat) as [level|]; simpl.
  2:{ split; [intros [= <-]; left; split; [done | by left]|].
      intros [[-> _] | (_ & _ & level & [=] & _)]. done. }
  destruct (alignments record) as [|alignment rest]; simpl.
  { split; [done|].
    intros [[_ [[=] | (a & r & [=] & _)]] | (_ & [=] & _)]. }
  destruct (hsps alignment) as [|hsp hsps'] eqn:Hhsps; simpl.
  { split; [intros [= <-]; left; split; [done|]; right; by exists alignment, rest|].
    intros [[-> _] | (_ & [=] & _)]. done. }
  destruct (num_gt (bits hsp) cutoff); simpl.
  - destruct (readsPerLevel !! level) as [n|] eqn:Hn; simpl.
    + split; [done|].
      intros [[_ [[=] | (a & r & [= <- <-] & Ha)]] | (_ & _ & l & [= <-] & Hl)];
        congruence.
    + split; [intros [= <-]; right; split; [done|]; split; [done|]; by exists level|].
      intros [[_ [[=] | (a & r & [= <- <-] & Ha)]] | (-> & _)]; [congruence|done].
  - split; [done|].
    intros [[_ [[=] | (a & r & [= <- <-] & Ha)]] | (_ & [=] & _)]. congruence.
Qed.

(** X2: the exceptions of a round of the loop of countHits. IndexError: the
    query has fewer than three fields, or the first alignment has no pair.
    KeyError: the record is counted and its level is not a key of the
    table. A record of an unknown level that is not counted passes
    unnoticed. *)
Theorem count_record_raises cutoff readsPerLevel record e :
  count_record cutoff readsPerLevel record = Raise e ↔
  (e = IndexError ∧ (record_level record = None ∨ no_first_hsp record)) ∨
  (e = KeyError ∧ is_hit cutoff record = true ∧
   ∃ level, record_level record = Some level ∧ readsPerLevel !! level = None).
Proof. apply count_record_error. Qed.

(** What a round that returns does to the count of a level. *)
Lemma count_record_lookup cutoff readsPerLevel record t level :
  count_record cutoff readsPerLevel record = Ok t →
  t !! level =
  (λ n, n + Z.of_nat (length (filter (λ record, record_level record = Some level ∧
                                                is_hit cutoff record = true)
                                     [record]))) <$> readsPerLevel !! level.
Proof.
  unfold count_record, record_level, is_hit, getitem, getkey.
  rewrite filter_cons, filter_nil. unfold record_level, is_hit.
  destruct (split "|" (query record) !! 2%nat) as [level'|]; simpl; [|done].
  assert (∀ m : gmap string Z, m !! level = (λ n, n + 0) <$> m !! level)
    as Hsame.
  { intros m. destruct (m !! level); simpl; [f_equal; lia | done]. }
  destruct (alignments record) as [|alignment rest]; simpl.
  { intros [= <-]. rewrite decide_False by (by intros [_ ?]). simpl. apply Hsame. }
  destruct (hsps alignment) as [|hsp hsps']; simpl; [done|].
  destruct (num_gt (bits hsp) cutoff); simpl.
  - destruct (readsPerLevel !! level') as [n|] eqn:Hn; simpl; [|done].
    intros [= <-]. destruct (decide (level' = level)) as [->|Hne].
    + rewrite decide_True by done. by rewrite lookup_insert_eq, Hn.
    + rewrite decide_False by (intros [[=] _]; done).
      rewrite lookup_insert_ne by done. simpl. apply Hsame.
  - intros [= <-]. rewrite decide_False by (by intros [_ ?]). simpl. apply Hsame.
Qed.

Lemma count_loop_lookup cutoff readsPerLevel records t level :
  for_each (count_record cutoff) readsPerLevel records = Ok t →
  t !! level = (λ n, n + hits_of cutoff level records) <$> readsPerLevel !! level.
Proof.
  revert readsPerLevel. induction records as [|record records IH];
    intros readsPerLevel; simpl.
  - intros [= <-]. unfold hits_of. simpl.
    destruct (readsPerLevel !! level); simpl; [f_equal; lia | done].
  - intros (t1 & H1 & Hloop)%bind_Ok.
    rewrite (IH _ Hloop), (count_record_lookup _ _ _ _ level H1).
    destruct (readsPerLevel !! level) as [n|]; simpl; [|done]. f_equal.
    unfold hits_of. rewrite (filter_cons _ record records), !filter_cons.
    rewrite filter_nil. destruct (decide _); simpl length; lia.
Qed.

(** X1: when countHits returns, the count of each of the 22 levels is the
    number of records of that level that have a first alignment whose first
    pair scores above the cutoff. *)
Theorem countHits_counts blastFile cutoff title readsPerLevel level :
  countHits _records blastFile cutoff = Ok (title, readsPerLevel) →
  level ∈ level_names →
  readsPerLevel !! level = Some (hits_of cutoff level (_records blastFile)).
Proof.
  intros [_ Hloop]%countHits_Ok (nr & -> & Hnr)%list_elem_of_fmap.
  rewrite (count_loop_lookup _ _ _ _ _ Hloop).
  by rewrite (readsPerLevel_init_lookup nr Hnr).
Qed.

(** Whether a round returns depends on the table only through its keys. *)
Lemma count_record_returns cutoff readsPerLevel readsPerLevel' record t :
  dom readsPerLevel = dom readsPerLevel' →
  count_record cutoff readsPerLevel record = Ok t →
  ∃ t', count_record cutoff readsPerLevel' record = Ok t'.
Proof.
  intros Hdom Ht.
  destruct (count_record cutoff readsPerLevel' record) as [t'|e] eqn:Ht';
    [by eexists|].
  exfalso. apply count_record_error in Ht'.
  assert (count_record cutoff readsPerLevel record = Raise e); [|congruence].
  apply count_record_error.
  destruct Ht' as [?|(-> & Hhit & level & Hlevel & Hnone)]; [by left | right].
  split; [done|]. split; [done|]. exists level. split; [done|].
  by rewrite <-not_elem_of_dom, Hdom, not_elem_of_dom.
Qed.

Lemma count_loop_returns cutoff records t :
  for_each (count_record cutoff) readsPerLevel_init records = Ok t →
  Forall (λ record, ∃ t', count_record cutoff readsPerLevel_init record = Ok t')
         records.
Proof.
  assert (∀ t0, dom t0 = dom readsPerLevel_init →
            for_each (count_record cutoff) t0 records = Ok t →
            Forall (λ record, ∃ t',
                      count_record cutoff readsPerLevel_init record = Ok t')
                   records) as H; [|by apply H].
  induction records as [|record records IH]; intros t0 Hdom; simpl; [done|].
  intros (t1 & H1 & Hloop)%bind_Ok. constructor.
  - by eapply count_record_returns.
  - apply (IH t1); [|done].
    apply count_record_keeps in H1 as [-> _]. done.
Qed.

(** X3: the table countHits returns does not depend on the order of the
    records: on the same records in another order it returns the same
    result. *)
Theorem countHits_order (records' : string → list BlastRecord) blastFile
    cutoff title readsPerLevel :
  _records blastFile ≡ₚ records' blastFile →
  countHits _records blastFile cutoff = Ok (title, readsPerLevel) →
  countHits records' blastFile cutoff = Ok (title, readsPerLevel).
Proof.
  intros Hperm [Htitle Hloop]%countHits_Ok. apply countHits_Ok.
  split; [done|].
  pose proof (count_loop_returns _ _ _ Hloop) as Hall. rewrite Hperm in Hall.
  destruct (for_each_total (λ t, dom t = dom readsPerLevel_init)
              (count_record cutoff) (records' blastFile) readsPerLevel_init)
    as (t & Ht & Hdom); [|done|].
  { intros t record Hdom Hrecord.
    rewrite Forall_forall in Hall. destruct (Hall _ Hrecord) as [t0 Ht0].
    destruct (count_record_returns cutoff readsPerLevel_init t record t0)
      as [t' Ht']; [done|done|].
    exists t'. split; [done|].
    apply count_record_keeps in Ht' as [-> _]. done. }
  rewrite Ht. f_equal. apply map_eq. intros level.
  rewrite (count_loop_lookup _ _ _ _ level Ht),
    (count_loop_lookup _ _ _ _ level Hloop).
  assert (hits_of cutoff level (_records blastFile)
          = hits_of cutoff level (records' blastFile)) as ->; [|done].
  unfold hits_of. by rewrite Hperm.
Qed.

End countHits_more.


Section calculateFrequencies_more.

Import rocAnalysis.

Implicit Types (res : list Z) (i : nat).

(** A loop over a dictionary that returns has run every round. *)
Lemma dict_for_complete {A B} (f : string → A → result B) (d : gmap string A)
    (m : gmap string B) k a :
  dict_for f d = Ok m → d !! k = Some a → ∃ b, f k a = Ok b.
Proof.
  unfold dict_for. revert m.
  apply (map_fold_weak_ind (λ (r : result (gmap string B)) d,
    ∀ m, r = Ok m → d !! k = Some a → ∃ b, f k a = Ok b)).
  - intros m _. by rewrite lookup_empty.
  - intros i x d' r Hi IH m.
    destruct r as [m'|e]; simpl; [|done].
    destruct (f i x) as [b|e] eqn:Hf; simpl; [|done].
    intros _. destruct (decide (k = i)) as [->|Hne].
    + rewrite lookup_insert_eq. intros [= <-]. by exists b.
    + rewrite lookup_insert_ne by done. by apply (IH m').
Qed.

(** X4: calculateFrequencies raises KeyError exactly when the table of some
    scheme lacks one of the 22 levels. *)
Theorem calculateFrequencies_KeyError hitDict :
  calculateFrequencies hitDict = Raise KeyError ↔
  ∃ scheme counts nr, hitDict !! scheme = Some counts ∧
    nr ∈ levels ∧ counts !! str nr = None.
Proof.
  unfold calculateFrequencies. split.
  - intros [Hlist | (listDict & Hlist & Hfreq)]%bind_Raise.
    + apply dict_for_error in Hlist as (scheme & counts & Hs & Hraise).
      apply mapM_Raise in Hraise as (nr & Hnr & Hkey).
      exists scheme, counts, nr. split; [done|]. split; [done|].
      unfold getkey in Hkey. by destruct (counts !! str nr).
    + apply dict_for_error in Hfreq as (scheme & res & Hres & Hraise).
      apply (dict_for_lookup _ _ _ _ _ Hlist) in Hres
        as (counts & _ & Hlen%scheme_list_length).
      by apply scheme_frequencies_error in Hraise.
  - intros (scheme & counts & nr & Hs & Hnr & Hnone).
    destruct (dict_for (λ _ counts, scheme_list counts) hitDict)
      as [listDict|e] eqn:Hlist; simpl.
    + exfalso.
      destruct (dict_for_complete _ _ _ _ _ Hlist Hs) as [res Hres].
      apply scheme_list_Ok in Hres.
      apply list_elem_of_lookup_1 in Hnr as [i Hi].
      destruct (Forall2_lookup_l _ _ _ _ _ Hres Hi) as (n & _ & Hn).
      congruence.
    + apply dict_for_error in Hlist as (scheme' & counts' & _ & Hraise).
      apply mapM_Raise in Hraise as (nr' & _ & Hkey).
      unfold getkey in Hkey. destruct (counts' !! str nr'); congruence.
Qed.

Lemma sum_le_population res (k : nat) :
  Forall (λ r, 0 ≤ r ≤ 594) res → (length res ≤ k)%nat →
  0 ≤ sum res ≤ 594 * Z.of_nat k.
Proof.
  intros Hres. revert k. induction Hres as [|r res Hr Hres IH]; intros k Hk.
  - unfold sum. simpl. lia.
  - rewrite sum_cons. simpl in Hk. specialize (IH (k - 1)%nat). lia.
Qed.

(** X5: the counts at the 22 thresholds. The raw list of a scheme holds its
    counts in the order of the levels; at every threshold the true and the
    false positives add up to the sum of the raw list; at the last one
    every hit is a true positive and no negative is left. *)
Theorem calculateFrequencies_totals hitDict frequencies scheme fr :
  calculateFrequencies hitDict = Ok frequencies →
  frequencies !! scheme = Some fr →
  (∃ counts, hitDict !! scheme = Some counts ∧
     Forall2 (λ nr n, counts !! str nr = Some n) levels (raw fr)) ∧
  (∀ i tp fp, tps fr !! i = Some tp → fps fr !! i = Some fp →
     tp + fp = sum (raw fr)) ∧
  tps fr !! 21%nat = Some (sum (raw fr)) ∧
  fps fr !! 21%nat = Some 0 ∧
  tns fr !! 21%nat = Some 0 ∧
  fns fr !! 21%nat = Some (594 * 22 - sum (raw fr)).
Proof.
  intros Hcalc Hfr.
  apply (calculateFrequencies_Ok _ _ _ _ Hcalc) in Hfr
    as (counts & res & Hcounts & Hres & Hfr).
  pose proof (scheme_list_length _ _ Hres) as Hlen.
  apply scheme_frequencies_Ok in Hfr as (-> & -> & -> & -> & -> & _).
  rewrite Hlen. split; [|split].
  - exists counts. split; [done|]. by apply scheme_list_Ok.
  - intros i tp fp. rewrite !list_lookup_fmap.
    destruct (seq 0 22 !! i); simpl; [|done].
    intros [= <-] [= <-]. apply tp_fp_sum.
  - destruct (last_round res Hlen) as [Hfp Htn].
    pose proof (tp_fp_sum res 21) as Htp.
    pose proof (tp_fn_population res 21) as Hfn.
    rewrite !list_lookup_fmap.
    assert (seq 0 22 !! 21%nat = Some 21%nat) as -> by done. simpl.
    rewrite Hfp, Htn. split_and!; f_equal; lia.
Qed.

(** X6: with at most 594 reads counted at each level, none of the four
    counts of a threshold is negative. *)
Theorem calculateFrequencies_within_population hitDict frequencies scheme fr :
  calculateFrequencies hitDict = Ok frequencies →
  frequencies !! scheme = Some fr →
  Forall (λ r, 0 ≤ r ≤ 594) (raw fr) →
  ∀ i tp fn tn fp,
    tps fr !! i = Some tp → fns fr !! i = Some fn →
    tns fr !! i = Some tn → fps fr !! i = Some fp →
    0 ≤ tp ≤ 594 * (Z.of_nat i + 1) ∧ 0 ≤ fn ∧
    0 ≤ tn ∧ 0 ≤ fp ≤ 594 * (22 - (Z.of_nat i + 1)).
Proof.
  intros Hcalc Hfr Hraw i tp fn tn fp.
  apply (calculateFrequencies_Ok _ _ _ _ Hcalc) in Hfr
    as (counts & res & Hcounts & Hres & Hfr).
  pose proof (scheme_list_length _ _ Hres) as Hlen.
  apply scheme_frequencies_Ok in Hfr as (Hr & -> & -> & -> & -> & _).
  rewrite Hr in Hraw. rewrite Hlen, !list_lookup_fmap.
  destruct (seq 0 22 !! i) as [j|] eqn:Hj; simpl; [|done].
  apply lookup_seq in Hj as [-> Hi]. simpl.
  intros [= <-] [= <-] [= <-] [= <-].
  assert (0 ≤ tp_at res i ≤ 594 * Z.of_nat (i + 1)) as Htp.
  { apply sum_le_population; [by apply Forall_take|].
    rewrite length_take. lia. }
  assert (0 ≤ fp_at res i ≤ 594 * Z.of_nat (22 - (i + 1))) as Hfp.
  { apply sum_le_population; [by apply Forall_drop|].
    rewrite length_drop. lia. }
  unfold fn_at, tn_at. lia.
Qed.

End calculateFrequencies_more.


Section areaUnderCurve_more.

Import rocAnalysis.

(** X7: areaUnderCurve on a dictionary that calculateFrequencies returned.
    It returns an area for every scheme, and it leaves the fprs and tprs
    lists of its caller with 24 elements, the 22 rates between 1.0 and
    0.0, while the spcs lists keep their 22 elements. *)
Theorem areaUnderCurve_closes_lists hitDict frequencies :
  calculateFrequencies hitDict = Ok frequencies →
  ∃ integrated h',
    areaUnderCurve (store_frequencies frequencies ∅).1
                   (store_frequencies frequencies ∅).2 = Ok (integrated, h') ∧
    (∀ scheme, is_Some (integrated !! scheme) ↔ is_Some (frequencies !! scheme)) ∧
    ∀ scheme fr d,
      frequencies !! scheme = Some fr →
      (store_frequencies frequencies ∅).1 !! scheme = Some d →
      field d "fprs" h' = Ok (closed_curve (fprs fr)) ∧
      field d "tprs" h' = Ok (closed_curve (tprs fr)) ∧
      field d "spcs" h' = Ok (spcs fr) ∧
      length (closed_curve (fprs fr)) = 24%nat ∧
      length (closed_curve (tprs fr)) = 24%nat ∧
      length (spcs fr) = 22%nat.
Proof.
  intros Hcalc.
  destruct (store_frequencies_spec frequencies ∅) as (Hsep & Hnone & Hlists).
  pose proof (areaUnderCurve_post _ _ Hsep) as Hpost.
  destruct (areaUnderCurve _ _) as [[integrated h']|e]; simpl in Hpost.
  2:{ exfalso. destruct Hpost as (scheme & xs & ys & Hl & He).
      destruct (frequencies !! scheme) as [fr|] eqn:Hfr.
      - rewrite (Hlists _ _ Hfr) in Hl. simplify_eq.
        destruct (calculateFrequencies_lengths _ _ _ _ Hcalc Hfr) as (? & ? & _).
        destruct (area_of_total (fprs fr) (tprs fr)) as [a Ha]; congruence.
      - apply Hnone in Hfr. unfold rate_lists in Hl. by rewrite Hfr in Hl. }
  destruct Hpost as (Hdom & Hschemes & Hframe).
  exists integrated, h'. split; [done|]. split.
  { intros scheme. rewrite Hdom. apply store_frequencies_dom. }
  intros scheme fr d Hfr Hd.
  destruct (store_frequencies_fields _ _ _ _ _ Hfr Hd)
    as (x & y & z & Hx & Hy & Hz & Hxs & Hys & Hzs & Hnu).
  destruct (calculateFrequencies_lengths _ _ _ _ Hcalc Hfr) as (Hl1 & Hl2 & Hl3).
  destruct (Hschemes scheme _ _ (Hlists _ _ Hfr)) as [_ Hl].
  apply rate_lists_Some in Hl as (d' & x' & y' & Hd' & Hx' & Hy' & Hxs' & Hys').
  assert (d' = d) as -> by congruence.
  split_and!; try (by eapply field_Ok); try done.
  - eapply field_Ok; [done|]. by rewrite Hframe.
  - unfold closed_curve. simpl. rewrite length_app. simpl. lia.
  - unfold closed_curve. simpl. rewrite length_app. simpl. lia.
Qed.

End areaUnderCurve_more.

(** ** The areas areaUnderCurve returns *)

Section areaUnderCurve_areas.

Import rocAnalysis.

(** The eight accumulators stay eight. *)
Lemma accumulate_length blocks r a :
  length r = 8%nat → (8 * blocks ≤ length a)%nat →
  length (accumulate blocks r a).1 = 8%nat.
Proof.
  revert r a. induction blocks as [|blocks IH]; intros r a Hr Ha; [done|].
  simpl. apply IH.
  - rewrite length_zip_with, length_take. lia.
  - rewrite length_drop. lia.
Qed.

Lemma pairwise_sum_unfold fuel a :
  pairwise_sum (S fuel) a =
    if decide (length a < 8)%nat then foldl fadd (S754_zero false) a
    else if decide (length a ≤ 128)%nat then block_sum a
    else
      let n2 := (length a / 2 - (length a / 2) mod 8)%nat in
      fadd (pairwise_sum fuel (take n2 a)) (pairwise_sum fuel (drop n2 a)).
Proof. done. Qed.

(** The recursion of pairwise_sum ends: the sum does not depend on the
    fuel once that is the length of the array. *)
Lemma pairwise_sum_fuel fuel fuel' a :
  (length a ≤ fuel)%nat → (length a ≤ fuel')%nat →
  pairwise_sum fuel a = pairwise_sum fuel' a.
Proof.
  revert fuel' a. induction fuel as [|fuel IH]; intros fuel' a H H'.
  - destruct a; [|simpl in H; lia]. by destruct fuel'.
  - destruct fuel' as [|fuel'].
    { destruct a; [|simpl in H'; lia]. done. }
    rewrite !pairwise_sum_unfold. repeat case_decide; try done.
    cbv zeta.
    assert (64 ≤ length a / 2 < length a)%nat as Hhalf.
    { split; [apply Nat.div_le_lower_bound; lia|].
      apply Nat.div_lt; lia. }
    pose proof (Nat.mod_upper_bound (length a / 2) 8).
    f_equal; apply IH; rewrite ?length_take, ?length_drop; lia.
Qed.

Lemma length_22 {A} (l : list A) :
  length l = 22%nat →
  ∃ a0 a1 a2 a3 a4 a5 a6 a7 a8 a9 a10 a11 a12 a13 a14 a15 a16 a17 a18 a19
    a20 a21,
    l = [a0; a1; a2; a3; a4; a5; a6; a7; a8; a9; a10; a11; a12; a13; a14;
         a15; a16; a17; a18; a19; a20; a21].
Proof.
  intros H.
  do 22 (destruct l as [|? l]; [discriminate H|]).
  destruct l; [|discriminate H]. by repeat eexists.
Qed.

(** On 22 rates, trapz and the negation compute the 23 trapezoids and add
    them in the order of sum_of_23. *)
Lemma area_of_22 (xs ys : list num) :
  length xs = 22%nat → length ys = 22%nat →
  area_of xs ys = Ok (negated_area xs ys).
Proof.
  intros Hx Hy.
  destruct (length_22 xs Hx) as
    (x0&x1&x2&x3&x4&x5&x6&x7&x8&x9&x10&x11&x12&x13&x14&x15&x16&x17&x18&x19
     &x20&x21&->).
  destruct (length_22 ys Hy) as
    (y0&y1&y2&y3&y4&y5&y6&y7&y8&y9&y10&y11&y12&y13&y14&y15&y16&y17&y18&y19
     &y20&y21&->).
  cbv -[fadd fsub fmul fdiv float_of_Z to_float].
  reflexivity.
Qed.

(** X22: whenever calculateFrequencies returns, areaUnderCurve returns for
    every scheme the negated sum of the 23 trapezoids
    (x[k+1] - x[k]) * (y[k+1] + y[k]) / 2.0 of the curve that starts at
    (1, 1), runs through the 22 points (fpr, tpr) and ends at (0, 0), the
    trapezoids added in numpy's order: pairwise in one block of eight
    accumulators, then the last seven one by one. *)
Theorem areaUnderCurve_adds_trapezoids hitDict frequencies :
  calculateFrequencies hitDict = Ok frequencies →
  ∃ integrated,
    roc_area hitDict = Ok integrated ∧
    ∀ scheme fr, frequencies !! scheme = Some fr →
      integrated !! scheme = Some (negated_area (fprs fr) (tprs fr)).
Proof.
  intros Hcalc.
  unfold roc_area. rewrite Hcalc. simpl.
  destruct (store_frequencies_spec frequencies ∅) as (Hsep & Hnone & Hlists).
  destruct (store_frequencies frequencies ∅) as [refs h]. simpl in *.
  pose proof (areaUnderCurve_post refs h Hsep) as Hpost.
  destruct (areaUnderCurve refs h) as [[integrated h']|e]; simpl in *.
  - exists integrated. split; [done|]. intros scheme fr Hfr.
    destruct Hpost as (_ & Hschemes & _).
    destruct (Hschemes scheme _ _ (Hlists _ _ Hfr)) as [(a & Ha & ->) _].
    destruct (calculateFrequencies_lengths _ _ _ _ Hcalc Hfr) as (Hx & Hy & _).
    rewrite (area_of_22 _ _ Hx Hy) in Ha. congruence.
  - exfalso. destruct Hpost as (scheme & xs & ys & Hl & He).
    destruct (frequencies !! scheme) as [fr|] eqn:Hfr.
    + rewrite (Hlists _ _ Hfr) in Hl. simplify_eq.
      destruct (calculateFrequencies_lengths _ _ _ _ Hcalc Hfr) as (? & ? & _).
      destruct (area_of_total (fprs fr) (tprs fr)) as [a Ha]; congruence.
    + apply Hnone in Hfr. unfold rate_lists in Hl. by rewrite Hfr in Hl.
Qed.

(** X23: the 22 tables that separate perfectly within the population, with
    all 594 reads of each of the first k levels and none below.  The curve
    of each passes through (fpr, tpr) = (0.0, 1.0) at threshold k.  The
    area is exactly 1.0 for every k but 12, in particular for the counts
    594, 0, ..., 0; for k = 12 it is the double below 1.0. *)
Theorem areaUnderCurve_perfect_thresholds :
  (λ k, curve_point (threshold_table k) "blastn4-545" (k - 1)) <$> seq 1 22
    = replicate 22 (Some (S754_zero false, float_of_Z 1)) ∧
  (λ k, area_for (threshold_table k) "blastn4-545") <$> seq 1 22
    = <[11%nat := Some (S754_finite false 9007199254740991 (-53))]>
        (replicate 22 (Some (float_of_Z 1))) ∧
  SFltb (S754_finite false 9007199254740991 (-53)) (float_of_Z 1) = true.
Proof. vm_compute; repeat split. Qed.

(** X24: nothing confines a count to the population.  1188 hits at the
    first level, twice the 594 reads of a level, give tpr = 2.0 at index 0
    and an area of 1.5. *)
Theorem area_above_one :
  nonnegative_counts (hits_at_100 1188) ∧
  match frequencies_of (hits_at_100 1188) "blastn4-545" with
  | Some fr =>
      raw fr = 1188 :: replicate 21 0 ∧
      tprs fr !! 0%nat = Some (Float (float_of_Z 2)) ∧
      fprs fr !! 0%nat = Some (Float (S754_zero false))
  | None => False
  end ∧
  area_for (hits_at_100 1188) "blastn4-545" = Some (float_of_ratio 3 2) ∧
  SFleb (float_of_ratio 3 2) (float_of_Z 1) = false.
Proof.
  split; [by apply hits_at_100_nonnegative|]. by vm_compute.
Qed.

(** X25: the order in which the trapezoids are added shows in the result.
    On the counts 21, 20, ..., 0 areaUnderCurve returns
    0.5094151390447687, one unit in the last place below what the same
    trapezoids give when they are added one after the other. *)
Theorem areaUnderCurve_order_of_addition :
  area_for descending_table "blastn4-545"
    = Some (S754_finite false 4588403660757819 (-53)) ∧
  area_of_scheme left_to_right_area descending_table "blastn4-545"
    = Some (S754_finite false 4588403660757820 (-53)).
Proof. vm_compute; repeat split. Qed.

End areaUnderCurve_areas.

Section computePercentId_more.

Import nicola.

Lemma string_length_list (s : string) :
  length (list_ascii_of_string s) = String.length s.
Proof. induction s; simpl; congruence. Qed.

Lemma computePercentId_result alignment hsp rest :
  hsps alignment = hsp :: rest →
  computePercentId alignment =
  percent_identity_result (identity_count (hsp_query hsp) (sbjct hsp))
                          (String.length (hsp_query hsp)).
Proof.
  intros Hhsps. unfold computePercentId, getitem, percent_identity_result.
  rewrite Hhsps. simpl. rewrite identical_loop. done.
Qed.

(** X14: the exceptions of computePercentId, for a query shorter than 2^53:
    IndexError for an alignment without pairs, ZeroDivisionError for an
    empty query; on every other alignment it returns. *)
Theorem computePercentId_raises alignment e :
  (∀ hsp rest, hsps alignment = hsp :: rest →
     Z.of_nat (String.length (hsp_query hsp)) < 2 ^ 53) →
  computePercentId alignment = Raise e ↔
  (hsps alignment = [] ∧ e = IndexError) ∨
  (∃ hsp rest, hsps alignment = hsp :: rest ∧ hsp_query hsp = ""%string ∧
     e = ZeroDivisionError).
Proof.
  intros Hlen. destruct (hsps alignment) as [|hsp rest] eqn:Hhsps.
  { unfold computePercentId, getitem. rewrite Hhsps. simpl. split.
    - intros [= <-]. by left.
    - intros [[_ ->] | (? & ? & [=] & _)]. done. }
  rewrite (computePercentId_result alignment hsp rest Hhsps).
  specialize (Hlen hsp rest eq_refl).
  pose proof (identity_count_le (hsp_query hsp) (sbjct hsp)) as Hk.
  unfold percent_identity_result.
  destruct (py_float_exact (Z.of_nat (String.length (hsp_query hsp))))
    as [-> HLnz]; [lia|].
  destruct (py_float_exact
              (Z.of_nat (identity_count (hsp_query hsp) (sbjct hsp))))
    as [-> _]; [lia|]. simpl.
  destruct (hsp_query hsp) as [|c q] eqn:Hq.
  - split.
    + intros [= <-]. right. by exists hsp, rest.
    + intros [[[=] _] | (? & ? & _ & _ & ->)]. done.
  - unfold float_div. rewrite HLnz by (simpl; lia). split; [done|].
    intros [[[=] _] | (? & ? & [= <- <-] & Hq' & _)]. congruence.
Qed.

Lemma identity_count_sym (query sbjct : string) :
  identity_count query sbjct = identity_count sbjct query.
Proof.
  unfold identity_count.
  generalize (list_ascii_of_string query) (list_ascii_of_string sbjct).
  intros l. induction l as [|a l IH]; intros [|b k]; simpl; try done.
  rewrite !filter_cons. simpl.
  destruct (decide (a = b)) as [->|Hne].
  - rewrite !decide_True by done. simpl. by rewrite IH.
  - rewrite !decide_False by done. apply IH.
Qed.

(** X15: for a query and a subject of the same length, the percent identity
    is the same when the two change places. *)
Theorem computePercentId_symmetric alignment alignment' hsp hsp' rest rest' :
  hsps alignment = hsp :: rest → hsps alignment' = hsp' :: rest' →
  hsp_query hsp' = sbjct hsp → sbjct hsp' = hsp_query hsp →
  String.length (hsp_query hsp) = String.length (sbjct hsp) →
  computePercentId alignment' = computePercentId alignment.
Proof.
  intros Hh Hh' Hq Hs Hlen.
  rewrite (computePercentId_result _ _ _ Hh), (computePercentId_result _ _ _ Hh').
  by rewrite Hq, Hs, identity_count_sym, Hlen.
Qed.

(** X16: computePercentId reads the subject only as far as the query
    reaches: two alignments with the same query, whose subjects agree on
    that length, have the same percent identity. Positions of the query
    beyond the end of the subject count as mismatches. *)
Theorem computePercentId_subject_prefix alignment alignment' hsp hsp' rest rest' :
  hsps alignment = hsp :: rest → hsps alignment' = hsp' :: rest' →
  hsp_query hsp' = hsp_query hsp →
  take (String.length (hsp_query hsp)) (list_ascii_of_string (sbjct hsp'))
  = take (String.length (hsp_query hsp)) (list_ascii_of_string (sbjct hsp)) →
  computePercentId alignment' = computePercentId alignment.
Proof.
  intros Hh Hh' Hq Hs.
  rewrite (computePercentId_result _ _ _ Hh), (computePercentId_result _ _ _ Hh').
  rewrite Hq.
  assert (identity_count (hsp_query hsp) (sbjct hsp')
          = identity_count (hsp_query hsp) (sbjct hsp)) as ->; [|done].
  unfold identity_count.
  rewrite <-(zip_with_take_r _ _ (list_ascii_of_string (sbjct hsp'))).
  rewrite <-(zip_with_take_r _ _ (list_ascii_of_string (sbjct hsp))).
  by rewrite string_length_list, Hs.
Qed.

End computePercentId_more.


Section colour_properties.

Import nicola.

Lemma split_length (sep : ascii) (s : string) :
  length (split sep s) = S (occurrences sep s).
Proof.
  induction s as [|a s IH]; simpl; [done|].
  destruct (Ascii.eqb a sep); simpl; [by rewrite IH|].
  destruct (split sep s); simpl in *; [done | lia].
Qed.

(** X17: _getCountry raises nothing. It returns the integer 0 exactly for
    the titles with fewer than two slashes, and a colour for every other
    title. *)
Theorem getCountry_short_title title :
  (_getCountry title = Ok (IntValue 0) ↔ (occurrences "/" title < 2)%nat) ∧
  ((2 ≤ occurrences "/" title)%nat →
   ∃ c, _getCountry title = Ok (StrValue c) ∧
        c ∈ [EURASIA; NORTHAMERICA; SOUTHAMERICA; AFRICA; "white"%string]).
Proof.
  pose proof (split_length "/" title) as Hlen.
  unfold _getCountry, getitem.
  destruct (split "/" title !! 2%nat) as [country|] eqn:Hc.
  - apply lookup_lt_Some in Hc as Hlt.
    assert (∃ c, (if bool_decide (country ∈ EURASIAREGEX)
                  then Ok (StrValue EURASIA)
                  else if bool_decide (country ∈ NORTHAMERICAREGEX)
                  then Ok (StrValue NORTHAMERICA)
                  else if bool_decide (country ∈ SOUTHAMERICAREGEX)
                  then Ok (StrValue SOUTHAMERICA)
                  else if bool_decide (country ∈ AFRICAREGEX)
                  then Ok (StrValue AFRICA)
                  else Ok (StrValue "white")) = Ok (StrValue c) ∧
                 c ∈ [EURASIA; NORTHAMERICA; SOUTHAMERICA; AFRICA;
                      "white"%string]) as (c & -> & Hin).
    { repeat case_bool_decide; eexists; (split; [done|]);
        rewrite !elem_of_cons; auto 10. }
    split; [split; [done | lia]|]. intros _. by exists c.
  - apply lookup_ge_None in Hc. split; [split; [lia | done] | lia].
Qed.

Lemma disjoint_lists (l k : list string) (country : string) :
  bool_decide (Forall (λ c, c ∉ k) l) = true →
  country ∈ l → country ∉ k.
Proof.
  intros Hall%bool_decide_eq_true Hl. rewrite Forall_forall in Hall. auto.
Qed.

(** X18: the colour _getCountry returns tells the list that holds the third
    field of the title: no country is in two of the four lists, and the
    four colours and white differ. *)
Theorem getCountry_continent title country :
  split "/" title !! 2%nat = Some country →
  (_getCountry title = Ok (StrValue EURASIA) ↔ country ∈ EURASIAREGEX) ∧
  (_getCountry title = Ok (StrValue NORTHAMERICA)
     ↔ country ∈ NORTHAMERICAREGEX) ∧
  (_getCountry title = Ok (StrValue SOUTHAMERICA)
     ↔ country ∈ SOUTHAMERICAREGEX) ∧
  (_getCountry title = Ok (StrValue AFRICA) ↔ country ∈ AFRICAREGEX) ∧
  (_getCountry title = Ok (StrValue "white") ↔
     country ∉ EURASIAREGEX ++ NORTHAMERICAREGEX ++ SOUTHAMERICAREGEX
               ++ AFRICAREGEX).
Proof.
  intros Hc. unfold _getCountry, getitem. rewrite Hc.
  pose proof (disjoint_lists NORTHAMERICAREGEX EURASIAREGEX country eq_refl).
  pose proof (disjoint_lists SOUTHAMERICAREGEX EURASIAREGEX country eq_refl).
  pose proof (disjoint_lists AFRICAREGEX EURASIAREGEX country eq_refl).
  pose proof (disjoint_lists SOUTHAMERICAREGEX NORTHAMERICAREGEX country eq_refl).
  pose proof (disjoint_lists AFRICAREGEX NORTHAMERICAREGEX country eq_refl).
  pose proof (disjoint_lists AFRICAREGEX SOUTHAMERICAREGEX country eq_refl).
  rewrite !elem_of_app.
  repeat case_bool_decide; split_and!; split; try done; tauto.
Qed.

Lemma lower_lower (c : ascii) : lower (lower c) = lower c.
Proof. by destruct c as [[] [] [] [] [] [] [] []]. Qed.

Lemma starts_with_lower (word s : string) :
  starts_with word (lower_string s) = starts_with word s.
Proof.
  revert s. induction word as [|a word IH]; intros [|b s]; simpl; try done.
  by rewrite lower_lower, IH.
Qed.

Lemma occurs_lower (word s : string) :
  occurs word (lower_string s) = occurs word s.
Proof.
  induction s as [|b s IH].
  - done.
  - change (lower_string (String b s))
      with (String (lower b) (lower_string s)).
    cbn [occurs]. rewrite IH. f_equal.
    apply (starts_with_lower word (String b s)).
Qed.

Lemma search_lower (pattern title : string) :
  search pattern (lower_string title) = search pattern title.
Proof.
  unfold search. induction (split "|" pattern) as [|word l IH]; simpl; [done|].
  by rewrite occurs_lower, IH.
Qed.

(** X19: _getBird does not see the case of the letters of a title: two
    titles that are the same in lower case get the same colour. *)
Theorem getBird_ignores_case title title' colorBy :
  lower_string title = lower_string title' →
  _getBird title colorBy = _getBird title' colorBy.
Proof.
  intros Hlow. unfold _getBird.
  assert (∀ pattern, search pattern title = search pattern title') as Hs.
  { intros pattern.
    by rewrite <-(search_lower pattern title), Hlow, search_lower. }
  by rewrite !Hs.
Qed.

(** The letters of a string, in lower case. *)
Lemma starts_with_spec (word s : string) :
  starts_with word s = true ↔
  ∃ t, lower <$> list_ascii_of_string s
       = (lower <$> list_ascii_of_string word) ++ t.
Proof.
  revert s. induction word as [|a word IH]; intros [|b s]; simpl.
  - split; [by exists [] | done].
  - split; [by eexists | done].
  - split; [done | by intros [t [=]]].
  - rewrite andb_true_iff, IH. split.
    + intros [Hab%Ascii.eqb_eq [t Ht]]. exists t. simpl. by f_equal.
    + intros [t [= Hab Ht]]. split; [by apply Ascii.eqb_eq | by exists t].
Qed.

Lemma occurs_spec (word s : string) :
  occurs word s = true ↔
  ∃ p t, lower <$> list_ascii_of_string s
         = p ++ (lower <$> list_ascii_of_string word) ++ t.
Proof.
  induction s as [|b s IH].
  - cbn [occurs]. rewrite orb_false_r, starts_with_spec. split.
    + intros [t Ht]. by exists [], t.
    + intros (p & t & Hs). simpl in Hs.
      symmetry in Hs. apply app_eq_nil in Hs as [-> Hs]. by exists t.
  - cbn [occurs]. rewrite orb_true_iff, IH, starts_with_spec. split.
    + intros [[t Ht] | (p & t & Ht)]; [by exists [], t|].
      exists (lower b :: p), t. simpl. by f_equal.
    + intros ([|c p] & t & Ht); [left; by exists t|].
      right. simpl in Ht. injection Ht as _ Ht. by exists p, t.
Qed.

Lemma occurs_trans (w1 w2 s : string) :
  occurs w1 w2 = true → occurs w2 s = true → occurs w1 s = true.
Proof.
  rewrite !occurs_spec. intros (p1 & t1 & H1) (p2 & t2 & H2).
  exists (p2 ++ p1), (t1 ++ t2). rewrite H2, H1. by rewrite <-!app_assoc.
Qed.

(** A pattern whose every word contains a word of another pattern is found
    only where the other pattern is found. *)
Lemma search_subsumed (fine coarse title : string) :
  subsumed fine coarse = true →
  search fine title = true → search coarse title = true.
Proof.
  unfold subsumed, search at 2.
  rewrite forallb_forall, existsb_exists.
  intros Hall (word & Hword & Hocc). apply Hall in Hword.
  unfold search in *. rewrite existsb_exists in *.
  destruct Hword as (w & Hw & Hin). exists w. split; [done|].
  by eapply occurs_trans.
Qed.

(** X20: the two colourings agree on the orders. A title that gets the
    colour of a subgroup of the Anseriformes when the colours are by
    Anseriformes and Charadriiformes gets the colour of the Anseriformes
    when they are by all groups; a title that gets the colour of a subgroup
    of the Charadriiformes gets the colour of one of the two orders. *)
Theorem getBird_orders_agree title c :
  _getBird title "anseriformes and charadriiformes" = Some c →
  (c ∈ anseriformes_colours →
   _getBird title "all" = Some (colour "ANSERIFORMES")) ∧
  (c ∈ charadriiformes_colours →
   _getBird title "all" = Some (colour "ANSERIFORMES") ∨
   _getBird title "all" = Some (colour "CHARADRIIFORMES")).
Proof.
  unfold _getBird. simpl String.eqb. cbv iota zeta.
  destruct (search ANATINAEREGEX title) eqn:EANATINAE.
  { rewrite (search_subsumed ANATINAEREGEX ANSERIFORMESREGEX title eq_refl EANATINAE).
    intros [= <-]. split; [done|]. intros Hin. exfalso. revert Hin.
    apply (bool_decide_unpack _). by vm_compute. }
  destruct (search AYTHYAREGEX title) eqn:EAYTHYA.
  { rewrite (search_subsumed AYTHYAREGEX ANSERIFORMESREGEX title eq_refl EAYTHYA).
    intros [= <-]. split; [done|]. intros Hin. exfalso. revert Hin.
    apply (bool_decide_unpack _). by vm_compute. }
  destruct (search MERGINIREGEX title) eqn:EMERGINI.
  { rewrite (search_subsumed MERGINIREGEX ANSERIFORMESREGEX title eq_refl EMERGINI).
    intros [= <-]. split; [done|]. intros Hin. exfalso. revert Hin.
    apply (bool_decide_unpack _). by vm_compute. }
  destruct (search TADORNINIREGEX title) eqn:ETADORNINI.
  { rewrite (search_subsumed TADORNINIREGEX ANSERIFORMESREGEX title eq_refl ETADORNINI).
    intros [= <-]. split; [done|]. intros Hin. exfalso. revert Hin.
    apply (bool_decide_unpack _). by vm_compute. }
  destruct (search SWANREGEX title) eqn:ESWAN.
  { rewrite (search_subsumed SWANREGEX ANSERIFORMESREGEX title eq_refl ESWAN).
    intros [= <-]. split; [done|]. intros Hin. exfalso. revert Hin.
    apply (bool_decide_unpack _). by vm_compute. }
  destruct (search GOOSEREGEX title) eqn:EGOOSE.
  { rewrite (search_subsumed GOOSEREGEX ANSERIFORMESREGEX title eq_refl EGOOSE).
    intros [= <-]. split; [done|]. intros Hin. exfalso. revert Hin.
    apply (bool_decide_unpack _). by vm_compute. }
  destruct (search GULLREGEX title) eqn:EGULL.
  { rewrite (search_subsumed GULLREGEX CHARADRIIFORMESREGEX title eq_refl EGULL).
    intros [= <-]. split.
    - intros Hin. exfalso. revert Hin.
      apply (bool_decide_unpack _). by vm_compute.
    - intros _. destruct (search ANSERIFORMESREGEX title); auto. }
  destruct (search TERNREGEX title) eqn:ETERN.
  { rewrite (search_subsumed TERNREGEX CHARADRIIFORMESREGEX title eq_refl ETERN).
    intros [= <-]. split.
    - intros Hin. exfalso. revert Hin.
      apply (bool_decide_unpack _). by vm_compute.
    - intros _. destruct (search ANSERIFORMESREGEX title); auto. }
  destruct (search WADERREGEX title) eqn:EWADER.
  { rewrite (search_subsumed WADERREGEX CHARADRIIFORMESREGEX title eq_refl EWADER).
    intros [= <-]. split.
    - intros Hin. exfalso. revert Hin.
      apply (bool_decide_unpack _). by vm_compute.
    - intros _. destruct (search ANSERIFORMESREGEX title); auto. }
  destruct (search AUKREGEX title) eqn:EAUK.
  { rewrite (search_subsumed AUKREGEX CHARADRIIFORMESREGEX title eq_refl EAUK).
    intros [= <-]. split.
    - intros Hin. exfalso. revert Hin.
      apply (bool_decide_unpack _). by vm_compute.
    - intros _. destruct (search ANSERIFORMESREGEX title); auto. }
  destruct (search DOMESTICREGEX title); intros [= <-];
    split; intros Hin; exfalso; revert Hin;
    apply (bool_decide_unpack _); by vm_compute.
Qed.

(** X21: DOMESTIC is bound to blue and later to black, the colour of
    INDETERMINATEHOST, and _getBird runs after both bindings. With the
    colours by all groups it never returns blue, and a title of a domestic
    bird gets the colour of a title whose host is not determined. *)
Theorem getBird_domestic_is_black title :
  colour "DOMESTIC" = "black"%string ∧
  colour "DOMESTIC" = colour "INDETERMINATEHOST" ∧
  _getBird title "all" ≠ Some "blue"%string ∧
  (_getBird title "all" = Some "black"%string ↔
   search ANSERIFORMESREGEX title = false ∧
   search CHARADRIIFORMESREGEX title = false ∧
   search PELICANIFORMESREGEX title = false ∧
   (search DOMESTICREGEX title = true ∨
    search COLUMBIFORMESREGEX title = false ∧
    search PASSERIFORMESREGEX title = false ∧
    search PSITTATICIFORMESREGEX title = false ∧
    search RAPTORREGEX title = false ∧
    search INDETERMINATEHOSTREGEX title = true)).
Proof.
  split; [by vm_compute|]. split; [by vm_compute|].
  unfold _getBird. simpl String.eqb. cbv iota zeta.
  assert (colour "ANSERIFORMES" = "green"%string) as -> by (by vm_compute).
  assert (colour "CHARADRIIFORMES" = "red"%string) as -> by (by vm_compute).
  assert (colour "PELICANIFORMES" = "cyan"%string) as -> by (by vm_compute).
  assert (colour "DOMESTIC" = "black"%string) as -> by (by vm_compute).
  assert (colour "COLUMBIFORMES" = "magenta"%string) as -> by (by vm_compute).
  assert (colour "PASSERIFORMES" = "orange"%string) as -> by (by vm_compute).
  assert (colour "PSITTATICIFORMES" = "#4C0B5F"%string) as ->
    by (by vm_compute).
  assert (colour "RAPTOR" = "yellow"%string) as -> by (by vm_compute).
  assert (colour "INDETERMINATEHOST" = "black"%string) as ->
    by (by vm_compute).
  assert (colour "NEITHER" = "grey"%string) as -> by (by vm_compute).
  destruct (search ANSERIFORMESREGEX title),
    (search CHARADRIIFORMESREGEX title), (search PELICANIFORMESREGEX title),
    (search DOMESTICREGEX title), (search COLUMBIFORMESREGEX title),
    (search PASSERIFORMESREGEX title), (search PSITTATICIFORMESREGEX title),
    (search RAPTORREGEX title), (search INDETERMINATEHOSTREGEX title);
    (split; [done|]); split; try done; try tauto;
    intros (? & ? & ? & [? | (? & ? & ? & ? & ?)]); done.
Qed.

End colour_properties.


(** ** The theorems at the example inputs *)

Import rocAnalysis nicola.

(** C4 fails at a path: the name returned is a component of the path, not
    the path the caller supplied. The file has three reads at level 95: the
    one without alignments is skipped, the one scoring 38.2 is counted and
    the one scoring the cutoff 30 is not. *)
Lemma countHits_title_is_not_the_path :
  countHits example_records example_path (Int 30)
    = Ok ("blastn4-545", <["95" := 1]> readsPerLevel_init) ∧
  "blastn4-545" ≠ example_path.
Proof. split; [vm_compute; exact eq_refl | discriminate]. Qed.

(** The scheme name of the example path. *)
Lemma countHits_title_from_path_example :
  path_scheme_name example_path = Some "blastn4-545".
Proof.
  apply (proj1 (countHits_title_from_path example_records example_path (Int 30))
           "blastn4-545" (<["95" := 1]> readsPerLevel_init)).
  vm_compute; exact eq_refl.
Defined.

(** The true positives of the perfectly separating scheme never shrink. *)
Lemma tps_monotone_example :
  length (tps perfect_scheme) = 22%nat ∧
  ∀ i j a b, (i ≤ j)%nat →
    tps perfect_scheme !! i = Some a → tps perfect_scheme !! j = Some b →
    a ≤ b.
Proof.
  apply (tps_monotone (hits_at_100 594) perfect_frequencies "blastn4-545").
  - vm_compute; exact eq_refl.
  - vm_compute; exact eq_refl.
  - vm_compute. repeat constructor; discriminate.
Defined.

(** The populations of the perfectly separating scheme. *)
Lemma population_conservation_example :
  (length (tps perfect_scheme) = 22 ∧ length (fns perfect_scheme) = 22 ∧
   length (tns perfect_scheme) = 22 ∧ length (fps perfect_scheme) = 22)%nat ∧
  ∀ i tp fn tn fp,
    tps perfect_scheme !! i = Some tp → fns perfect_scheme !! i = Some fn →
    tns perfect_scheme !! i = Some tn → fps perfect_scheme !! i = Some fp →
    tp + fn = 594 * (Z.of_nat i + 1) ∧
    tn + fp = 594 * (22 - (Z.of_nat i + 1)).
Proof.
  apply (population_conservation (hits_at_100 594) perfect_frequencies
           "blastn4-545").
  - vm_compute; exact eq_refl.
  - vm_compute; exact eq_refl.
Defined.

(** calculateFrequencies returns on the perfectly separating table, with
    fpr and spc equal to 0 at the last index. *)
Lemma divisions_safe_example :
  ∃ frequencies,
    calculateFrequencies (hits_at_100 594) = Ok frequencies ∧
    (∀ scheme, is_Some (hits_at_100 594 !! scheme) →
               is_Some (frequencies !! scheme)) ∧
    (∀ scheme fr, frequencies !! scheme = Some fr →
       fprs fr !! 21%nat = Some (Int 0) ∧
       spcs fr !! 21%nat = Some (Int 0)).
Proof.
  apply (proj2 (proj2 (divisions_safe (hits_at_100 594)))).
  unfold hits_at_100. intros scheme counts [<- <-]%lookup_singleton_Some.
  exists (594 :: replicate 21 0).
  split; [vm_compute; exact eq_refl|].
  split; [vm_compute; repeat constructor; discriminate | vm_compute; exact eq_refl].
Defined.


(** countHits on the example path: the all-zero table for a file without
    records, and a table for the example file. *)
Lemma countHits_table_example :
  (∃ readsPerLevel,
     countHits (λ _, []) example_path (Int 30)
       = Ok ("blastn4-545", readsPerLevel) ∧
     ∀ level, level ∈ level_names → readsPerLevel !! level = Some 0) ∧
  (∃ readsPerLevel,
     countHits example_records example_path (Int 30)
       = Ok ("blastn4-545", readsPerLevel)).
Proof.
  split.
  - apply (proj1 (proj2 (countHits_table (λ _, []) example_path (Int 30)
                           "blastn4-545"))).
    + vm_compute; exact eq_refl.
    + reflexivity.
  - apply (proj2 (proj2 (countHits_table example_records example_path (Int 30)
                           "blastn4-545"))).
    + vm_compute; exact eq_refl.
    + assert ("95" ∈ level_names) as H95 by (vm_compute; repeat constructor).
      repeat constructor; try (by exists "95"); done.
Defined.

(** A read whose first alignment has no high-scoring pair, after a read
    without alignments: countHits raises IndexError. *)
Lemma count_record_no_hsps_example :
  count_record (Int 30) readsPerLevel_init no_hsps_read = Raise IndexError ∧
  countHits (λ _, [read "gi|1|95" []; no_hsps_read]) example_path (Int 30)
    = Raise IndexError.
Proof.
  destruct (count_record_no_hsps (λ _, [read "gi|1|95" []; no_hsps_read])
              example_path (Int 30) [read "gi|1|95" []] no_hsps_read []
              {| hsps := [] |} [] eq_refl eq_refl) as [H1 H2].
  split; [apply H1|].
  destruct (H2 eq_refl) as [_ H3].
  apply (H3 readsPerLevel_init). vm_compute; exact eq_refl.
Defined.

(** The alignment of testComputePercentIdRealistic: 23 identities in 24
    positions. *)
Lemma computePercentId_spec_example :
  computePercentId test_realistic = Ok (percent_identity_code 23 24).
Proof.
  destruct (computePercentId_spec test_realistic
              (test_alignment_hsp test_realistic) [] eq_refl) as [H _].
  - vm_compute; exact eq_refl.
  - apply H. discriminate.
Defined.

(** ** The further properties at example inputs *)

Lemma countHits_counts_example :
  (<["95" := 1]> readsPerLevel_init : gmap string Z) !! "95"
  = Some (hits_of (Int 30) "95" (example_records example_path)).
Proof.
  apply (countHits_counts example_records example_path (Int 30) "blastn4-545").
  - vm_compute; exact eq_refl.
  - apply (bool_decide_unpack _). vm_compute. exact I.
Defined.

Lemma countHits_order_example :
  countHits reversed_records example_path (Int 30)
  = Ok ("blastn4-545", <["95" := 1]> readsPerLevel_init).
Proof.
  apply (countHits_order example_records reversed_records).
  - symmetry. apply reverse_Permutation.
  - vm_compute; exact eq_refl.
Defined.

Lemma calculateFrequencies_totals_example :
  (∃ counts, hits_at_100 594 !! "blastn4-545" = Some counts ∧
     Forall2 (λ nr n, counts !! str nr = Some n) levels (raw perfect_scheme)) ∧
  (∀ i tp fp, tps perfect_scheme !! i = Some tp →
     fps perfect_scheme !! i = Some fp → tp + fp = sum (raw perfect_scheme)) ∧
  tps perfect_scheme !! 21%nat = Some (sum (raw perfect_scheme)) ∧
  fps perfect_scheme !! 21%nat = Some 0 ∧
  tns perfect_scheme !! 21%nat = Some 0 ∧
  fns perfect_scheme !! 21%nat = Some (594 * 22 - sum (raw perfect_scheme)).
Proof.
  apply (calculateFrequencies_totals (hits_at_100 594) perfect_frequencies
           "blastn4-545").
  - vm_compute; exact eq_refl.
  - vm_compute; exact eq_refl.
Defined.

Lemma calculateFrequencies_within_population_example :
  Forall (λ r, 0 ≤ r ≤ 594) (raw perfect_scheme) ∧
  ∀ i tp fn tn fp,
    tps perfect_scheme !! i = Some tp → fns perfect_scheme !! i = Some fn →
    tns perfect_scheme !! i = Some tn → fps perfect_scheme !! i = Some fp →
    0 ≤ tp ≤ 594 * (Z.of_nat i + 1) ∧ 0 ≤ fn ∧
    0 ≤ tn ∧ 0 ≤ fp ≤ 594 * (22 - (Z.of_nat i + 1)).
Proof.
  assert (Forall (λ r, 0 ≤ r ≤ 594) (raw perfect_scheme)) as Hraw.
  { assert (raw perfect_scheme = 594 :: replicate 21 0) as ->
      by (vm_compute; exact eq_refl).
    simpl. repeat (constructor; [lia|]). constructor. }
  split; [exact Hraw|].
  apply (calculateFrequencies_within_population (hits_at_100 594)
           perfect_frequencies "blastn4-545").
  - vm_compute; exact eq_refl.
  - vm_compute; exact eq_refl.
  - exact Hraw.
Defined.

Lemma areaUnderCurve_closes_lists_example :
  ∃ integrated h',
    areaUnderCurve (store_frequencies perfect_frequencies ∅).1
                   (store_frequencies perfect_frequencies ∅).2
      = Ok (integrated, h') ∧
    (∀ scheme, is_Some (integrated !! scheme)
               ↔ is_Some (perfect_frequencies !! scheme)) ∧
    ∀ scheme fr d,
      perfect_frequencies !! scheme = Some fr →
      (store_frequencies perfect_frequencies ∅).1 !! scheme = Some d →
      field d "fprs" h' = Ok (closed_curve (fprs fr)) ∧
      field d "tprs" h' = Ok (closed_curve (tprs fr)) ∧
      field d "spcs" h' = Ok (spcs fr) ∧
      length (closed_curve (fprs fr)) = 24%nat ∧
      length (closed_curve (tprs fr)) = 24%nat ∧
      length (spcs fr) = 22%nat.
Proof.
  apply (areaUnderCurve_closes_lists (hits_at_100 594)).
  vm_compute; exact eq_refl.
Defined.

Lemma youdenIndex_first_maximum_example :
  youdenIndex perfect_store.1 perfect_store.2
    = Ok ([(Float (float_of_Z 1), Float (S754_zero false))], [0%nat]) ∧
  length [0%nat] = size perfect_store.1.
Proof.
  assert (youdenIndex perfect_store.1 perfect_store.2
          = Ok ([(Float (float_of_Z 1), Float (S754_zero false))], [0%nat]))
    as H by (vm_compute; exact eq_refl).
  split; [exact H|].
  exact (proj1 (proj2 (youdenIndex_first_maximum _ _ _ _ H))).
Defined.

Lemma youdenIndex_of_calculateFrequencies_example :
  ∃ r, youdenIndex (store_frequencies perfect_frequencies ∅).1
                   (store_frequencies perfect_frequencies ∅).2 = Ok r ∧
       youden_results (store_frequencies perfect_frequencies ∅).1
                      (lists_of perfect_frequencies) r ∧
       length r.1 = size perfect_frequencies ∧
       length r.2 = size perfect_frequencies ∧
       Forall (λ cutoff, (cutoff < 22)%nat) r.2.
Proof.
  apply (youdenIndex_of_calculateFrequencies (hits_at_100 594)).
  vm_compute; exact eq_refl.
Defined.

Lemma youdenIndex_after_areaUnderCurve_example :
  ∃ r, youdenIndex (store_frequencies perfect_frequencies ∅).1 perfect_area.2
         = Ok r ∧
       youden_results (store_frequencies perfect_frequencies ∅).1
                      (closed_lists_of perfect_frequencies) r.
Proof.
  apply (youdenIndex_after_areaUnderCurve (hits_at_100 594)
           perfect_frequencies perfect_area.1 perfect_area.2).
  - vm_compute; exact eq_refl.
  - vm_compute; exact eq_refl.
Defined.

Lemma f1Index_first_minimum_example :
  f1Index exact_pow2 perfect_store.1 perfect_store.2
    = Ok ([(Float (float_of_Z 1), Float (S754_zero false))], [0%nat]) ∧
  length [0%nat] = size perfect_store.1.
Proof.
  assert (f1Index exact_pow2 perfect_store.1 perfect_store.2
          = Ok ([(Float (float_of_Z 1), Float (S754_zero false))], [0%nat]))
    as H by (vm_compute; exact eq_refl).
  split; [exact H|].
  exact (proj1 (proj2 (f1Index_first_minimum _ _ _ _ _ H))).
Defined.

Lemma areaUnderCurveIndex_order_example :
  ∃ i1 i2, areaUnderCurveIndex two_areas !! "blastn4-545" = Some i1 ∧
           areaUnderCurveIndex two_areas !! "blastn2-333" = Some i2 ∧
           (i1 < i2)%nat.
Proof.
  apply (areaUnderCurveIndex_order two_areas "blastn4-545" "blastn2-333"
           (float_of_Z 1) (float_of_ratio 1 2)).
  - apply map_Forall_to_list. vm_compute. repeat constructor; discriminate.
  - vm_compute; exact eq_refl.
  - vm_compute; exact eq_refl.
  - vm_compute; exact eq_refl.
Defined.

Lemma computePercentId_raises_example :
  computePercentId test_empty_query = Raise ZeroDivisionError.
Proof.
  apply computePercentId_raises.
  - intros hsp rest H. injection H as <- <-. simpl. lia.
  - right. eexists _, _. repeat split; reflexivity.
Defined.

Lemma computePercentId_symmetric_example :
  computePercentId test_swapped = computePercentId test_realistic.
Proof.
  eapply (computePercentId_symmetric test_realistic test_swapped);
    reflexivity.
Defined.

Lemma computePercentId_subject_prefix_example :
  computePercentId test_longer_subject = computePercentId test_realistic.
Proof.
  eapply (computePercentId_subject_prefix test_realistic test_longer_subject);
    reflexivity.
Defined.

Lemma getCountry_continent_example :
  "Mongolia"%string ∈ EURASIAREGEX ∧
  _getCountry "I'm/a randomtitle I'm from/Mongolia" = Ok (StrValue EURASIA).
Proof.
  assert ("Mongolia"%string ∈ EURASIAREGEX) as Hin.
  { apply (bool_decide_unpack _). vm_compute. exact I. }
  split; [exact Hin|].
  apply (getCountry_continent "I'm/a randomtitle I'm from/Mongolia" "Mongolia");
    [reflexivity | exact Hin].
Defined.

Lemma getBird_ignores_case_example :
  _getBird "A/MALLARD/Ohio" "all" = _getBird "a/mallard/ohio" "all".
Proof. apply getBird_ignores_case. reflexivity. Defined.

Lemma getBird_orders_agree_example :
  _getBird "I'm an anatinae and I'm a teal" "all"
  = Some (colour "ANSERIFORMES").
Proof.
  apply (getBird_orders_agree "I'm an anatinae and I'm a teal" "green").
  - vm_compute; exact eq_refl.
  - apply (bool_decide_unpack _). vm_compute. exact I.
Defined.

(** The area of every scheme of the perfectly separating table. *)
Lemma areaUnderCurve_adds_trapezoids_example :
  ∃ integrated,
    roc_area (hits_at_100 594) = Ok integrated ∧
    ∀ scheme fr, perfect_frequencies !! scheme = Some fr →
      integrated !! scheme = Some (negated_area (fprs fr) (tprs fr)).
Proof.
  apply (areaUnderCurve_adds_trapezoids (hits_at_100 594) perfect_frequencies).
  vm_compute; exact eq_refl.
Defined.

(** The tests of the colours in test/test_nicola.py. *)
Lemma colour_tests :
  _getBird "I'm a random title and don't contain anything" "all"
    = Some (colour "NEITHER") ∧
  _getBird "I'm a random title and don't contain anything"
           "anseriformes and charadriiformes" = Some (colour "OTHER") ∧
  _getBird "I'm an anatinae and I'm a teal"
           "anseriformes and charadriiformes" = Some (colour "ANATINAE") ∧
  _getBird "I'm from all and I'm a tern" "all"
    = Some (colour "CHARADRIIFORMES") ∧
  _getCountry "I'm/a randomtitle I'm from/Mongolia" = Ok (StrValue EURASIA) ∧
  _getCountry "I'm/a randomtitle I'm from/space" = Ok (StrValue "white").
Proof. by vm_compute. Qed.

